(** * lwan worker I/O loop (src/lib/lwan-thread.c): death queue, coroutine
      resume and reactor registration, as a shallow embedding.

    The connection table and the death queue are modelled as the C code has
    them: an array of connection records linked through signed indices, with
    a sentinel head stored next to the array.  Unsigned 32-bit arithmetic is
    written out with [u32]; connection flags are bit masks over [Z].
    External services (the coroutine body, [coro_new], [epoll_ctl], the SPSC
    queue) are inputs of the functions that call them. *)

From Stdlib Require Import ZArith String Lia.
From stdpp Require Import base option list sorting gmap.

Local Open Scope Z_scope.

(** ** Constants *)

(** Modelled from the spec: [enum lwan_connection_flags] is declared in
    lwan.h, which is not part of the sources; the spec lists the flags as
    members of a bit set, so each one is a distinct single bit. *)
Definition CONN_KEEP_ALIVE : Z := Z.shiftl 1 0.
Definition CONN_IS_ALIVE : Z := Z.shiftl 1 1.
Definition CONN_SHOULD_RESUME_CORO : Z := Z.shiftl 1 2.
Definition CONN_WRITE_EVENTS : Z := Z.shiftl 1 3.
Definition CONN_MUST_READ : Z := Z.shiftl 1 4.

(** Modelled from the spec: [enum lwan_connection_coro_yield] (lwan.h).  The
    comment in [resume_coro_if_needed] fixes ABORT = -1 and MAY_RESUME = 0;
    every larger value is a yield that does not ask to be resumed. *)
Definition CONN_CORO_ABORT : Z := -1.
Definition CONN_CORO_MAY_RESUME : Z := 0.
Definition CONN_CORO_FINISHED : Z := 1.

(** Event bits of <sys/epoll.h> (Linux). *)
Definition EPOLLIN : Z := 1.
Definition EPOLLOUT : Z := 4.
Definition EPOLLERR : Z := 8.
Definition EPOLLHUP : Z := 16.
Definition EPOLLRDHUP : Z := 8192.
Definition EPOLLET : Z := Z.shiftl 1 31.

(** [unsigned] arithmetic: results are reduced modulo 2^32. *)
Definition u32 (z : Z) : Z := z mod 2 ^ 32.

(** A flag test [flags & mask] used as a C truth value. *)
Definition flag_set (f mask : Z) : bool := negb (Z.land f mask =? 0).

(** ** Data model *)

(** [struct lwan_connection] (lwan.h).  [coro] is the coroutine handle, [None]
    for NULL.  The [thread] back pointer plays no part in this file. *)
Record lwan_connection := mk_conn {
  flags : Z;
  time_to_die : Z;
  coro : option nat;
  prev : Z;
  next : Z
}.

(** [struct death_queue]; [conns] is the shared connection table. *)
Record death_queue := mk_dq {
  conns : list lwan_connection;
  head : lwan_connection;
  time : Z;
  keep_alive_timeout : Z
}.

(** A pointer to a queue node: the sentinel [&dq->head] or [&dq->conns[i]]. *)
Inductive node := Head | Conn (i : nat).

#[global] Instance node_eq_dec : EqDecision node.
Proof. solve_decision. Defined.

(** The slot [lwan_thread_add_client] installs: every field zero. *)
Definition zero_conn : lwan_connection := mk_conn 0 0 None 0 0.

(** Field updates of one record. *)
Definition with_flags (c : lwan_connection) (v : Z) : lwan_connection :=
  mk_conn v (time_to_die c) (coro c) (prev c) (next c).
Definition with_time_to_die (c : lwan_connection) (v : Z) : lwan_connection :=
  mk_conn (flags c) v (coro c) (prev c) (next c).
Definition with_coro (c : lwan_connection) (v : option nat) : lwan_connection :=
  mk_conn (flags c) (time_to_die c) v (prev c) (next c).
Definition with_prev (c : lwan_connection) (v : Z) : lwan_connection :=
  mk_conn (flags c) (time_to_die c) (coro c) v (next c).
Definition with_next (c : lwan_connection) (v : Z) : lwan_connection :=
  mk_conn (flags c) (time_to_die c) (coro c) (prev c) v.

(** Reading and writing through a node pointer.  An index outside the table
    is undefined behaviour in C; the embedding reads a zeroed slot there and
    drops the write, and the theorems about a slot require it in range. *)
Definition deref (dq : death_queue) (n : node) : lwan_connection :=
  match n with
  | Head => head dq
  | Conn i => default zero_conn (conns dq !! i)
  end.

Definition assign (dq : death_queue) (n : node) (c : lwan_connection)
  : death_queue :=
  match n with
  | Head => mk_dq (conns dq) c (time dq) (keep_alive_timeout dq)
  | Conn i => mk_dq (<[i := c]> (conns dq)) (head dq) (time dq)
                    (keep_alive_timeout dq)
  end.

Definition set_prev (dq : death_queue) (n : node) (v : Z) : death_queue :=
  assign dq n (with_prev (deref dq n) v).
Definition set_next (dq : death_queue) (n : node) (v : Z) : death_queue :=
  assign dq n (with_next (deref dq n) v).
Definition set_time_to_die (dq : death_queue) (n : node) (v : Z)
  : death_queue :=
  assign dq n (with_time_to_die (deref dq n) v).
Definition set_flags (dq : death_queue) (n : node) (v : Z) : death_queue :=
  assign dq n (with_flags (deref dq n) v).
Definition set_coro (dq : death_queue) (n : node) (v : option nat)
  : death_queue :=
  assign dq n (with_coro (deref dq n) v).
Definition set_time (dq : death_queue) (t : Z) : death_queue :=
  mk_dq (conns dq) (head dq) t (keep_alive_timeout dq).

(** ** Death queue *)

Definition death_queue_node_to_idx (dq : death_queue) (conn : node) : Z :=
  match conn with
  | Head => -1
  | Conn i => Z.of_nat i
  end.

Definition death_queue_idx_to_node (dq : death_queue) (idx : Z) : node :=
  if idx <? 0 then Head else Conn (Z.to_nat idx).

Definition death_queue_insert (dq : death_queue) (new_node : node)
  : death_queue :=
  let dq := set_next dq new_node (-1) in
  let dq := set_prev dq new_node (prev (head dq)) in
  let prev_node := death_queue_idx_to_node dq (prev (head dq)) in
  let idx := death_queue_node_to_idx dq new_node in
  let dq := set_next dq prev_node idx in
  set_prev dq Head idx.

Definition death_queue_remove (dq : death_queue) (n : node) : death_queue :=
  let prev_node := death_queue_idx_to_node dq (prev (deref dq n)) in
  let next_node := death_queue_idx_to_node dq (next (deref dq n)) in
  let dq := set_prev dq next_node (prev (deref dq n)) in
  let dq := set_next dq prev_node (next (deref dq n)) in
  let dq := set_prev dq n (-1) in
  set_next dq n (-1).

Definition death_queue_empty (dq : death_queue) : bool :=
  next (head dq) <? 0.

Definition death_queue_move_to_last (dq : death_queue) (conn : node)
  : death_queue :=
  let dq := set_time_to_die dq conn (time dq) in
  let dq :=
    if flag_set (flags (deref dq conn))
                (Z.lor CONN_KEEP_ALIVE CONN_SHOULD_RESUME_CORO)
    then set_time_to_die dq conn
           (u32 (time_to_die (deref dq conn) + keep_alive_timeout dq))
    else dq in
  death_queue_insert (death_queue_remove dq conn) conn.

(** [death_queue_init]: [table] is [lwan->conns], [kat] the configured
    keep-alive timeout. *)
Definition death_queue_init (table : list lwan_connection) (kat : Z)
  : death_queue :=
  mk_dq table (mk_conn 0 0 None (-1) (-1)) 0 kat.

Definition death_queue_epoll_timeout (dq : death_queue) : Z :=
  if death_queue_empty dq then -1 else 1000.

(** ** Worker state and external services *)

(** [struct epoll_event]: the event mask and the user pointer [data.ptr]
    ([None] for NULL). *)
Record epoll_event := mk_event {
  events : Z;
  data_ptr : option node
}.

(** What the worker does to the outside world, in program order. *)
Inductive effect :=
| EpollCtlAdd (fd : nat) (ev : epoll_event) (ok : bool)
| EpollCtlMod (fd : nat) (ev : epoll_event) (ok : bool)
| CloseFd (fd : nat)
| CoroResume (c : nat)
| CoroFree (c : nat)
| StatusError (msg : string)
| StatusPerror (msg : string).

(** The state one worker thread owns: its death queue (with the connection
    table), the interest list the kernel keeps for its epoll descriptor, the
    descriptors waiting in the SPSC queue, and the effects so far. *)
Record io_state := mk_io {
  io_dq : death_queue;
  io_epoll : gmap nat epoll_event;
  io_pending : list nat;
  io_trace : list effect
}.

Definition with_dq (s : io_state) (q : death_queue) : io_state :=
  mk_io q (io_epoll s) (io_pending s) (io_trace s).
Definition with_epoll (s : io_state) (m : gmap nat epoll_event) : io_state :=
  mk_io (io_dq s) m (io_pending s) (io_trace s).
Definition with_pending (s : io_state) (l : list nat) : io_state :=
  mk_io (io_dq s) (io_epoll s) l (io_trace s).
Definition emit (s : io_state) (e : effect) : io_state :=
  mk_io (io_dq s) (io_epoll s) (io_pending s) (io_trace s ++ [e]).

(** Results of worker code: a value, a failed [assert], or a loop that did
    not finish within the fuel it was given. *)
Inductive result (A : Type) :=
| Ret (a : A)
| AssertFailed
| OutOfFuel.
Arguments Ret {A} a.
Arguments AssertFailed {A}.
Arguments OutOfFuel {A}.

#[global] Instance result_ret : MRet result := fun A a => Ret a.
#[global] Instance result_bind : MBind result := fun A B f m =>
  match m with
  | Ret a => f a
  | AssertFailed => AssertFailed
  | OutOfFuel => OutOfFuel
  end.

(** One run of a coroutine between [coro_resume] and the next [coro_yield]:
    the value it yields and what it does to the flags of its connection
    (the request pipeline sets and clears MUST_READ and KEEP_ALIVE). *)
Record coro_run := mk_run {
  yield_result : Z;
  on_flags : Z -> Z
}.

(** [lwan_connection_get_fd]: the index of the slot in the table.  The
    sentinel is never passed. *)
Definition lwan_connection_get_fd (conn : node) : nat :=
  match conn with
  | Head => O
  | Conn i => i
  end.

(** [epoll_ctl].  [ok] says whether the kernel has the resources for the
    call; ADD also fails on a registered descriptor and MOD on an
    unregistered one.  Returns whether the call succeeded. *)
Definition epoll_ctl_add (ok : bool) (fd : nat) (ev : epoll_event)
    (s : io_state) : bool * io_state :=
  let done := ok && bool_decide (io_epoll s !! fd = None) in
  let s := emit s (EpollCtlAdd fd ev done) in
  (done, if done then with_epoll s (<[fd := ev]> (io_epoll s)) else s).

Definition epoll_ctl_mod (ok : bool) (fd : nat) (ev : epoll_event)
    (s : io_state) : bool * io_state :=
  let done := ok && bool_decide (is_Some (io_epoll s !! fd)) in
  let s := emit s (EpollCtlMod fd ev done) in
  (done, if done then with_epoll s (<[fd := ev]> (io_epoll s)) else s).

(** [close]: the kernel drops a closed descriptor from the interest list. *)
Definition close (fd : nat) (s : io_state) : io_state :=
  with_epoll (emit s (CloseFd fd)) (delete fd (io_epoll s)).

(** [coro_resume]: the coroutine runs up to its next yield. *)
Definition coro_resume (run : coro_run) (s : io_state) (conn : node)
  : Z * io_state :=
  let c := deref (io_dq s) conn in
  let s := match coro c with
           | Some k => emit s (CoroResume k)
           | None => s
           end in
  (yield_result run,
   with_dq s (set_flags (io_dq s) conn (on_flags run (flags c)))).

(** ** Reactor loop *)

Definition events_by_write_flag : list Z :=
  [ Z.lor (Z.lor EPOLLOUT EPOLLRDHUP) EPOLLERR;
    Z.lor (Z.lor (Z.lor EPOLLIN EPOLLRDHUP) EPOLLERR) EPOLLET ].

Definition destroy_coro (s : io_state) (conn : node) : io_state :=
  let s := with_dq s (death_queue_remove (io_dq s) conn) in
  let s := match coro (deref (io_dq s) conn) with
           | Some k =>
               with_dq (emit s (CoroFree k)) (set_coro (io_dq s) conn None)
           | None => s
           end in
  let f := flags (deref (io_dq s) conn) in
  if flag_set f CONN_IS_ALIVE then
    let s := with_dq s (set_flags (io_dq s) conn
                          (Z.land f (Z.lnot CONN_IS_ALIVE))) in
    close (lwan_connection_get_fd conn) s
  else s.

(** The last statements of [resume_coro_if_needed]: the registration is
    reprogrammed with [events_by_write_flag[write_events]] and the
    WRITE_EVENTS flag is toggled. *)
Definition rearm (mod_ok write_events : bool) (s : io_state) (conn : node)
  : io_state :=
  let event :=
    mk_event (nth (Nat.b2n write_events) events_by_write_flag 0)
             (Some conn) in
  let fd := lwan_connection_get_fd conn in
  let '(done, s) := epoll_ctl_mod mod_ok fd event s in
  let s := if done then s else emit s (StatusPerror "epoll_ctl") in
  with_dq s (set_flags (io_dq s) conn
               (Z.lxor (flags (deref (io_dq s) conn)) CONN_WRITE_EVENTS)).

Definition resume_coro_if_needed (run : coro_run) (mod_ok : bool)
    (s : io_state) (conn : node) : result io_state :=
  match coro (deref (io_dq s) conn) with
  | None => AssertFailed
  | Some _ =>
    if negb (flag_set (flags (deref (io_dq s) conn)) CONN_SHOULD_RESUME_CORO)
    then Ret s
    else
      let '(yielded, s) := coro_resume run s conn in
      if yielded <? CONN_CORO_MAY_RESUME then Ret (destroy_coro s conn)
      else
        let f := flags (deref (io_dq s) conn) in
        if flag_set f CONN_MUST_READ then Ret (rearm mod_ok true s conn)
        else
          let should_resume_coro := yielded =? CONN_CORO_MAY_RESUME in
          let f' := if should_resume_coro
                    then Z.lor f CONN_SHOULD_RESUME_CORO
                    else Z.land f (Z.lnot CONN_SHOULD_RESUME_CORO) in
          let s := with_dq s (set_flags (io_dq s) conn f') in
          let write_events := flag_set f' CONN_WRITE_EVENTS in
          if eqb should_resume_coro write_events then Ret s
          else Ret (rearm mod_ok write_events s conn)
  end.

(** The loop of [death_queue_kill_waiting]; [fuel] bounds its iterations. *)
Fixpoint kill_waiting_loop (fuel : nat) (s : io_state) : result io_state :=
  match fuel with
  | O => OutOfFuel
  | S fuel' =>
    if death_queue_empty (io_dq s)
    then Ret (with_dq s (set_time (io_dq s) 0))
    else
      let conn :=
        death_queue_idx_to_node (io_dq s) (next (head (io_dq s))) in
      if time_to_die (deref (io_dq s) conn) >? time (io_dq s) then Ret s
      else kill_waiting_loop fuel' (destroy_coro s conn)
  end.

Definition death_queue_kill_waiting (fuel : nat) (s : io_state)
  : result io_state :=
  kill_waiting_loop fuel
    (with_dq s (set_time (io_dq s) (u32 (time (io_dq s) + 1)))).

(** [spawn_coro]; [created] is what [coro_new] returns. *)
Definition spawn_coro (created : option nat) (s : io_state) (conn : node)
  : result io_state :=
  let c := deref (io_dq s) conn in
  if bool_decide (coro c = None)
     && negb (flag_set (flags c) CONN_IS_ALIVE)
     && negb (flag_set (flags c) CONN_SHOULD_RESUME_CORO)
  then
    let s := with_dq s (set_coro (io_dq s) conn created) in
    match created with
    | None => Ret (emit s (StatusError "Could not create coroutine"))
    | Some _ =>
      let q := set_flags (io_dq s) conn
                 (Z.lor CONN_IS_ALIVE CONN_SHOULD_RESUME_CORO) in
      let q := set_time_to_die q conn (u32 (time q + keep_alive_timeout q)) in
      Ret (with_dq s (death_queue_insert q conn))
    end
  else AssertFailed.

(** What the outside world answers while one descriptor is handed off. *)
Record handoff := mk_handoff {
  add_ok : bool;
  created : option nat;
  first_run : coro_run;
  first_mod_ok : bool
}.

(** The body of the loop of [accept_nudge] for one popped descriptor. *)
Definition accept_one (h : handoff) (s : io_state) (fd : nat)
  : result io_state :=
  let conn := Conn fd in
  let ep_event := mk_event (nth 1%nat events_by_write_flag 0) None in
  let '(done, s) := epoll_ctl_add (add_ok h) fd ep_event s in
  if done then
    s ← spawn_coro (created h) s conn;
    resume_coro_if_needed (first_run h) (first_mod_ok h) s conn
  else Ret (emit s (StatusPerror "epoll_ctl")).

(** Modelled from the spec: the SPSC queue (not part of the sources) is a
    FIFO of descriptors; [spsc_queue_pop] returns the oldest one as a
    pointer, and the NULL pointer (descriptor 0) when there is none. *)
Fixpoint accept_loop (env : nat -> handoff) (fds : list nat) (s : io_state)
  : result io_state :=
  match fds with
  | [] => Ret (with_pending s [])
  | fd :: rest =>
    if bool_decide (fd = O) then Ret (with_pending s rest)
    else
      s ← accept_one (env fd) (with_pending s rest) fd;
      accept_loop env rest s
  end.

Definition accept_nudge (read_ok : bool) (env : nat -> handoff)
    (s : io_state) : result io_state :=
  if read_ok then accept_loop env (io_pending s) s else Ret s.

(** What the outside world answers while one event is handled. *)
Record answers := mk_answers {
  read_ok : bool;
  handoffs : nat -> handoff;
  run : coro_run;
  mod_ok : bool
}.

(** The body of the event loop of [thread_io_loop] for one reported event. *)
Definition handle_event (a : answers) (ep_event : epoll_event)
    (s : io_state) : result io_state :=
  match data_ptr ep_event with
  | None => accept_nudge (read_ok a) (handoffs a) s
  | Some conn =>
    if flag_set (events ep_event) (Z.lor EPOLLRDHUP EPOLLHUP)
    then Ret (destroy_coro s conn)
    else
      s ← resume_coro_if_needed (run a) (mod_ok a) s conn;
      Ret (with_dq s (death_queue_move_to_last (io_dq s) conn))
  end.

Fixpoint handle_events (evs : list (answers * epoll_event)) (s : io_state)
  : result io_state :=
  match evs with
  | [] => Ret s
  | (a, e) :: rest => s ← handle_event a e s; handle_events rest s
  end.

(** What [epoll_wait] returned. *)
Inductive wait_result :=
| WaitFailed
| WaitTimeout
| WaitEvents (evs : list (answers * epoll_event)).

(** One turn of the [for (;;)] loop of [thread_io_loop] that stays in the
    loop. *)
Definition thread_io_loop_turn (fuel : nat) (r : wait_result) (s : io_state)
  : result io_state :=
  match r with
  | WaitFailed => Ret s
  | WaitTimeout => death_queue_kill_waiting fuel s
  | WaitEvents evs => handle_events evs s
  end.

(** The event the kernel reports for a registered descriptor: the ready bits
    together with the user pointer given at registration. *)
Definition reported (s : io_state) (fd : nat) (ready : Z)
  : option epoll_event :=
  ev ← io_epoll s !! fd; Some (mk_event ready (data_ptr ev)).

(** [lwan_thread_add_client]: the acceptor resets the slot and pushes the
    descriptor. *)
Definition lwan_thread_add_client (s : io_state) (fd : nat) : io_state :=
  with_pending (with_dq s (assign (io_dq s) (Conn fd) zero_conn))
               (io_pending s ++ [fd]).

(** The worker as [create_thread] leaves it: an empty death queue and the
    wakeup descriptor [pipe_fd] registered level-triggered, NULL pointer. *)
Definition worker_init (table : list lwan_connection) (kat : Z)
    (pipe_fd : nat) : io_state :=
  mk_io (death_queue_init table kat)
        {[ pipe_fd := mk_event EPOLLIN None ]} [] [].

(** ** Specification vocabulary *)

(** [valid dq n]: the pointer designates the sentinel or a slot of the
    table. *)
Definition valid (dq : death_queue) (n : node) : Prop :=
  match n with
  | Head => True
  | Conn i => (i < length (conns dq))%nat
  end.

(** [seg g s l e]: starting from index [s] and following the link [g], one
    visits exactly the slots [l] and ends on index [e]. *)
Fixpoint seg (g : node -> Z) (s : Z) (l : list nat) (e : Z) : Prop :=
  match l with
  | [] => s = e
  | i :: l' => s = Z.of_nat i /\ seg g (g (Conn i)) l' e
  end.

(** [dll_repr dq l]: the death queue links exactly the slots [l], in this
    order from the head: the [next] chain from the sentinel visits [l] and
    returns to the sentinel (-1), the [prev] chain visits [l] backwards. *)
Definition dll_repr (dq : death_queue) (l : list nat) : Prop :=
  NoDup l
  /\ Forall (fun i => valid dq (Conn i)) l
  /\ seg (fun n => next (deref dq n)) (next (head dq)) l (-1)
  /\ seg (fun n => prev (deref dq n)) (prev (head dq)) (reverse l) (-1).

(** A slot is linked when it occurs on the chain. *)
Definition linked (dq : death_queue) (i : nat) : Prop :=
  exists l, dll_repr dq l /\ i ∈ l.

(** The slots met when following [next] from the head, at most [fuel] of
    them. *)
Fixpoint walk (fuel : nat) (dq : death_queue) (idx : Z) : list nat :=
  match fuel with
  | O => []
  | S fuel' =>
    if idx <? 0 then []
    else Z.to_nat idx
         :: walk fuel' dq (next (deref dq (Conn (Z.to_nat idx))))
  end.

Definition deadline (dq : death_queue) (i : nat) : Z :=
  time_to_die (deref dq (Conn i)).

(** P1: every linked slot is alive and has a coroutine. *)
Definition P1 (dq : death_queue) : Prop :=
  forall i, linked dq i ->
    flag_set (flags (deref dq (Conn i))) CONN_IS_ALIVE = true
    /\ coro (deref dq (Conn i)) <> None.

(** P4: deadlines do not decrease along the chain. *)
Definition P4 (dq : death_queue) : Prop :=
  forall l, dll_repr dq l -> Sorted Z.le (deadline dq <$> l).

(** P6: for an alive connection, WRITE_EVENTS is set exactly when the
    kernel watches the descriptor for writing. *)
Definition P6 (s : io_state) : Prop :=
  forall fd ev,
    flag_set (flags (deref (io_dq s) (Conn fd))) CONN_IS_ALIVE = true ->
    io_epoll s !! fd = Some ev ->
    flag_set (flags (deref (io_dq s) (Conn fd))) CONN_WRITE_EVENTS
    = flag_set (events ev) EPOLLOUT.

(** The longest prefix of [l] whose deadlines have passed at tick [t], and
    what is left after it. *)
Fixpoint expired (dq : death_queue) (t : Z) (l : list nat) : list nat :=
  match l with
  | [] => []
  | i :: l' => if deadline dq i >? t then [] else i :: expired dq t l'
  end.

Fixpoint waiting (dq : death_queue) (t : Z) (l : list nat) : list nat :=
  match l with
  | [] => []
  | i :: l' => if deadline dq i >? t then l else waiting dq t l'
  end.

(** Readiness direction of a registration. *)
Inductive arm := ArmRead | ArmWrite.

#[global] Instance arm_eq_dec : EqDecision arm.
Proof. solve_decision. Defined.

(** The direction recorded in the flags of a connection. *)
Definition armed (f : Z) : arm :=
  if flag_set f CONN_WRITE_EVENTS then ArmWrite else ArmRead.

(** The direction an event mask asks for. *)
Definition arm_of_events (ev : Z) : arm :=
  if flag_set ev EPOLLOUT then ArmWrite else ArmRead.

(** The target direction as the specification words it: read when MUST_READ
    is set or the coroutine yielded MAY_RESUME, write otherwise. *)
Definition spec_target (f yielded : Z) : arm :=
  if flag_set f CONN_MUST_READ then ArmRead
  else if yielded =? CONN_CORO_MAY_RESUME then ArmRead else ArmWrite.

(** The target direction of the code when MUST_READ is clear: write when the
    coroutine yielded MAY_RESUME, read otherwise. *)
Definition code_target (yielded : Z) : arm :=
  if yielded =? CONN_CORO_MAY_RESUME then ArmWrite else ArmRead.

(** The [EPOLL_CTL_MOD] calls of a trace. *)
Definition mod_calls (tr : list effect) : list (nat * epoll_event) :=
  omap (fun e => match e with
                 | EpollCtlMod fd ev _ => Some (fd, ev)
                 | _ => None
                 end) tr.

(** Index of the first slot of a list, the sentinel index when empty. *)
Definition hd_idx (l : list nat) : Z :=
  match l with
  | [] => -1
  | i :: _ => Z.of_nat i
  end.

(** The fields of a slot that are not links. *)
Definition payload (c : lwan_connection) : Z * Z * option nat :=
  (flags c, time_to_die c, coro c).

(** The deadline [death_queue_move_to_last] gives a connection. *)
Definition refreshed_deadline (dq : death_queue) (c : nat) : Z :=
  if flag_set (flags (deref dq (Conn c))) CONN_KEEP_ALIVE
     || flag_set (flags (deref dq (Conn c))) CONN_SHOULD_RESUME_CORO
  then u32 (time dq + keep_alive_timeout dq)
  else time dq.

(** A slot whose own links are reset. *)
Definition unlinked (dq : death_queue) (n : node) : death_queue :=
  set_next (set_prev dq n (-1)) n (-1).

(** The state the loop of [death_queue_kill_waiting] returns: the expired
    heads destroyed in order, and the epoch reset when nothing is left. *)
Definition evicted (s : io_state) (t : Z) (l : list nat) : io_state :=
  let s' := foldl destroy_coro s (Conn <$> expired (io_dq s) t l) in
  match waiting (io_dq s) t l with
  | [] => with_dq s' (set_time (io_dq s') 0)
  | _ :: _ => s'
  end.

(** The event mask that arms a direction. *)
Definition events_for (a : arm) : Z :=
  match a with
  | ArmWrite => nth 0 events_by_write_flag 0
  | ArmRead => nth 1 events_by_write_flag 0
  end.

(** Between [s] and [s'] exactly one [EPOLL_CTL_MOD] was issued, for slot
    [c], with the mask of direction [a] and the slot as user pointer. *)
Definition reprogrammed_to (s s' : io_state) (c : nat) (a : arm) : Prop :=
  mod_calls (io_trace s')
  = mod_calls (io_trace s) ++ [(c, mk_event (events_for a) (Some (Conn c)))].

(** Between [s] and [s'] no [EPOLL_CTL_MOD] was issued and the interest list
    is the same. *)
Definition untouched (s s' : io_state) : Prop :=
  mod_calls (io_trace s') = mod_calls (io_trace s)
  /\ io_epoll s' = io_epoll s.

(** The rule of the readiness state machine for a choice of target
    direction: a resume that does not abort reprograms the registration
    exactly when the target differs from the recorded direction. *)
Definition resume_rule (target : Z -> Z -> arm) : Prop :=
  forall s c k run ok s',
    valid (io_dq s) (Conn c) ->
    coro (deref (io_dq s) (Conn c)) = Some k ->
    flag_set (flags (deref (io_dq s) (Conn c))) CONN_SHOULD_RESUME_CORO
    = true ->
    CONN_CORO_MAY_RESUME <= yield_result run ->
    resume_coro_if_needed run ok s (Conn c) = Ret s' ->
    let f := on_flags run (flags (deref (io_dq s) (Conn c))) in
    (~ untouched s s') <-> target f (yield_result run) <> armed f.

(** The specification predicates are decidable on a given state. *)
#[global] Instance seg_dec g s l e : Decision (seg g s l e).
Proof. revert s. induction l as [|i l IH]; intros s; simpl; apply _. Defined.

#[global] Instance valid_dec dq n : Decision (valid dq n).
Proof. destruct n; simpl; apply _. Defined.

#[global] Instance dll_repr_dec dq l : Decision (dll_repr dq l).
Proof. unfold dll_repr. apply _. Defined.

(** ** Example states *)

(** A table of four fresh slots. *)
Definition table : list lwan_connection := replicate 4 zero_conn.

(** Slots 1, 2 and 3 linked in this order, keep-alive timeout 15. *)
Definition queue_123 : death_queue :=
  death_queue_insert
    (death_queue_insert
       (death_queue_insert (death_queue_init table 15) (Conn 1)) (Conn 2))
    (Conn 3).

(** The same queue after slot 2 was removed: its links are reset. *)
Definition queue_13 : death_queue := death_queue_remove queue_123 (Conn 2).

(** A worker whose queue links slot 1 (deadline 1), slot 2 (deadline 1) and
    slot 3 (deadline 7), at tick 0. *)
Definition worker_123 : io_state :=
  mk_io (set_time_to_die
           (set_time_to_die
              (set_time_to_die queue_123 (Conn 1) 1) (Conn 2) 1) (Conn 3) 7)
        ∅ [] [].

(** The state inside a result, [d] when there is none. *)
Definition state_of (r : result io_state) (d : io_state) : io_state :=
  match r with
  | Ret s => s
  | _ => d
  end.

(** Coroutine runs: a request served (yields MAY_RESUME), input missing
    (sets MUST_READ, yields MAY_RESUME), a yield above MAY_RESUME, and an
    abort. *)
Definition run_served : coro_run := mk_run CONN_CORO_MAY_RESUME (fun f => f).
Definition run_must_read : coro_run :=
  mk_run CONN_CORO_MAY_RESUME (fun f => Z.lor f CONN_MUST_READ).
Definition run_finished : coro_run := mk_run CONN_CORO_FINISHED (fun f => f).
Definition run_abort : coro_run := mk_run CONN_CORO_ABORT (fun f => f).

(** A worker over [table] with keep-alive timeout 15 and wakeup
    descriptor 9. *)
Definition worker_idle : io_state := worker_init table 15 9.

(** Descriptor 1 was accepted, registered by [accept_nudge] and given
    coroutine 7 by [spawn_coro]; its first resume has not happened yet. *)
Definition worker_spawned : io_state :=
  let s := with_pending (lwan_thread_add_client worker_idle 1) [] in
  let ep_event := mk_event (nth 1%nat events_by_write_flag 0) None in
  let s := (epoll_ctl_add true 1 ep_event s).2 in
  state_of (spawn_coro (Some 7%nat) s (Conn 1)) s.

(** Descriptor 2 was accepted and registered; its slot is still the fresh
    one [lwan_thread_add_client] installed. *)
Definition worker_registered : io_state :=
  let s := with_pending (lwan_thread_add_client worker_idle 2) [] in
  let ep_event := mk_event (nth 1%nat events_by_write_flag 0) None in
  (epoll_ctl_add true 2 ep_event s).2.

(** What the outside world answers in the examples: every call succeeds,
    descriptor [fd] gets coroutine [6 + fd], and every coroutine runs
    [first] on its first resume and [later] on the resume of an event. *)
Definition answering (first later : coro_run) (mod_succeeds : bool)
  : answers :=
  mk_answers true
    (fun fd => mk_handoff true (Some (6 + fd)%nat) first mod_succeeds)
    later mod_succeeds.

(** Descriptors 1 and 2 handed off together; both coroutines found no input
    on their first resume. *)
Definition worker_two : result io_state :=
  let s := lwan_thread_add_client
             (lwan_thread_add_client worker_idle 1) 2 in
  handle_event (answering run_must_read run_abort true)
               (mk_event EPOLLIN None) s.

(** Then descriptor 1 becomes readable and its coroutine aborts. *)
Definition worker_two_abort : result io_state :=
  s ← worker_two;
  match reported s 1 EPOLLIN with
  | Some ev => handle_event (answering run_must_read run_abort true) ev s
  | None => Ret s
  end.

(** Descriptor 1 handed off; the outcome of its first resume is [first] and
    [epoll_ctl] for [EPOLL_CTL_MOD] answers [mod_succeeds]. *)
Definition worker_one (first : coro_run) (mod_succeeds : bool)
  : result io_state :=
  handle_event (answering first run_served mod_succeeds)
               (mk_event EPOLLIN None)
               (lwan_thread_add_client worker_idle 1).


(** Descriptors 1 and 2 are spawned; then descriptor 1 is resumed, yields
    above MAY_RESUME without KEEP_ALIVE, and is re-seated with deadline
    [dq.time] behind descriptor 2, whose deadline is
    [dq.time + keep_alive_timeout]. *)
Definition worker_unsorted : io_state :=
  let s1 := state_of (spawn_coro (Some 7%nat) worker_idle (Conn 1))
              worker_idle in
  let s2 := state_of (spawn_coro (Some 8%nat) s1 (Conn 2)) worker_idle in
  let s3 := state_of (resume_coro_if_needed run_finished true s2 (Conn 1))
              worker_idle in
  with_dq s3 (death_queue_move_to_last (io_dq s3) (Conn 1)).

(** Descriptors 1 and 2 are spawned; then descriptor 1 is resumed, serves a
    request, yields MAY_RESUME and is re-seated behind descriptor 2. *)
Definition worker_reseated : io_state :=
  let s1 := state_of (spawn_coro (Some 7%nat) worker_idle (Conn 1))
              worker_idle in
  let s2 := state_of (spawn_coro (Some 8%nat) s1 (Conn 2)) worker_idle in
  let s3 := state_of (resume_coro_if_needed run_served true s2 (Conn 1))
              worker_idle in
  with_dq s3 (death_queue_move_to_last (io_dq s3) (Conn 1)).

(** ** Further vocabulary *)

(** P3: the neighbours of a linked slot point back to it, the sentinel
    standing for index -1. *)
Definition P3 (dq : death_queue) : Prop :=
  forall i, linked dq i ->
    prev (deref dq (death_queue_idx_to_node dq (next (deref dq (Conn i)))))
    = Z.of_nat i
    /\ next (deref dq (death_queue_idx_to_node dq (prev (deref dq (Conn i)))))
       = Z.of_nat i.

(** The queues obtained from [death_queue_init] by inserting slots that are
    not linked, removing and re-seating slots that are, and writing fields of
    a slot other than its links. *)
Inductive queue_built : death_queue -> Prop :=
| built_init slots kat :
    queue_built (death_queue_init slots kat)
| built_insert dq c :
    queue_built dq -> valid dq (Conn c) -> ~ linked dq c ->
    queue_built (death_queue_insert dq (Conn c))
| built_remove dq c :
    queue_built dq -> linked dq c ->
    queue_built (death_queue_remove dq (Conn c))
| built_move dq c :
    queue_built dq -> linked dq c ->
    queue_built (death_queue_move_to_last dq (Conn c))
| built_write dq c x :
    queue_built dq -> valid dq (Conn c) ->
    prev x = prev (deref dq (Conn c)) -> next x = next (deref dq (Conn c)) ->
    queue_built (assign dq (Conn c) x).

(** [death_queue_kill_all], run when the worker leaves its loop; [fuel]
    bounds the iterations of its loop. *)
Fixpoint death_queue_kill_all (fuel : nat) (s : io_state) : result io_state :=
  match fuel with
  | O => OutOfFuel
  | S fuel' =>
    if death_queue_empty (io_dq s) then Ret s
    else
      let conn :=
        death_queue_idx_to_node (io_dq s) (next (head (io_dq s))) in
      death_queue_kill_all fuel' (destroy_coro s conn)
  end.

(** A coroutine run that leaves the ALIVE flag of its connection alone (the
    request coroutine only asserts it). *)
Definition keeps_alive (r : coro_run) : Prop :=
  forall f, flag_set (on_flags r f) CONN_IS_ALIVE = flag_set f CONN_IS_ALIVE.

(** The states of a worker in which no resume on the event path aborted:
    slots are spawned, resumed for the first time (as [accept_nudge] does,
    where the coroutine may abort), resumed and re-seated on an event whose
    coroutine does not abort, destroyed on hangup, and evicted on timeout. *)
Inductive served : io_state -> Prop :=
| served_init slots kat pipe_fd :
    served (worker_init slots kat pipe_fd)
| served_spawn s k i s' :
    served s -> valid (io_dq s) (Conn i) -> ~ linked (io_dq s) i ->
    spawn_coro (Some k) s (Conn i) = Ret s' ->
    served s'
| served_first_resume s r ok i s' :
    served s -> linked (io_dq s) i -> keeps_alive r ->
    resume_coro_if_needed r ok s (Conn i) = Ret s' ->
    served s'
| served_event s r ok i s' :
    served s -> linked (io_dq s) i -> keeps_alive r ->
    CONN_CORO_MAY_RESUME <= yield_result r ->
    resume_coro_if_needed r ok s (Conn i) = Ret s' ->
    served (with_dq s' (death_queue_move_to_last (io_dq s') (Conn i)))
| served_hangup s i :
    served s -> linked (io_dq s) i ->
    served (destroy_coro s (Conn i))
| served_timeout s fuel s' :
    served s ->
    death_queue_kill_waiting fuel s = Ret s' ->
    served s'.

(** The chain is well formed and its slots are alive with a coroutine. *)
Definition alive_chain (dq : death_queue) (l : list nat) : Prop :=
  dll_repr dq l
  /\ forall i, i ∈ l ->
       flag_set (flags (deref dq (Conn i))) CONN_IS_ALIVE = true
       /\ coro (deref dq (Conn i)) <> None.

(** The handoff of descriptor [fd] goes through: the registration succeeds,
    a coroutine is created, and its first run does not abort and leaves
    ALIVE alone. *)
Definition hands_off (env : nat -> handoff) (fd : nat) : Prop :=
  add_ok (env fd) = true
  /\ is_Some (created (env fd))
  /\ CONN_CORO_MAY_RESUME <= yield_result (first_run (env fd))
  /\ keeps_alive (first_run (env fd)).


(** ** The worker loop *)

(** What the outside world answers while an event is handled comes from
    coroutines that leave the ALIVE flag alone. *)
Definition well_behaved (a : answers) : Prop :=
  keeps_alive (run a) /\ forall fd, keeps_alive (first_run (handoffs a fd)).

(** What a call of [epoll_wait] returned and the worker has not handled yet:
    for each reported descriptor, the event and what the outside world
    answers while it is handled. *)
Definition batch : Type := list (nat * (answers * epoll_event)).

(** [delivered s b]: the kernel can have reported [b] to the worker in state
    [s]: every descriptor at most once, every descriptor registered, every
    event with the user pointer of its registration. *)
Definition delivered (s : io_state) (b : batch) : Prop :=
  NoDup b.*1
  /\ forall fd a e, (fd, (a, e)) ∈ b ->
       exists ready, reported s fd ready = Some e.

(** The provisos under which the deadlines of the queue stay sorted:
    [no_abort], no coroutine resumed for an event aborts; [reseat_flagged],
    a connection has KEEP_ALIVE or SHOULD_RESUME set when an event re-seats
    it; [no_wrap], a tick is taken only while
    [dq.time + 1 + keep_alive_timeout] fits 32 bits. *)
Record provisos := mk_provisos {
  no_abort : bool;
  reseat_flagged : bool;
  no_wrap : bool
}.


(** The event [e], handled in state [s], resumes no coroutine that
    aborts. *)
Definition resumes_without_abort (a : answers) (e : epoll_event)
    (s : io_state) : Prop :=
  forall conn,
    data_ptr e = Some conn ->
    flag_set (events e) (Z.lor EPOLLRDHUP EPOLLHUP) = false ->
    flag_set (flags (deref (io_dq s) conn)) CONN_SHOULD_RESUME_CORO = true ->
    CONN_CORO_MAY_RESUME <= yield_result (run a).

(** The connection that the event [e] re-seats has KEEP_ALIVE or
    SHOULD_RESUME set in the state [s'] the event leads to
    ([death_queue_move_to_last] reads the flags and leaves them as they
    are). *)
Definition reseats_flagged (e : epoll_event) (s' : io_state) : Prop :=
  forall conn,
    data_ptr e = Some conn ->
    flag_set (events e) (Z.lor EPOLLRDHUP EPOLLHUP) = false ->
    flag_set (flags (deref (io_dq s') conn)) CONN_KEEP_ALIVE
    || flag_set (flags (deref (io_dq s') conn)) CONN_SHOULD_RESUME_CORO
    = true.

(** The states of a worker and of what it still has to handle, as
    [thread_io_loop] and the acceptor produce them from [create_thread]:
    - the acceptor hands off a descriptor with [lwan_thread_add_client], at
      any moment; the descriptor indexes the table and, as the kernel never
      returns an open descriptor, it is not registered;
    - [epoll_wait] returns a batch of events once the previous one has been
      handled;
    - the worker handles the next event of the batch with the body of its
      event loop: [accept_nudge] for a NULL pointer, [destroy_coro] on
      hangup, [resume_coro_if_needed] and [death_queue_move_to_last]
      otherwise;
    - [epoll_wait] times out and the worker runs
      [death_queue_kill_waiting].
    A failed [epoll_wait] changes nothing.  The coroutines leave the ALIVE
    flag alone.  The steps obey the provisos that [p] switches on. *)
Inductive reachable (p : provisos) : io_state -> batch -> Prop :=
| reach_init slots kat pipe_fd :
    0 <= kat < 2 ^ 16 ->
    reachable p (worker_init slots kat pipe_fd) []
| reach_add_client s b fd :
    reachable p s b ->
    valid (io_dq s) (Conn fd) ->
    io_epoll s !! fd = None ->
    reachable p (lwan_thread_add_client s fd) b
| reach_wait s b :
    reachable p s [] ->
    delivered s b ->
    reachable p s b
| reach_event s fd a e b s' :
    reachable p s ((fd, (a, e)) :: b) ->
    well_behaved a ->
    (no_abort p = true -> resumes_without_abort a e s) ->
    (reseat_flagged p = true -> reseats_flagged e s') ->
    handle_event a e s = Ret s' ->
    reachable p s' b
| reach_timeout s fuel s' :
    reachable p s [] ->
    (no_wrap p = true ->
     time (io_dq s) + 1 + keep_alive_timeout (io_dq s) < 2 ^ 32) ->
    death_queue_kill_waiting fuel s = Ret s' ->
    reachable p s' [].



(** ** Example runs *)

(** What happens to the worker [worker_idle] in the example runs: a handoff;
    the wakeup of the worker, where every first resume runs [first]; an
    event with the bits [ready] reported for the registered descriptor
    [fd], whose coroutine then runs [r]; a second without events. *)
Inductive act :=
| Handoff (fd : nat)
| Wakeup (first : coro_run)
| Ready (fd : nat) (ready : Z) (r : coro_run)
| Second.

Definition after (s : io_state) (x : act) : io_state :=
  match x with
  | Handoff fd => lwan_thread_add_client s fd
  | Wakeup first =>
    state_of (handle_event (answering first run_served true)
                (mk_event EPOLLIN None) s) s
  | Ready fd ready r =>
    match reported s fd ready with
    | Some e => state_of (handle_event (answering run_served r true) e s) s
    | None => s
    end
  | Second => state_of (death_queue_kill_waiting 8 s) s
  end.





(** A run with an abort on the event path.  Descriptor 1 is accepted; while
    descriptors 2 and 3 are pending its coroutine aborts on an event, and
    [thread_io_loop] re-seats the destroyed slot; the closed descriptor 1 is
    handed off again and the three descriptors are accepted; a second passes
    and descriptor 1 serves a request; then descriptors 1 and 2 hang up. *)
Definition abort_run : list act :=
  [Handoff 1; Wakeup run_served; Handoff 2; Handoff 3;
   Ready 1 EPOLLOUT run_abort; Handoff 1; Wakeup run_served; Second;
   Ready 1 EPOLLOUT run_served; Ready 1 EPOLLHUP run_served;
   Ready 2 EPOLLHUP run_served]%nat.

(** Descriptor 1 is the only connection and waits to write; it was accepted
    [t] seconds ago and has served a request every second since; [tr] is
    what the worker did so far. *)
Definition worker_cruising (t : Z) (tr : list effect) : io_state :=
  mk_io (mk_dq [zero_conn;
                mk_conn (Z.lor (Z.lor CONN_IS_ALIVE CONN_SHOULD_RESUME_CORO)
                               CONN_WRITE_EVENTS)
                        (t + 15) (Some 7%nat) (-1) (-1);
                zero_conn; zero_conn]
               (mk_conn 0 0 None 1 1) t 15)
        (<[1%nat := mk_event (events_for ArmWrite) (Some (Conn 1))]>
           {[ 9%nat := mk_event EPOLLIN None ]})
        [] tr.

(** The same worker one second later, before descriptor 1 is served
    again. *)
Definition worker_waiting (t : Z) (tr : list effect) : io_state :=
  with_dq (worker_cruising t tr) (set_time (io_dq (worker_cruising t tr)) (t + 1)).

(** The worker has cruised for [2 ^ 32 - 16] seconds; one more second
    passes, and descriptor 2 is handed off and accepted. *)
Definition worker_wrapped (tr : list effect) : io_state :=
  foldl after (worker_waiting (2 ^ 32 - 16) tr)
    [Handoff 2; Wakeup run_served].
(** * Proofs *)

#[local] Arguments deref : simpl never.
#[local] Arguments assign : simpl never.
#[local] Arguments death_queue_insert : simpl never.
#[local] Arguments death_queue_remove : simpl never.
#[local] Arguments death_queue_move_to_last : simpl never.
#[local] Arguments death_queue_idx_to_node : simpl never.

(** ** Reading and writing slots *)

Lemma conn_eta (c : lwan_connection) :
  mk_conn (flags c) (time_to_die c) (coro c) (prev c) (next c) = c.
Proof. by destruct c. Qed.

Lemma conn_ext (a b : lwan_connection) :
  flags a = flags b -> time_to_die a = time_to_die b -> coro a = coro b ->
  prev a = prev b -> next a = next b -> a = b.
Proof. destruct a, b; simpl; congruence. Qed.

Lemma length_assign dq n c :
  length (conns (assign dq n c)) = length (conns dq).
Proof. destruct n; unfold assign; simpl; [done | apply length_insert]. Qed.

Lemma valid_assign dq n c m : valid (assign dq n c) m <-> valid dq m.
Proof. destruct m; simpl; [done | by rewrite length_assign]. Qed.

Lemma deref_assign dq n c m :
  valid dq n ->
  deref (assign dq n c) m = if decide (m = n) then c else deref dq m.
Proof.
  intros Hv. unfold deref, assign. case_decide as Hm.
  - subst m. destruct n as [|i]; simpl in *; [done |].
    by rewrite list_lookup_insert_eq.
  - destruct n as [|i], m as [|j]; simpl; try done.
    rewrite list_lookup_insert_ne; [done | congruence].
Qed.

Lemma time_assign dq n c : time (assign dq n c) = time dq.
Proof. by destruct n. Qed.

Lemma kat_assign dq n c :
  keep_alive_timeout (assign dq n c) = keep_alive_timeout dq.
Proof. by destruct n. Qed.

Lemma assign_id dq n : assign dq n (deref dq n) = dq.
Proof.
  destruct dq as [cs h t k], n as [|i]; unfold assign, deref; simpl; [done |].
  f_equal. destruct (cs !! i) as [c|] eqn:E; simpl.
  - by apply list_insert_id.
  - apply list_insert_ge. by apply lookup_ge_None.
Qed.

Lemma dq_ext (a b : death_queue) :
  length (conns a) = length (conns b) ->
  (forall n, deref a n = deref b n) ->
  time a = time b -> keep_alive_timeout a = keep_alive_timeout b ->
  a = b.
Proof.
  destruct a as [ca ha ta ka], b as [cb hb tb kb]; simpl.
  intros Hlen Hd -> ->. f_equal.
  - apply list_eq. intros i. specialize (Hd (Conn i)).
    unfold deref in Hd. simpl in Hd.
    destruct (ca !! i) as [x|] eqn:Ea, (cb !! i) as [y|] eqn:Eb;
      simpl in Hd; try congruence.
    + apply lookup_lt_Some in Ea. apply lookup_ge_None in Eb. lia.
    + apply lookup_ge_None in Ea. apply lookup_lt_Some in Eb. lia.
  - exact (Hd Head).
Qed.

Lemma idx_to_node_head dq : death_queue_idx_to_node dq (-1) = Head.
Proof. done. Qed.

Lemma idx_to_node_conn dq i :
  death_queue_idx_to_node dq (Z.of_nat i) = Conn i.
Proof.
  unfold death_queue_idx_to_node.
  destruct (Z.ltb_spec (Z.of_nat i) 0); [lia |]. by rewrite Nat2Z.id.
Qed.

(** Normalises reads after writes; side conditions are validity facts. *)
Ltac unfold_sets :=
  unfold set_prev, set_next, set_time_to_die, set_flags, set_coro in *.

Ltac solve_valid :=
  repeat (rewrite valid_assign); first [assumption | exact I | simpl; lia].

Ltac reads :=
  unfold_sets;
  repeat first
    [ rewrite length_assign
    | rewrite time_assign
    | rewrite kat_assign
    | rewrite deref_assign by solve_valid ];
  repeat case_decide; simplify_eq; simpl; try done.

(** ** Pointwise effect of the queue operations *)

Section queue_ops.
Variable dq : death_queue.
Variable c : nat.
Hypothesis c_valid : valid dq (Conn c).

  (** [death_queue_remove] when the neighbours [P] (before) and [N] (after)
      are distinct from the node itself. *)
Lemma remove_deref P N m :
    P = death_queue_idx_to_node dq (prev (deref dq (Conn c))) ->
    N = death_queue_idx_to_node dq (next (deref dq (Conn c))) ->
    valid dq P -> valid dq N -> P <> Conn c -> N <> Conn c ->
    deref (death_queue_remove dq (Conn c)) m =
      if decide (m = Conn c)
      then with_next (with_prev (deref dq (Conn c)) (-1)) (-1)
      else
        let x := deref dq m in
        let x := if decide (m = N)
                 then with_prev x (prev (deref dq (Conn c))) else x in
        if decide (m = P)
        then with_next x (next (deref dq (Conn c))) else x.
  Proof.
    intros HP HN vP vN nP nN. unfold death_queue_remove.
    unfold death_queue_idx_to_node in *.
    rewrite <- HP, <- HN. clear HP HN. reads.
  Qed.

  (** [death_queue_insert] when the current tail [T] is not the node. *)
Lemma insert_deref T m :
    T = death_queue_idx_to_node dq (prev (head dq)) ->
    valid dq T -> T <> Conn c ->
    deref (death_queue_insert dq (Conn c)) m =
      let x := deref dq m in
      let x := if decide (m = Conn c)
               then with_prev (with_next x (-1)) (prev (head dq)) else x in
      let x := if decide (m = T) then with_next x (Z.of_nat c) else x in
      if decide (m = Head) then with_prev x (Z.of_nat c) else x.
  Proof.
    intros HT vT nT. unfold death_queue_insert. cbv zeta.
    assert (head (set_prev (set_next dq (Conn c) (-1)) (Conn c)
              (prev (head (set_next dq (Conn c) (-1))))) = head dq) as Hh
      by done.
    rewrite Hh. change (head (set_next dq (Conn c) (-1))) with (head dq).
    cbn [death_queue_node_to_idx]. unfold death_queue_idx_to_node in *.
    rewrite <- HT. clear HT Hh. reads.
  Qed.
End queue_ops.

(** ** Chains *)

Lemma seg_app g s l1 l2 e :
  seg g s (l1 ++ l2) e <-> exists m, seg g s l1 m /\ seg g m l2 e.
Proof.
  revert s. induction l1 as [|i l1 IH]; intros s; simpl.
  - split; [eauto | by intros (m & -> & ?)].
  - rewrite IH. split.
    + intros (-> & m & ? & ?). eauto.
    + intros (m & (-> & ?) & ?). eauto.
Qed.

Lemma seg_ext g g' s l e :
  (forall i, i ∈ l -> g' (Conn i) = g (Conn i)) ->
  seg g s l e -> seg g' s l e.
Proof.
  revert s. induction l as [|i l IH]; intros s Hg; simpl; [done |].
  intros [-> Hs]. split; [done |]. rewrite Hg by left.
  apply IH; [|done]. intros j Hj. apply Hg. by right.
Qed.

Lemma seg_hd g s l : seg g s l (-1) -> s = hd_idx l.
Proof. destruct l; simpl; [done | by intros [-> _]]. Qed.

Lemma hd_idx_node dq l :
  death_queue_idx_to_node dq (hd_idx l) =
    match l with [] => Head | i :: _ => Conn i end.
Proof. destruct l; simpl; [done | apply idx_to_node_conn]. Qed.

(** Unlinking [c]: the link that led to [c] now leads to its successor. *)
Lemma seg_unlink g g' s s' l1 c l2 :
  NoDup (l1 ++ c :: l2) ->
  seg g s (l1 ++ c :: l2) (-1) ->
  (forall i, i ∈ l1 ++ l2 -> Z.of_nat i <> hd_idx (reverse l1) ->
             g' (Conn i) = g (Conn i)) ->
  match reverse l1 with
  | [] => s' = g (Conn c)
  | p :: _ => s' = s /\ g' (Conn p) = g (Conn c)
  end ->
  seg g' s' (l1 ++ l2) (-1).
Proof.
  intros Hnd Hseg Hsame Hlink.
  apply seg_app in Hseg as (m & H1 & Hc). simpl in Hc. destruct Hc as [-> H2].
  apply NoDup_app in Hnd as (Hnd1 & Hdisj & Hnd2).
  apply NoDup_cons in Hnd2 as [Hc2 Hnd2].
  destruct (reverse l1) as [|p r] eqn:Er.
  - assert (l1 = []) as -> by (by apply (f_equal reverse) in Er;
      rewrite reverse_involutive in Er).
    simpl in *. subst s'. eapply seg_ext; [|done].
    intros i Hi. apply Hsame; [done | lia].
  - assert (l1 = reverse r ++ [p]) as ->.
    { apply (f_equal reverse) in Er.
      by rewrite reverse_involutive, reverse_cons in Er. }
    destruct Hlink as [-> Hp].
    apply seg_app in H1 as (m & H1 & Hp1). simpl in Hp1.
    destruct Hp1 as [-> Hpc].
    apply NoDup_app in Hnd1 as (Hnd1 & Hdisj1 & _).
    rewrite <- app_assoc. apply seg_app. exists (Z.of_nat p). split.
    + eapply seg_ext; [|done]. intros i Hi. apply Hsame.
      * set_solver.
      * simpl. intros E. apply Nat2Z.inj in E. subst i.
        apply (Hdisj1 p); [done | by left].
    + simpl. split; [done |]. rewrite Hp.
      eapply seg_ext; [|done]. intros i Hi. apply Hsame.
      * set_solver.
      * simpl. intros E. apply Nat2Z.inj in E. subst i.
        apply (Hdisj p); [set_solver | by right].
Qed.

(** Linking [c] after the last slot. *)
Lemma seg_link_last g g' s s' l c :
  NoDup l ->
  seg g s l (-1) ->
  (forall i, i ∈ l -> Z.of_nat i <> hd_idx (reverse l) ->
             g' (Conn i) = g (Conn i)) ->
  g' (Conn c) = -1 ->
  match reverse l with
  | [] => s' = Z.of_nat c
  | t :: _ => s' = s /\ g' (Conn t) = Z.of_nat c
  end ->
  seg g' s' (l ++ [c]) (-1).
Proof.
  intros Hnd Hseg Hsame Hgc Hlink.
  destruct (reverse l) as [|t r] eqn:Er.
  - assert (l = []) as -> by (by apply (f_equal reverse) in Er;
      rewrite reverse_involutive in Er).
    simpl. by subst s'.
  - assert (l = reverse r ++ [t]) as ->.
    { apply (f_equal reverse) in Er.
      by rewrite reverse_involutive, reverse_cons in Er. }
    destruct Hlink as [-> Ht].
    apply seg_app in Hseg as (m & H1 & Ht1). simpl in Ht1.
    destruct Ht1 as [-> Hte].
    apply NoDup_app in Hnd as (_ & Hdisj & _).
    rewrite <- app_assoc. apply seg_app. exists (Z.of_nat t). split.
    + eapply seg_ext; [|done]. intros i Hi. apply Hsame; [set_solver |].
      simpl. intros E. apply Nat2Z.inj in E. subst i.
      apply (Hdisj t); [done | by left].
    + simpl. by rewrite Ht, Hgc.
Qed.

(** ** The queue as a list of slots *)

Lemma repr_head dq l :
  dll_repr dq l ->
  next (head dq) = hd_idx l /\ prev (head dq) = hd_idx (reverse l).
Proof. intros (_ & _ & Hn & Hp). split; by eapply seg_hd. Qed.

Lemma repr_links dq l1 c l2 :
  dll_repr dq (l1 ++ c :: l2) ->
  prev (deref dq (Conn c)) = hd_idx (reverse l1)
  /\ next (deref dq (Conn c)) = hd_idx l2.
Proof.
  intros (_ & _ & Hn & Hp). split.
  - rewrite reverse_app, reverse_cons, <- app_assoc in Hp.
    apply seg_app in Hp as (m & _ & Hp). simpl in Hp.
    destruct Hp as [_ Hp]. by eapply seg_hd.
  - apply seg_app in Hn as (m & _ & Hn). simpl in Hn.
    destruct Hn as [_ Hn]. by eapply seg_hd.
Qed.

Lemma repr_valid dq l i : dll_repr dq l -> i ∈ l -> valid dq (Conn i).
Proof.
  intros (_ & Hv & _) Hi. rewrite Forall_forall in Hv. by apply Hv.
Qed.

Lemma valid_hd dq l :
  Forall (fun i => valid dq (Conn i)) l ->
  valid dq (death_queue_idx_to_node dq (hd_idx l)).
Proof.
  rewrite hd_idx_node. destruct l; [done |]. by inversion 1.
Qed.

Lemma hd_ne dq l c :
  c ∉ l -> death_queue_idx_to_node dq (hd_idx l) <> Conn c.
Proof.
  rewrite hd_idx_node. destruct l; [done |].
  intros Hc [= ->]. apply Hc. by left.
Qed.

Lemma hd_node_ne dq l i :
  Z.of_nat i <> hd_idx l -> Conn i <> death_queue_idx_to_node dq (hd_idx l).
Proof.
  rewrite hd_idx_node. destruct l; [done |]. simpl. congruence.
Qed.

Lemma length_remove dq n :
  length (conns (death_queue_remove dq n)) = length (conns dq).
Proof. unfold death_queue_remove. unfold_sets. by rewrite !length_assign. Qed.

Lemma length_insert_dq dq n :
  length (conns (death_queue_insert dq n)) = length (conns dq).
Proof. unfold death_queue_insert. unfold_sets. by rewrite !length_assign. Qed.

Lemma time_remove dq n : time (death_queue_remove dq n) = time dq.
Proof. unfold death_queue_remove. unfold_sets. by rewrite !time_assign. Qed.

Lemma time_insert dq n : time (death_queue_insert dq n) = time dq.
Proof. unfold death_queue_insert. unfold_sets. by rewrite !time_assign. Qed.

Lemma kat_remove dq n :
  keep_alive_timeout (death_queue_remove dq n) = keep_alive_timeout dq.
Proof. unfold death_queue_remove. unfold_sets. by rewrite !kat_assign. Qed.

Lemma kat_insert dq n :
  keep_alive_timeout (death_queue_insert dq n) = keep_alive_timeout dq.
Proof. unfold death_queue_insert. unfold_sets. by rewrite !kat_assign. Qed.

Section linked_slot.
Variables (dq : death_queue) (l1 l2 : list nat) (c : nat).
Hypothesis Hrepr : dll_repr dq (l1 ++ c :: l2).

Lemma remove_linked_deref m :
    deref (death_queue_remove dq (Conn c)) m =
      if decide (m = Conn c)
      then with_next (with_prev (deref dq (Conn c)) (-1)) (-1)
      else
        let x := deref dq m in
        let x := if decide (m = death_queue_idx_to_node dq (hd_idx l2)) then with_prev x (hd_idx (reverse l1))
                 else x in
        if decide (m = death_queue_idx_to_node dq (hd_idx (reverse l1))) then with_next x (hd_idx l2) else x.
  Proof.
    destruct (repr_links _ _ _ _ Hrepr) as [Hp Hn].
    destruct Hrepr as (Hnd & Hv & _).
    apply NoDup_app in Hnd as (Hnd1 & Hdisj & Hnd2).
    apply NoDup_cons in Hnd2 as [Hc2 _].
    apply Forall_app in Hv as [Hv1 Hv2].
    apply Forall_cons in Hv2 as [Hvc Hv2].
    rewrite (remove_deref dq c Hvc
               (death_queue_idx_to_node dq (hd_idx (reverse l1)))
               (death_queue_idx_to_node dq (hd_idx l2)) m).
    - by rewrite Hp, Hn.
    - by rewrite Hp.
    - by rewrite Hn.
    - apply valid_hd. by apply Forall_reverse.
    - by apply valid_hd.
    - apply hd_ne. rewrite elem_of_reverse.
      intros Hin. by apply (Hdisj c); [|left].
    - by apply hd_ne.
  Qed.

Lemma remove_next m :
    next (deref (death_queue_remove dq (Conn c)) m) =
      if decide (m = Conn c) then -1
      else if decide (m = death_queue_idx_to_node dq (hd_idx (reverse l1))) then hd_idx l2 else next (deref dq m).
  Proof. rewrite remove_linked_deref. by repeat case_decide. Qed.

Lemma remove_prev m :
    prev (deref (death_queue_remove dq (Conn c)) m) =
      if decide (m = Conn c) then -1
      else if decide (m = death_queue_idx_to_node dq (hd_idx l2)) then hd_idx (reverse l1)
           else prev (deref dq m).
  Proof. rewrite remove_linked_deref. by repeat case_decide. Qed.

Lemma remove_repr : dll_repr (death_queue_remove dq (Conn c)) (l1 ++ l2).
  Proof.
    pose proof remove_next as Hrn. pose proof remove_prev as Hrp.
    destruct (repr_links _ _ _ _ Hrepr) as [Hp Hn].
    destruct Hrepr as (Hnd & Hv & Hnext & Hprev).
    assert (NoDup (l1 ++ l2) /\ forall i, i ∈ l1 ++ l2 -> i <> c)
      as [Hnd' Hne].
    { apply NoDup_app in Hnd as (? & Hdisj & Hnd2).
      apply NoDup_cons in Hnd2 as [? ?]. split.
      - apply NoDup_app. split_and!; [done | | done].
        intros x ? ?. apply (Hdisj x); [done | by right].
      - intros i Hin ->. apply elem_of_app in Hin as [?|?]; [|done].
        apply (Hdisj c); [done | by left]. }
    split_and!.
    - done.
    - apply Forall_forall. intros i Hi. cbn [valid]. rewrite length_remove.
      rewrite Forall_forall in Hv. apply (Hv i).
      apply elem_of_app in Hi as [?|?]; apply elem_of_app; [by left |].
      right. by right.
    - eapply (seg_unlink (fun n => next (deref dq n))); [done | done | |].
      + intros i Hi Hlast. rewrite Hrn.
        rewrite decide_False by (intros [= ->]; by apply (Hne c)).
        rewrite decide_False; [done |]. by apply hd_node_ne.
      + change (head (death_queue_remove dq (Conn c)))
          with (deref (death_queue_remove dq (Conn c)) Head).
        rewrite !Hrn, hd_idx_node.
        destruct (reverse l1) as [|p r] eqn:Er.
        * rewrite decide_False by done. rewrite decide_True by done.
          done.
        * rewrite !(decide_False (P := Head = _)) by done.
          split; [done |].
          assert (p <> c) as Hpc.
          { apply Hne. apply elem_of_app. left.
            rewrite <- elem_of_reverse, Er. by left. }
          rewrite Hrn, hd_idx_node.
          rewrite decide_False by congruence.
          by rewrite decide_True.
    - rewrite reverse_app.
      eapply (seg_unlink (fun n => prev (deref dq n)) _ _ _
                (reverse l2) c).
      + rewrite <- reverse_Permutation, reverse_app in Hnd.
        by rewrite reverse_cons, <- app_assoc in Hnd.
      + rewrite reverse_app, reverse_cons in Hprev.
        by rewrite <- app_assoc in Hprev.
      + intros i Hi Hlast. rewrite reverse_involutive in Hlast.
        rewrite Hrp.
        assert (i <> c) as Hic.
        { apply Hne. rewrite elem_of_app in *.
          rewrite !elem_of_reverse in Hi. tauto. }
        rewrite decide_False by congruence.
        rewrite decide_False; [done |]. by apply hd_node_ne.
      + rewrite reverse_involutive.
        change (head (death_queue_remove dq (Conn c)))
          with (deref (death_queue_remove dq (Conn c)) Head).
        rewrite !Hrp, hd_idx_node.
        destruct l2 as [|n2 r2] eqn:E2.
        * rewrite decide_False by done. rewrite decide_True by done.
          done.
        * rewrite !(decide_False (P := Head = _)) by done.
          split; [done |].
          assert (n2 <> c) as Hpc.
          { apply Hne. apply elem_of_app. right. by left. }
          rewrite Hrp, hd_idx_node.
          rewrite decide_False by congruence.
          by rewrite decide_True.
  Qed.

Lemma remove_payload m :
    payload (deref (death_queue_remove dq (Conn c)) m) = payload (deref dq m).
  Proof.
    rewrite remove_linked_deref. repeat case_decide; subst; done.
  Qed.
End linked_slot.

Section fresh_slot.
Variables (dq : death_queue) (l : list nat) (c : nat).
Hypothesis Hrepr : dll_repr dq l.
Hypothesis Hfresh : c ∉ l.
Hypothesis Hvalid : valid dq (Conn c).

Lemma insert_fresh_deref m :
  deref (death_queue_insert dq (Conn c)) m =
    let x := deref dq m in
    let x := if decide (m = Conn c)
             then with_prev (with_next x (-1)) (hd_idx (reverse l)) else x in
    let x := if decide (m = death_queue_idx_to_node dq (hd_idx (reverse l)))
             then with_next x (Z.of_nat c) else x in
    if decide (m = Head) then with_prev x (Z.of_nat c) else x.
Proof.
  destruct (repr_head _ _ Hrepr) as [_ Hhp].
  destruct Hrepr as (_ & Hv & _).
  rewrite (insert_deref dq c Hvalid
             (death_queue_idx_to_node dq (hd_idx (reverse l))) m).
  - by rewrite Hhp.
  - by rewrite Hhp.
  - apply valid_hd. by apply Forall_reverse.
  - apply hd_ne. by rewrite elem_of_reverse.
Qed.

Lemma insert_next m :
  next (deref (death_queue_insert dq (Conn c)) m) =
    if decide (m = death_queue_idx_to_node dq (hd_idx (reverse l)))
    then Z.of_nat c
    else if decide (m = Conn c) then -1 else next (deref dq m).
Proof. rewrite insert_fresh_deref. by repeat case_decide. Qed.

Lemma insert_prev m :
  prev (deref (death_queue_insert dq (Conn c)) m) =
    if decide (m = Head) then Z.of_nat c
    else if decide (m = Conn c) then hd_idx (reverse l)
         else prev (deref dq m).
Proof. rewrite insert_fresh_deref. by repeat case_decide. Qed.

Lemma insert_payload m :
  payload (deref (death_queue_insert dq (Conn c)) m) = payload (deref dq m).
Proof. rewrite insert_fresh_deref. by repeat case_decide; subst. Qed.

Lemma insert_repr : dll_repr (death_queue_insert dq (Conn c)) (l ++ [c]).
Proof.
  pose proof insert_next as Hin. pose proof insert_prev as Hip.
  destruct (repr_head _ _ Hrepr) as [Hhn Hhp].
  destruct Hrepr as (Hnd & Hv & Hnext & Hprev).
  assert (forall i, i ∈ l -> i <> c) as Hne by (by intros i ? ->).
  assert (Conn c <> death_queue_idx_to_node dq (hd_idx (reverse l))) as HcT.
  { intros E. symmetry in E. revert E. apply hd_ne.
    by rewrite elem_of_reverse. }
  split_and!.
  - apply NoDup_app. split_and!; [done | | apply NoDup_singleton].
    intros x Hx ->%list_elem_of_singleton. done.
  - apply Forall_app. split.
    + eapply Forall_impl; [done |]. intros i Hi. cbn [valid] in *.
      by rewrite length_insert_dq.
    + apply Forall_singleton. cbn [valid] in *. by rewrite length_insert_dq.
  - eapply (seg_link_last (fun n => next (deref dq n))); [done | done | | |].
    + intros i Hi Hlast. rewrite Hin.
      rewrite decide_False by (by apply hd_node_ne).
      rewrite decide_False; [done |]. intros [= ->]. by apply (Hne c).
    + rewrite Hin. rewrite decide_False by done. by rewrite decide_True.
    + change (head (death_queue_insert dq (Conn c)))
        with (deref (death_queue_insert dq (Conn c)) Head).
      rewrite Hin, hd_idx_node.
      destruct (reverse l) as [|t r] eqn:Er.
      * by rewrite decide_True.
      * rewrite !(decide_False (P := Head = _)) by done.
        split; [done |]. rewrite Hin, hd_idx_node. by rewrite decide_True.
  - rewrite reverse_snoc. cbn [seg].
    change (head (death_queue_insert dq (Conn c)))
      with (deref (death_queue_insert dq (Conn c)) Head).
    rewrite Hip. rewrite decide_True by done. split; [done |].
    rewrite Hip. rewrite decide_False by done. rewrite decide_True by done.
    rewrite <- Hhp. eapply seg_ext; [|done].
    intros i Hi. rewrite Hip. rewrite decide_False by done.
    rewrite decide_False; [done |]. intros [= ->].
    rewrite elem_of_reverse in Hi. by apply (Hne c).
Qed.
End fresh_slot.

(** ** Neighbours of a linked slot *)

Lemma repr_pred_next dq l1 c l2 :
  dll_repr dq (l1 ++ c :: l2) ->
  next (deref dq (death_queue_idx_to_node dq (hd_idx (reverse l1))))
  = Z.of_nat c.
Proof.
  intros Hrepr. rewrite hd_idx_node.
  destruct (reverse l1) as [|p r] eqn:Er.
  - apply (f_equal reverse) in Er. rewrite reverse_involutive in Er.
    subst l1. unfold deref. by destruct (repr_head _ _ Hrepr) as [-> _].
  - apply (f_equal reverse) in Er.
    rewrite reverse_involutive, reverse_cons in Er. subst l1.
    rewrite <- app_assoc in Hrepr. simpl in Hrepr.
    by destruct (repr_links _ _ _ _ Hrepr) as [_ ->].
Qed.

Lemma repr_succ_prev dq l1 c l2 :
  dll_repr dq (l1 ++ c :: l2) ->
  prev (deref dq (death_queue_idx_to_node dq (hd_idx l2))) = Z.of_nat c.
Proof.
  intros Hrepr. rewrite hd_idx_node. destruct l2 as [|n r].
  - unfold deref. destruct (repr_head _ _ Hrepr) as [_ ->].
    by rewrite reverse_app, reverse_cons.
  - replace (l1 ++ c :: n :: r) with ((l1 ++ [c]) ++ n :: r) in Hrepr
      by (by rewrite <- app_assoc).
    destruct (repr_links _ _ _ _ Hrepr) as [-> _].
    by rewrite reverse_snoc.
Qed.

Lemma repr_not_in dq l1 c l2 :
  dll_repr dq (l1 ++ c :: l2) -> (c ∉ l1 ++ l2) /\ valid dq (Conn c).
Proof.
  intros Hrepr. split.
  - destruct Hrepr as (Hnd & _).
    apply NoDup_app in Hnd as (? & Hdisj & Hnd2).
    apply NoDup_cons in Hnd2 as [? ?].
    intros Hin. apply elem_of_app in Hin as [?|?]; [|done].
    apply (Hdisj c); [done | by left].
  - eapply repr_valid; [done |]. apply elem_of_app. right. by left.
Qed.

(** Only the links of the sentinel and of the linked slots matter. *)
Lemma repr_same_links_on dq dq' l :
  length (conns dq') = length (conns dq) ->
  (forall m, (m = Head \/ exists i, m = Conn i /\ i ∈ l) ->
     prev (deref dq' m) = prev (deref dq m)
     /\ next (deref dq' m) = next (deref dq m)) ->
  dll_repr dq l -> dll_repr dq' l.
Proof.
  intros Hlen Hl (Hnd & Hv & Hnext & Hprev). split_and!.
  - done.
  - eapply Forall_impl; [done |]. intros i. cbn [valid]. by rewrite Hlen.
  - change (head dq') with (deref dq' Head).
    destruct (Hl Head) as [_ ->]; [by left |].
    eapply seg_ext; [|done]. intros i Hi. apply Hl. right. eauto.
  - change (head dq') with (deref dq' Head).
    destruct (Hl Head) as [-> _]; [by left |].
    eapply seg_ext; [|done]. intros i Hi. apply Hl. right.
    rewrite elem_of_reverse in Hi. eauto.
Qed.

(** Changing fields that are not links keeps the chain. *)
Lemma repr_same_links dq dq' l :
  length (conns dq') = length (conns dq) ->
  (forall m, prev (deref dq' m) = prev (deref dq m)) ->
  (forall m, next (deref dq' m) = next (deref dq m)) ->
  dll_repr dq l -> dll_repr dq' l.
Proof.
  intros Hlen Hp Hn. apply repr_same_links_on; [done |].
  intros m _. by split.
Qed.

Lemma deref_set_payload dq n c m :
  valid dq n ->
  prev c = prev (deref dq n) -> next c = next (deref dq n) ->
  prev (deref (assign dq n c) m) = prev (deref dq m)
  /\ next (deref (assign dq n c) m) = next (deref dq m).
Proof. intros Hv Hp Hn. rewrite deref_assign by done. by case_decide; subst. Qed.

Lemma repr_assign_payload dq n c l :
  valid dq n ->
  prev c = prev (deref dq n) -> next c = next (deref dq n) ->
  dll_repr dq l -> dll_repr (assign dq n c) l.
Proof.
  intros Hv Hp Hn. apply repr_same_links.
  - apply length_assign.
  - intros m. by apply deref_set_payload.
  - intros m. by apply deref_set_payload.
Qed.

Lemma assign_assign dq n a b : assign (assign dq n a) n b = assign dq n b.
Proof.
  destruct n; unfold assign; simpl; [done |].
  by rewrite list_insert_insert_eq.
Qed.

Lemma flag_set_lor f a b :
  flag_set f (Z.lor a b) = flag_set f a || flag_set f b.
Proof.
  unfold flag_set. rewrite Z.land_lor_distr_r.
  destruct (Z.eqb_spec (Z.land f a) 0) as [->|Ha]; simpl.
  - by rewrite Z.lor_0_l.
  - destruct (Z.eqb_spec (Z.lor (Z.land f a) (Z.land f b)) 0) as [E|]; [|done].
    apply Z.lor_eq_0_iff in E. tauto.
Qed.

(** [death_queue_move_to_last] stores the refreshed deadline, unlinks the
    slot and links it again at the tail. *)
Lemma move_to_last_unfold dq c :
  death_queue_move_to_last dq (Conn c) =
    death_queue_insert
      (death_queue_remove
         (set_time_to_die dq (Conn c) (refreshed_deadline dq c)) (Conn c))
      (Conn c).
Proof.
  unfold death_queue_move_to_last, refreshed_deadline.
  destruct (decide (c < length (conns dq))%nat) as [Hv|Hv].
  - cbv zeta. unfold set_time_to_die.
    rewrite ?time_assign, ?kat_assign, !deref_assign by solve_valid.
    rewrite ?time_assign, ?kat_assign, !decide_True by done.
    cbn [flags time_to_die with_time_to_die]. rewrite flag_set_lor.
    destruct (_ || _); [|done]. by rewrite assign_assign.
  - assert (forall x, assign dq (Conn c) x = dq) as Hno.
    { intros x. unfold assign. destruct dq as [cs h t k]. simpl in *.
      f_equal. apply list_insert_ge. lia. }
    cbv zeta. unfold set_time_to_die. rewrite !Hno. rewrite flag_set_lor.
    by destruct (_ || _).
Qed.

Lemma payload_inv a b :
  payload a = payload b ->
  flags a = flags b /\ time_to_die a = time_to_die b /\ coro a = coro b.
Proof. unfold payload. intros [= -> -> ->]. done. Qed.

Lemma deref_unlinked dq n m :
  valid dq n ->
  deref (unlinked dq n) m =
    if decide (m = n) then with_next (with_prev (deref dq n) (-1)) (-1)
    else deref dq m.
Proof. intros Hv. unfold unlinked. reads. Qed.

(** Inserting a fresh slot and removing it again only resets the links of
    that slot. *)
Lemma insert_remove dq l c :
  dll_repr dq l -> c ∉ l -> valid dq (Conn c) ->
  death_queue_remove (death_queue_insert dq (Conn c)) (Conn c)
  = unlinked dq (Conn c).
Proof.
  intros Hrepr Hc Hv.
  pose proof (insert_repr dq l c Hrepr Hc Hv) as Hrepr'.
  replace (l ++ [c]) with (l ++ c :: []) in Hrepr' by done.
  apply dq_ext.
  - rewrite length_remove, length_insert_dq. unfold unlinked. unfold_sets.
    by rewrite !length_assign.
  - intros m. rewrite deref_unlinked by done. apply conn_ext.
    + destruct (payload_inv _ _ (remove_payload _ _ _ _ Hrepr' m))
        as (-> & _ & _).
      destruct (payload_inv _ _ (insert_payload dq l c Hrepr Hc Hv m))
        as (-> & _ & _).
      by case_decide; subst.
    + destruct (payload_inv _ _ (remove_payload _ _ _ _ Hrepr' m))
        as (_ & -> & _).
      destruct (payload_inv _ _ (insert_payload dq l c Hrepr Hc Hv m))
        as (_ & -> & _).
      by case_decide; subst.
    + destruct (payload_inv _ _ (remove_payload _ _ _ _ Hrepr' m))
        as (_ & _ & ->).
      destruct (payload_inv _ _ (insert_payload dq l c Hrepr Hc Hv m))
        as (_ & _ & ->).
      by case_decide; subst.
    + rewrite (remove_prev _ _ _ _ Hrepr').
      rewrite (insert_prev dq l c Hrepr Hc Hv).
      destruct (repr_head _ _ Hrepr) as [_ Hhp].
      rewrite hd_idx_node. repeat case_decide; subst; try done.
    + rewrite (remove_next _ _ _ _ Hrepr').
      rewrite (insert_next dq l c Hrepr Hc Hv).
      case_decide; [done |]. cbn [hd_idx].
      change (death_queue_idx_to_node (death_queue_insert dq (Conn c)))
        with (death_queue_idx_to_node dq).
      case_decide as HT; [|done]. subst m.
      clear Hrepr'. revert Hrepr. clear. intros Hrepr.
      rewrite hd_idx_node.
      destruct (reverse l) as [|t r] eqn:Er.
      * apply (f_equal reverse) in Er. rewrite reverse_involutive in Er.
        subst l. unfold deref. by destruct (repr_head _ _ Hrepr) as [-> _].
      * apply (f_equal reverse) in Er.
        rewrite reverse_involutive, reverse_cons in Er. subst l.
        by destruct (repr_links _ _ _ _ Hrepr) as [_ ->].
  - rewrite time_remove, time_insert. unfold unlinked. unfold_sets.
    by rewrite !time_assign.
  - rewrite kat_remove, kat_insert. unfold unlinked. unfold_sets.
    by rewrite !kat_assign.
Qed.

(** Removing the tail and inserting it again changes nothing. *)
Lemma remove_insert_tail dq l c :
  dll_repr dq (l ++ [c]) ->
  death_queue_insert (death_queue_remove dq (Conn c)) (Conn c) = dq.
Proof.
  intros Hrepr.
  replace (l ++ [c]) with (l ++ c :: []) in Hrepr by done.
  pose proof (remove_repr _ _ _ _ Hrepr) as Hrepr'.
  rewrite app_nil_r in Hrepr'.
  destruct (repr_not_in _ _ _ _ Hrepr) as [Hc Hv].
  rewrite app_nil_r in Hc.
  assert (valid (death_queue_remove dq (Conn c)) (Conn c)) as Hv'
    by (cbn [valid] in *; by rewrite length_remove).
  destruct (repr_links _ _ _ _ Hrepr) as [Hcp Hcn].
  apply dq_ext.
  - by rewrite length_insert_dq, length_remove.
  - intros m. apply conn_ext.
    + destruct (payload_inv _ _ (insert_payload _ l c Hrepr' Hc Hv' m))
        as (-> & _ & _).
      by destruct (payload_inv _ _ (remove_payload _ _ _ _ Hrepr m))
        as (-> & _ & _).
    + destruct (payload_inv _ _ (insert_payload _ l c Hrepr' Hc Hv' m))
        as (_ & -> & _).
      by destruct (payload_inv _ _ (remove_payload _ _ _ _ Hrepr m))
        as (_ & -> & _).
    + destruct (payload_inv _ _ (insert_payload _ l c Hrepr' Hc Hv' m))
        as (_ & _ & ->).
      by destruct (payload_inv _ _ (remove_payload _ _ _ _ Hrepr m))
        as (_ & _ & ->).
    + rewrite (insert_prev _ l c Hrepr' Hc Hv').
      rewrite (remove_prev _ _ _ _ Hrepr).
      destruct (repr_head _ _ Hrepr) as [_ Hhp].
      rewrite reverse_app, reverse_cons in Hhp. simpl in Hhp.
      rewrite hd_idx_node. repeat case_decide; subst; try done.
    + rewrite (insert_next _ l c Hrepr' Hc Hv').
      rewrite (remove_next _ _ _ _ Hrepr).
      change (death_queue_idx_to_node (death_queue_remove dq (Conn c)))
        with (death_queue_idx_to_node dq).
      case_decide as HT.
      * subst m. symmetry. by apply (repr_pred_next dq l c []).
      * case_decide; [by subst |]. done.
  - by rewrite time_insert, time_remove.
  - by rewrite kat_insert, kat_remove.
Qed.

(** ** Destroying a connection *)

Lemma io_dq_destroy s n :
  io_dq (destroy_coro s n) =
    let q := death_queue_remove (io_dq s) n in
    let q := match coro (deref q n) with
             | Some _ => set_coro q n None
             | None => q
             end in
    if flag_set (flags (deref q n)) CONN_IS_ALIVE
    then set_flags q n (Z.land (flags (deref q n)) (Z.lnot CONN_IS_ALIVE))
    else q.
Proof.
  unfold destroy_coro. cbn [io_dq with_dq].
  destruct (coro (deref (death_queue_remove (io_dq s) n) n));
    cbn [io_dq with_dq emit];
    by destruct (flag_set _ CONN_IS_ALIVE).
Qed.

Lemma destroy_frame s n :
  valid (io_dq s) n ->
  let q := death_queue_remove (io_dq s) n in
  let q' := io_dq (destroy_coro s n) in
  length (conns q') = length (conns q)
  /\ time q' = time q
  /\ keep_alive_timeout q' = keep_alive_timeout q
  /\ (forall m, prev (deref q' m) = prev (deref q m))
  /\ (forall m, next (deref q' m) = next (deref q m))
  /\ (forall m, time_to_die (deref q' m) = time_to_die (deref q m))
  /\ (forall m, m <> n -> deref q' m = deref q m).
Proof.
  intros Hv q q'. subst q'. rewrite io_dq_destroy. fold q.
  assert (valid q n) as Hvq.
  { subst q. destruct n; [done |]. cbn [valid] in *.
    by rewrite length_remove. }
  cbv zeta.
  destruct (coro (deref q n)); destruct (flag_set _ CONN_IS_ALIVE);
    split_and!; try done; intros; reads.
Qed.

Lemma destroy_repr s l1 c l2 :
  dll_repr (io_dq s) (l1 ++ c :: l2) ->
  dll_repr (io_dq (destroy_coro s (Conn c))) (l1 ++ l2).
Proof.
  intros Hrepr. destruct (repr_not_in _ _ _ _ Hrepr) as [_ Hv].
  destruct (destroy_frame s (Conn c) Hv) as (Hlen & _ & _ & Hp & Hn & _).
  eapply repr_same_links; [done | done | done |]. by apply remove_repr.
Qed.

Lemma destroy_deadline s l1 c l2 i :
  dll_repr (io_dq s) (l1 ++ c :: l2) ->
  deadline (io_dq (destroy_coro s (Conn c))) i = deadline (io_dq s) i.
Proof.
  intros Hrepr. destruct (repr_not_in _ _ _ _ Hrepr) as [_ Hv].
  destruct (destroy_frame s (Conn c) Hv) as (_ & _ & _ & _ & _ & Ht & _).
  unfold deadline. rewrite Ht.
  by destruct (payload_inv _ _ (remove_payload _ _ _ _ Hrepr (Conn i)))
    as (_ & -> & _).
Qed.

Lemma destroy_time s n :
  valid (io_dq s) n ->
  time (io_dq (destroy_coro s n)) = time (io_dq s)
  /\ keep_alive_timeout (io_dq (destroy_coro s n))
     = keep_alive_timeout (io_dq s).
Proof.
  intros Hv. destruct (destroy_frame s n Hv) as (_ & -> & -> & _).
  by rewrite time_remove, kat_remove.
Qed.

(** ** Timeout eviction *)

Lemma expired_waiting dq t l : expired dq t l ++ waiting dq t l = l.
Proof.
  induction l as [|i l IH]; simpl; [done |].
  destruct (deadline dq i >? t); simpl; [done | by rewrite IH].
Qed.

Lemma expired_all dq t l : Forall (fun i => deadline dq i <= t) (expired dq t l).
Proof.
  induction l as [|i l IH]; simpl; [done |].
  destruct (Z.gtb_spec (deadline dq i) t); [done |].
  constructor; [lia | done].
Qed.

Lemma waiting_head dq t l :
  match waiting dq t l with
  | [] => True
  | i :: _ => deadline dq i > t
  end.
Proof.
  induction l as [|i l IH]; simpl; [done |].
  destruct (Z.gtb_spec (deadline dq i) t); [lia | done].
Qed.

Lemma expired_ext dq dq' t l :
  (forall i, i ∈ l -> deadline dq' i = deadline dq i) ->
  expired dq' t l = expired dq t l /\ waiting dq' t l = waiting dq t l.
Proof.
  induction l as [|i l IH]; intros Hd; simpl; [done |].
  rewrite Hd by left.
  destruct IH as [-> ->]; [intros j Hj; apply Hd; by right |].
  done.
Qed.

Lemma kill_waiting_loop_spec l : forall s fuel,
  dll_repr (io_dq s) l -> (length l < fuel)%nat ->
  kill_waiting_loop fuel s = Ret (evicted s (time (io_dq s)) l)
  /\ dll_repr (io_dq (evicted s (time (io_dq s)) l))
       (waiting (io_dq s) (time (io_dq s)) l).
Proof.
  induction l as [|i l IH]; intros s fuel Hrepr Hfuel.
  - destruct fuel as [|fuel]; [simpl in Hfuel; lia |].
    destruct (repr_head _ _ Hrepr) as [Hn Hp].
    simpl. unfold death_queue_empty. rewrite Hn. simpl. split; [done |].
    unfold evicted. simpl.
    eapply repr_same_links; [| | | done]; done.
  - destruct fuel as [|fuel]; [simpl in Hfuel; lia |].
    destruct (repr_head _ _ Hrepr) as [Hn Hp].
    cbn [kill_waiting_loop]. unfold death_queue_empty. rewrite Hn.
    cbn [hd_idx]. destruct (Z.ltb_spec (Z.of_nat i) 0) as [|_]; [lia |].
    rewrite idx_to_node_conn. fold (deadline (io_dq s) i).
    unfold evicted. cbn [expired waiting].
    destruct (deadline (io_dq s) i >? time (io_dq s)) eqn:Ed.
    + by split.
    + pose proof (destroy_repr s [] i l Hrepr) as Hrepr'. simpl in Hrepr'.
      assert (valid (io_dq s) (Conn i)) as Hv
        by (eapply repr_valid; [done | by left]).
      destruct (destroy_time s (Conn i) Hv) as [Ht _].
      destruct (IH (destroy_coro s (Conn i)) fuel Hrepr') as [Hk Hr];
        [simpl in Hfuel; lia |].
      rewrite Ht in Hk, Hr.
      destruct (expired_ext (io_dq s) (io_dq (destroy_coro s (Conn i)))
                  (time (io_dq s)) l) as [He Hw].
      { intros j _. by apply (destroy_deadline s [] i l). }
      unfold evicted in Hk, Hr. rewrite He, Hw in Hk. rewrite He, Hw in Hr.
      cbn [fmap list_fmap foldl]. by split.
Qed.

(** ** Flags as bits *)

Lemma flag_set_bit f p : 0 <= p -> flag_set f (2 ^ p) = Z.testbit f p.
Proof.
  intros Hp. unfold flag_set.
  destruct (Z.testbit f p) eqn:Eb.
  - destruct (Z.eqb_spec (Z.land f (2 ^ p)) 0) as [E|]; [|done].
    apply (f_equal (fun z => Z.testbit z p)) in E.
    rewrite Z.land_spec, Eb, Z.pow2_bits_eqb, Z.eqb_refl in E by done.
    by rewrite Z.bits_0 in E.
  - destruct (Z.eqb_spec (Z.land f (2 ^ p)) 0) as [|Hne]; [done |].
    exfalso. apply Hne. apply Z.bits_inj'. intros n Hn.
    rewrite Z.land_spec, Z.bits_0, Z.pow2_bits_eqb by done.
    destruct (Z.eqb_spec p n) as [->|]; [by rewrite Eb |].
    by rewrite andb_false_r.
Qed.

Lemma write_events_bit f : flag_set f CONN_WRITE_EVENTS = Z.testbit f 3.
Proof. by apply (flag_set_bit f 3). Qed.

Lemma should_resume_bit f :
  flag_set f CONN_SHOULD_RESUME_CORO = Z.testbit f 2.
Proof. by apply (flag_set_bit f 2). Qed.

Lemma is_alive_bit f : flag_set f CONN_IS_ALIVE = Z.testbit f 1.
Proof. by apply (flag_set_bit f 1). Qed.

Lemma keep_alive_bit f : flag_set f CONN_KEEP_ALIVE = Z.testbit f 0.
Proof. by apply (flag_set_bit f 0). Qed.

Lemma must_read_bit f : flag_set f CONN_MUST_READ = Z.testbit f 4.
Proof. by apply (flag_set_bit f 4). Qed.

(** Rewrites every flag test into a bit of the original flags. *)
Ltac mask_bits :=
  repeat match goal with
  | |- context [Z.testbit ?c ?n] =>
      lazymatch c with
      | CONN_KEEP_ALIVE => idtac
      | CONN_IS_ALIVE => idtac
      | CONN_SHOULD_RESUME_CORO => idtac
      | CONN_WRITE_EVENTS => idtac
      | CONN_MUST_READ => idtac
      end;
      let v := eval vm_compute in (Z.testbit c n) in
      change (Z.testbit c n) with v
  end.

Ltac flag_bits :=
  rewrite ?write_events_bit, ?should_resume_bit, ?is_alive_bit,
          ?keep_alive_bit, ?must_read_bit;
  rewrite ?Z.lxor_spec, ?Z.lor_spec, ?Z.land_spec, ?Z.lnot_spec by lia;
  mask_bits;
  cbn [negb];
  rewrite ?orb_false_r, ?andb_true_r, ?andb_false_r, ?xorb_false_r,
          ?xorb_true_r.

Lemma armed_toggle f :
  armed (Z.lxor f CONN_WRITE_EVENTS)
  = match armed f with ArmRead => ArmWrite | ArmWrite => ArmRead end.
Proof. unfold armed. flag_bits. by destruct (Z.testbit f 3). Qed.

Lemma armed_set_resume f :
  armed (Z.lor f CONN_SHOULD_RESUME_CORO) = armed f.
Proof. unfold armed. by flag_bits. Qed.

Lemma armed_clear_resume f :
  armed (Z.land f (Z.lnot CONN_SHOULD_RESUME_CORO)) = armed f.
Proof. unfold armed. by flag_bits. Qed.

(** ** Resuming a coroutine *)

Lemma mod_calls_app tr1 tr2 :
  mod_calls (tr1 ++ tr2) = mod_calls tr1 ++ mod_calls tr2.
Proof. apply omap_app. Qed.

Lemma rearm_spec ok w s c :
  valid (io_dq s) (Conn c) ->
  let s' := rearm ok w s (Conn c) in
  mod_calls (io_trace s')
  = mod_calls (io_trace s)
    ++ [(c, mk_event (nth (Nat.b2n w) events_by_write_flag 0)
                     (Some (Conn c)))]
  /\ io_dq s'
     = set_flags (io_dq s) (Conn c)
         (Z.lxor (flags (deref (io_dq s) (Conn c))) CONN_WRITE_EVENTS).
Proof.
  intros Hv s'. subst s'. unfold rearm, epoll_ctl_mod.
  cbn [lwan_connection_get_fd].
  destruct (ok && bool_decide (is_Some (io_epoll s !! c)));
    cbn [io_trace io_dq with_dq with_epoll emit];
    rewrite ?mod_calls_app; cbn [mod_calls omap list_omap];
    rewrite ?app_nil_r; done.
Qed.

(** A resume that does not abort, step by step. *)
Lemma resume_unfold s c k run ok :
  coro (deref (io_dq s) (Conn c)) = Some k ->
  flag_set (flags (deref (io_dq s) (Conn c))) CONN_SHOULD_RESUME_CORO = true ->
  CONN_CORO_MAY_RESUME <= yield_result run ->
  let f := on_flags run (flags (deref (io_dq s) (Conn c))) in
  let s1 := with_dq (emit s (CoroResume k))
              (set_flags (io_dq s) (Conn c) f) in
  let f1 := flags (deref (io_dq s1) (Conn c)) in
  let resumes := yield_result run =? CONN_CORO_MAY_RESUME in
  let f' := if resumes then Z.lor f1 CONN_SHOULD_RESUME_CORO
            else Z.land f1 (Z.lnot CONN_SHOULD_RESUME_CORO) in
  let s2 := with_dq s1 (set_flags (io_dq s1) (Conn c) f') in
  resume_coro_if_needed run ok s (Conn c) =
    Ret (if flag_set f1 CONN_MUST_READ then rearm ok true s1 (Conn c)
         else if eqb resumes (flag_set f' CONN_WRITE_EVENTS) then s2
              else rearm ok (flag_set f' CONN_WRITE_EVENTS) s2 (Conn c)).
Proof.
  intros Hc Hs Hy. cbv zeta. unfold resume_coro_if_needed, coro_resume.
  rewrite Hc, Hs. cbn [negb].
  destruct (Z.ltb_spec (yield_result run) CONN_CORO_MAY_RESUME); [lia |].
  cbn [io_dq with_dq emit].
  by repeat match goal with |- context [if ?b then _ else _] =>
    destruct b end.
Qed.

(** ** The chain determines the list *)

Lemma seg_unique g s l l' : seg g s l (-1) -> seg g s l' (-1) -> l = l'.
Proof.
  revert s l'. induction l as [|i l IH]; intros s [|i' l']; simpl.
  - done.
  - intros -> [? _]. lia.
  - intros [-> _] ?. lia.
  - intros [-> H1] [E H2]. apply Nat2Z.inj in E. subst i'.
    f_equal. by eapply IH.
Qed.

Lemma repr_unique dq l l' : dll_repr dq l -> dll_repr dq l' -> l = l'.
Proof. intros (_ & _ & H1 & _) (_ & _ & H2 & _). by eapply seg_unique. Qed.

Lemma linked_iff dq l i : dll_repr dq l -> linked dq i <-> i ∈ l.
Proof.
  intros Hrepr. split.
  - intros (l' & Hrepr' & Hi). by rewrite (repr_unique dq l l').
  - intros Hi. by exists l.
Qed.

(** ** Re-seating a linked slot *)

Lemma move_to_last_linked dq l1 c l2 :
  dll_repr dq (l1 ++ c :: l2) ->
  let dq' := death_queue_move_to_last dq (Conn c) in
  deadline dq' c = refreshed_deadline dq c
  /\ dll_repr dq' (l1 ++ l2 ++ [c])
  /\ prev (head dq') = Z.of_nat c
  /\ next (deref dq' (Conn c)) = -1
  /\ flags (deref dq' (Conn c)) = flags (deref dq (Conn c))
  /\ coro (deref dq' (Conn c)) = coro (deref dq (Conn c))
  /\ (forall i, i <> c ->
        payload (deref dq' (Conn i)) = payload (deref dq (Conn i)))
  /\ (forall i, i ∉ l1 ++ c :: l2 ->
        deref dq' (Conn i) = deref dq (Conn i))
  /\ time dq' = time dq
  /\ keep_alive_timeout dq' = keep_alive_timeout dq.
Proof.
  intros Hrepr dq'. subst dq'. rewrite move_to_last_unfold.
  destruct (repr_not_in _ _ _ _ Hrepr) as [Hc Hv].
  set (dq1 := set_time_to_die dq (Conn c) (refreshed_deadline dq c)).
  assert (dll_repr dq1 (l1 ++ c :: l2)) as Hrepr1
    by (by apply repr_assign_payload).
  pose proof (remove_repr _ _ _ _ Hrepr1) as Hrepr2.
  assert (valid (death_queue_remove dq1 (Conn c)) (Conn c)) as Hv2.
  { cbn [valid] in *. rewrite length_remove. subst dq1. unfold_sets.
    by rewrite length_assign. }
  pose proof (insert_repr _ _ c Hrepr2 Hc Hv2) as Hrepr3.
  assert (forall m, payload (deref (death_queue_insert
            (death_queue_remove dq1 (Conn c)) (Conn c)) m)
          = payload (deref dq1 m)) as Hpay.
  { intros m. rewrite (insert_payload _ _ c Hrepr2 Hc Hv2).
    apply (remove_payload _ _ _ _ Hrepr1). }
  destruct (repr_head _ _ Hrepr3) as [_ Hhp].
  rewrite reverse_snoc in Hhp.
  replace ((l1 ++ l2) ++ [c]) with ((l1 ++ l2) ++ c :: []) in Hrepr3 by done.
  destruct (repr_links _ _ _ _ Hrepr3) as [_ Hcn].
  split_and!.
  - unfold deadline.
    destruct (payload_inv _ _ (Hpay (Conn c))) as (_ & -> & _).
    subst dq1. reads.
  - rewrite app_assoc. exact Hrepr3.
  - exact Hhp.
  - exact Hcn.
  - destruct (payload_inv _ _ (Hpay (Conn c))) as (-> & _ & _).
    subst dq1. reads.
  - destruct (payload_inv _ _ (Hpay (Conn c))) as (_ & _ & ->).
    subst dq1. reads.
  - intros i Hi. rewrite Hpay. subst dq1. reads.
  - intros i Hi.
    assert (i <> c) as Hic by (intros ->; apply Hi; set_solver).
    assert (i ∉ l1 ++ l2) as Hi' by set_solver.
    rewrite (insert_fresh_deref _ _ c Hrepr2 Hc Hv2). cbv zeta.
    rewrite decide_False by done.
    rewrite (decide_False (P := Conn i = Conn c)) by congruence.
    rewrite decide_False.
    2:{ intros E. symmetry in E. revert E. apply hd_ne.
        by rewrite elem_of_reverse. }
    rewrite (remove_linked_deref _ _ _ _ Hrepr1). cbv zeta.
    rewrite (decide_False (P := Conn i = Conn c)) by congruence.
    rewrite decide_False.
    2:{ intros E. symmetry in E. revert E. apply hd_ne.
        rewrite elem_of_reverse. set_solver. }
    rewrite decide_False.
    2:{ intros E. symmetry in E. revert E. apply hd_ne. set_solver. }
    subst dq1. reads.
  - rewrite time_insert, time_remove. subst dq1. reads.
  - rewrite kat_insert, kat_remove. subst dq1. reads.
Qed.

(** ** Removing a slot that is not linked *)

Lemma remove_unlinked_head dq n :
  prev (deref dq n) = -1 -> next (deref dq n) = -1 ->
  next (head (death_queue_remove dq n)) = -1
  /\ prev (head (death_queue_remove dq n)) = -1.
Proof.
  intros Hp Hn.
  assert (valid dq n) as Hv.
  { destruct n as [|i]; [done |]. cbn [valid].
    destruct (decide (i < length (conns dq))%nat) as [|Hge]; [done |].
    unfold deref in Hp. rewrite lookup_ge_None_2 in Hp by lia. done. }
  change (head (death_queue_remove dq n))
    with (deref (death_queue_remove dq n) Head).
  unfold death_queue_remove. rewrite Hp, Hn, idx_to_node_head.
  destruct n as [|i]; reads; by rewrite ?Hp, ?Hn.
Qed.



(** ** Ordered deadlines *)

Lemma u32_small z : 0 <= z < 2 ^ 32 -> u32 z = z.
Proof. intros. unfold u32. by apply Z.mod_small. Qed.











(** ** Eviction keeps the order *)

Lemma kill_waiting_loop_mono fuel : forall s s' fuel',
  kill_waiting_loop fuel s = Ret s' -> (fuel <= fuel')%nat ->
  kill_waiting_loop fuel' s = Ret s'.
Proof.
  induction fuel as [|fuel IH]; intros s s' fuel' Hk Hle; [discriminate |].
  destruct fuel' as [|fuel']; [lia |]. cbn [kill_waiting_loop] in *.
  destruct (death_queue_empty (io_dq s)); [done |].
  destruct (_ >? _); [done |]. apply IH; [done | lia].
Qed.



(** ** What a resume does to the queue *)

Lemma set_flags_twice dq n a b :
  valid dq n -> set_flags (set_flags dq n a) n b = set_flags dq n b.
Proof.
  intros Hv. unfold set_flags. rewrite deref_assign by done.
  rewrite decide_True by done. by rewrite assign_assign.
Qed.

Lemma set_flags_same dq n : set_flags dq n (flags (deref dq n)) = dq.
Proof.
  unfold set_flags, with_flags. by rewrite conn_eta, assign_id.
Qed.





(** * The claims *)

Ltac by_evaluation := apply (bool_decide_unpack _); vm_compute; exact I.

(** C10.  Removing a node whose [prev] and [next] are both -1 writes -1 to
    both links of the sentinel, so the queue tests empty whatever was linked
    before. *)
Theorem remove_unlinked_empties_queue dq n :
  prev (deref dq n) = -1 -> next (deref dq n) = -1 ->
  next (head (death_queue_remove dq n)) = -1
  /\ prev (head (death_queue_remove dq n)) = -1
  /\ death_queue_empty (death_queue_remove dq n) = true.
Proof.
  intros Hp Hn. destruct (remove_unlinked_head dq n Hp Hn) as [H1 H2].
  unfold death_queue_empty. rewrite H1. by split_and!.
Qed.

(** Slots 1 and 3 are still linked in [queue_13] when slot 2, already
    removed, is removed again. *)
Lemma remove_unlinked_empties_queue_witness :
  dll_repr queue_13 [1; 3]%nat
  /\ prev (deref queue_13 (Conn 2)) = -1
  /\ next (deref queue_13 (Conn 2)) = -1
  /\ death_queue_empty (death_queue_remove queue_13 (Conn 2)) = true.
Proof.
  split_and!; [by_evaluation | reflexivity | reflexivity |].
  apply (remove_unlinked_empties_queue queue_13 (Conn 2)); reflexivity.
Defined.



(** C8 (L1).  For a slot [c] that is not linked, [insert] followed by
    [remove] leaves the sentinel and every other slot as they were and the
    chain of linked slots unchanged; the slot itself comes back with its own
    links reset to -1.  For a linked slot, a second [move_to_last] returns
    the state the first one produced. *)
Theorem insert_remove_and_move_twice dq l :
  dll_repr dq l ->
  (forall c, c ∉ l -> valid dq (Conn c) ->
     let dq' := death_queue_remove (death_queue_insert dq (Conn c)) (Conn c) in
     dq' = unlinked dq (Conn c)
     /\ head dq' = head dq
     /\ (forall i, i <> c -> deref dq' (Conn i) = deref dq (Conn i))
     /\ dll_repr dq' l
     /\ (prev (deref dq (Conn c)) = -1 -> next (deref dq (Conn c)) = -1 ->
         dq' = dq))
  /\ (forall c, c ∈ l ->
        death_queue_move_to_last
          (death_queue_move_to_last dq (Conn c)) (Conn c)
        = death_queue_move_to_last dq (Conn c)).
Proof.
  intros Hrepr. split.
  - intros c Hc Hv dq'. subst dq'. rewrite (insert_remove dq l c) by done.
    split_and!.
    + done.
    + change (head (unlinked dq (Conn c)))
        with (deref (unlinked dq (Conn c)) Head).
      by rewrite deref_unlinked, decide_False.
    + intros i Hi. rewrite deref_unlinked by done.
      rewrite decide_False; [done | congruence].
    + eapply repr_same_links_on; [| | exact Hrepr].
      * unfold unlinked. unfold_sets. by rewrite !length_assign.
      * intros m Hm. rewrite deref_unlinked by done.
        rewrite decide_False; [done |].
        destruct Hm as [-> | (i & -> & Hi)]; [done |]. by intros [= ->].
    + intros Hp Hn. apply dq_ext.
      * unfold unlinked. unfold_sets. by rewrite !length_assign.
      * intros m. rewrite deref_unlinked by done. case_decide; [|done].
        subst m. apply conn_ext; simpl; congruence.
      * unfold unlinked. unfold_sets. by rewrite !time_assign.
      * unfold unlinked. unfold_sets. by rewrite !kat_assign.
  - intros c Hc. apply list_elem_of_split in Hc as (l1 & l2 & ->).
    destruct (move_to_last_linked dq l1 c l2 Hrepr)
      as (Hd & Hrepr' & _ & _ & Hf & _ & _ & _ & Ht & Hk).
    rewrite (move_to_last_unfold (death_queue_move_to_last dq (Conn c))).
    assert (refreshed_deadline (death_queue_move_to_last dq (Conn c)) c
            = refreshed_deadline dq c) as Hr.
    { unfold refreshed_deadline. by rewrite Hf, Ht, Hk. }
    rewrite Hr, <- Hd. unfold deadline, set_time_to_die.
    unfold with_time_to_die. rewrite conn_eta, assign_id.
    rewrite app_assoc in Hrepr'. by eapply remove_insert_tail.
Qed.

(** Slot 0 of [queue_123] is fresh and slot 2 is linked. *)
Lemma insert_remove_and_move_twice_witness :
  dll_repr queue_123 [1; 2; 3]%nat
  /\ death_queue_remove (death_queue_insert queue_123 (Conn 0)) (Conn 0)
     = unlinked queue_123 (Conn 0)
  /\ death_queue_move_to_last
       (death_queue_move_to_last queue_123 (Conn 2)) (Conn 2)
     = death_queue_move_to_last queue_123 (Conn 2).
Proof.
  assert (dll_repr queue_123 [1; 2; 3]%nat) as H by by_evaluation.
  split; [exact H |].
  destruct (insert_remove_and_move_twice queue_123 [1; 2; 3]%nat H)
    as [H1 H2].
  split.
  - apply (H1 0%nat); by_evaluation.
  - apply (H2 2%nat). by_evaluation.
Defined.

(** C6.  On a queue linking [l], [death_queue_kill_waiting] first advances
    [dq.time] by one (unsigned 32-bit), then destroys the heads of the queue
    in order as long as their deadline is at most the new tick, and stops at
    the first head whose deadline exceeds it: what stays linked is the rest
    of [l].  The tick is reset to 0 exactly when nothing stays linked, so a
    queue left empty has [dq.time = 0] (P5). *)
Theorem kill_waiting_evicts s l fuel :
  dll_repr (io_dq s) l -> (length l < fuel)%nat ->
  let t := u32 (time (io_dq s) + 1) in
  let ticked := with_dq s (set_time (io_dq s) t) in
  let dead := expired (io_dq s) t l in
  let rest := waiting (io_dq s) t l in
  exists s',
    death_queue_kill_waiting fuel s = Ret s'
    /\ l = dead ++ rest
    /\ Forall (fun i => deadline (io_dq s) i <= t) dead
    /\ match rest with
       | [] => True
       | i :: _ => deadline (io_dq s) i > t
       end
    /\ s' = match rest with
            | [] => let s1 := foldl destroy_coro ticked (Conn <$> dead) in
                    with_dq s1 (set_time (io_dq s1) 0)
            | _ :: _ => foldl destroy_coro ticked (Conn <$> dead)
            end
    /\ dll_repr (io_dq s') rest
    /\ time (io_dq s') = match rest with [] => 0 | _ :: _ => t end
    /\ (death_queue_empty (io_dq s') = true -> time (io_dq s') = 0).
Proof.
  intros Hrepr Hfuel t ticked dead rest.
  assert (dll_repr (io_dq ticked) l) as Hrepr'.
  { eapply repr_same_links; [| | | exact Hrepr]; done. }
  destruct (kill_waiting_loop_spec l ticked fuel Hrepr' Hfuel) as [Hk Hr].
  change (time (io_dq ticked)) with t in Hk, Hr.
  destruct (expired_ext (io_dq s) (io_dq ticked) t l) as [He Hw]; [done |].
  unfold evicted in Hk, Hr. rewrite He, Hw in Hk. rewrite He, Hw in Hr.
  fold dead rest in Hk, Hr.
  assert (forall l' (s0 : io_state),
            Forall (fun i => valid (io_dq s0) (Conn i)) l' ->
            time (io_dq (foldl destroy_coro s0 (Conn <$> l')))
            = time (io_dq s0)) as Htime.
  { induction l' as [|i l' IH]; intros s0 Hv; [done |].
    apply Forall_cons in Hv as [Hi Hv]. cbn [fmap list_fmap foldl].
    destruct (destroy_frame s0 (Conn i) Hi) as (Hlen & _).
    destruct (destroy_time s0 (Conn i) Hi) as [<- _]. apply IH.
    eapply Forall_impl; [done |]. intros j. cbn [valid].
    by rewrite Hlen, length_remove. }
  assert (Forall (fun i => valid (io_dq ticked) (Conn i)) dead) as Hvd.
  { destruct Hrepr' as (_ & Hv & _). rewrite Forall_forall in *.
    intros i Hi. apply Hv. rewrite <- (expired_waiting (io_dq s) t l).
    apply elem_of_app. by left. }
  eexists. split; [exact Hk |]. split_and!.
  - subst dead rest. by rewrite expired_waiting.
  - apply expired_all.
  - apply waiting_head.
  - by destruct rest.
  - exact Hr.
  - destruct rest; [done |]. by rewrite Htime.
  - intros Hempty. destruct rest as [|i r] eqn:Er; [done |].
    destruct (repr_head _ _ Hr) as [Hn _].
    unfold death_queue_empty in Hempty. rewrite Hn in Hempty.
    simpl in Hempty. destruct (Z.ltb_spec (Z.of_nat i) 0); [lia | done].
Qed.

(** In [worker_123] the tick becomes 1: slots 1 and 2 have expired and are
    destroyed, slot 3 stays. *)
Lemma kill_waiting_evicts_witness :
  dll_repr (io_dq worker_123) [1; 2; 3]%nat
  /\ (length [1; 2; 3]%nat < 4)%nat
  /\ exists s',
       death_queue_kill_waiting 4 worker_123 = Ret s'
       /\ dll_repr (io_dq s') [3%nat]
       /\ time (io_dq s') = 1.
Proof.
  assert (dll_repr (io_dq worker_123) [1; 2; 3]%nat) as H by by_evaluation.
  assert (length [1; 2; 3]%nat < 4)%nat as Hf by (simpl; lia).
  split; [exact H |]. split; [exact Hf |].
  destruct (kill_waiting_evicts worker_123 [1; 2; 3]%nat 4 H Hf)
    as (s' & Hk & _ & _ & _ & _ & Hr & Ht & _).
  exists s'. split; [exact Hk |]. split; [exact Hr | exact Ht].
Defined.

(** C1, as amended.  For a resume that does not abort: when MUST_READ is
    clear, the registration is reprogrammed if and only if the target
    direction (write when the coroutine yielded MAY_RESUME, read otherwise)
    differs from the direction recorded in WRITE_EVENTS; when they coincide
    neither the registration nor the recorded direction changes, and when
    they differ the entry is reprogrammed to the target, which becomes the
    recorded direction.  When MUST_READ is set and write is recorded, the
    entry is reprogrammed to read. *)
Theorem resume_rearms_on_change s c k run ok :
  valid (io_dq s) (Conn c) ->
  coro (deref (io_dq s) (Conn c)) = Some k ->
  flag_set (flags (deref (io_dq s) (Conn c))) CONN_SHOULD_RESUME_CORO = true ->
  CONN_CORO_MAY_RESUME <= yield_result run ->
  let f := on_flags run (flags (deref (io_dq s) (Conn c))) in
  let target := code_target (yield_result run) in
  exists s',
    resume_coro_if_needed run ok s (Conn c) = Ret s'
    /\ (flag_set f CONN_MUST_READ = false ->
          ((~ untouched s s') <-> target <> armed f)
          /\ (target = armed f ->
                untouched s s'
                /\ armed (flags (deref (io_dq s') (Conn c))) = armed f)
          /\ (target <> armed f ->
                reprogrammed_to s s' c target
                /\ armed (flags (deref (io_dq s') (Conn c))) = target))
    /\ (flag_set f CONN_MUST_READ = true -> armed f = ArmWrite ->
          reprogrammed_to s s' c ArmRead
          /\ armed (flags (deref (io_dq s') (Conn c))) = ArmRead).
Proof.
  intros Hv Hc Hs Hy f target.
  eexists. split; [by apply (resume_unfold s c k run ok) |].
  cbv zeta. fold f.
  set (s1 := with_dq (emit s (CoroResume k))
               (set_flags (io_dq s) (Conn c) f)).
  assert (flags (deref (io_dq s1) (Conn c)) = f) as Hf
    by (subst s1; cbn [io_dq with_dq]; reads).
  rewrite !Hf.
  assert (valid (io_dq s1) (Conn c)) as Hv1
    by (subst s1; cbn [io_dq with_dq]; unfold_sets; solve_valid).
  assert (mod_calls (io_trace s1) = mod_calls (io_trace s)) as Hm1.
  { subst s1. cbn [io_trace with_dq emit]. rewrite mod_calls_app.
    by rewrite app_nil_r. }
  assert (io_epoll s1 = io_epoll s) as He1 by done.
  set (f' := if yield_result run =? CONN_CORO_MAY_RESUME
             then Z.lor f CONN_SHOULD_RESUME_CORO
             else Z.land f (Z.lnot CONN_SHOULD_RESUME_CORO)).
  assert (armed f' = armed f) as Ha'
    by (subst f'; destruct (_ =? _);
        [apply armed_set_resume | apply armed_clear_resume]).
  set (s2 := with_dq s1 (set_flags (io_dq s1) (Conn c) f')).
  assert (valid (io_dq s2) (Conn c)) as Hv2
    by (subst s2; cbn [io_dq with_dq]; unfold_sets; solve_valid).
  assert (flags (deref (io_dq s2) (Conn c)) = f') as Hf2
    by (subst s2; cbn [io_dq with_dq]; reads).
  assert (mod_calls (io_trace s2) = mod_calls (io_trace s)) as Hm2 by done.
  assert (forall (l : list (nat * epoll_event)) x, l ++ [x] <> l) as Hsnoc.
  { intros l x E. apply (f_equal length) in E.
    rewrite length_app in E. simpl in E. lia. }
  split.
  - intros Hmr. rewrite Hmr.
    assert (eqb (yield_result run =? CONN_CORO_MAY_RESUME)
                (flag_set f' CONN_WRITE_EVENTS) = true
            <-> target = armed f) as Hiff.
    { subst target. unfold code_target. rewrite <- Ha'. unfold armed.
      destruct (_ =? _), (flag_set f' _); simpl; split; done. }
    destruct (eqb _ _) eqn:Eq.
    + assert (target = armed f) as Ht by (by apply Hiff).
      assert (untouched s s2) as Hu by (by split).
      split_and!.
      * split; [by intros [] | by intros []].
      * intros _. split; [done |]. by rewrite Hf2.
      * by intros [].
    + assert (target <> armed f) as Ht
        by (intros Ht; apply Hiff in Ht; congruence).
      destruct (rearm_spec ok (flag_set f' CONN_WRITE_EVENTS) s2 c Hv2)
        as [Hm Hd].
      assert (nth (Nat.b2n (flag_set f' CONN_WRITE_EVENTS))
                events_by_write_flag 0 = events_for target) as Hev.
      { revert Ht. subst target. rewrite <- Ha'. unfold code_target, armed.
        by destruct (_ =? _), (flag_set f' _). }
      split_and!.
      * split; [done |]. intros _ [Hu _]. rewrite Hm, Hm2 in Hu.
        by apply Hsnoc in Hu.
      * done.
      * intros _. split.
        -- unfold reprogrammed_to. by rewrite Hm, Hev, Hm2.
        -- rewrite Hd, Hf2. unfold set_flags.
           rewrite deref_assign by done. rewrite decide_True by done.
           cbn [flags with_flags]. rewrite armed_toggle, Ha'.
           revert Ht. subst target. unfold code_target.
           by destruct (_ =? _), (armed f).
  - intros Hmr Hw. rewrite Hmr.
    destruct (rearm_spec ok true s1 c Hv1) as [Hm Hd]. split.
    + unfold reprogrammed_to. by rewrite Hm, Hm1.
    + rewrite Hd, Hf. unfold set_flags.
      rewrite deref_assign by done. rewrite decide_True by done.
      cbn [flags with_flags]. by rewrite armed_toggle, Hw.
Qed.

(** The first resume of [worker_spawned] serves a request and yields
    MAY_RESUME while read is recorded: the entry is reprogrammed to write. *)
Lemma resume_rearms_on_change_witness :
  exists s',
    resume_coro_if_needed run_served true worker_spawned (Conn 1) = Ret s'
    /\ reprogrammed_to worker_spawned s' 1 ArmWrite.
Proof.
  assert (valid (io_dq worker_spawned) (Conn 1)) as Hv by by_evaluation.
  assert (coro (deref (io_dq worker_spawned) (Conn 1)) = Some 7%nat) as Hc
    by reflexivity.
  assert (flag_set (flags (deref (io_dq worker_spawned) (Conn 1)))
            CONN_SHOULD_RESUME_CORO = true) as Hs by reflexivity.
  assert (CONN_CORO_MAY_RESUME <= yield_result run_served) as Hy
    by (vm_compute; discriminate).
  destruct (resume_rearms_on_change worker_spawned 1 7 run_served true
              Hv Hc Hs Hy) as (s' & Hr & Hclear & _).
  exists s'. split; [exact Hr |].
  destruct (Hclear eq_refl) as (_ & _ & Hdiff).
  apply Hdiff. vm_compute. discriminate.
Defined.

(** C1 as stated fails: with read recorded and MUST_READ clear, a yield of
    MAY_RESUME has target read in the wording of the specification, yet the
    entry is reprogrammed. *)
Lemma resume_rule_as_stated_fails : ~ resume_rule spec_target.
Proof.
  intros Hrule.
  specialize (Hrule worker_spawned 1%nat 7%nat run_served true
                (state_of (resume_coro_if_needed run_served true
                             worker_spawned (Conn 1)) worker_spawned)).
  cbv zeta in Hrule.
  destruct Hrule as [Hrule _];
    try by_evaluation; try (vm_compute; reflexivity).
  apply Hrule; [|vm_compute; reflexivity]. intros [Hu _].
  vm_compute in Hu. discriminate.
Qed.

(** C9.  When [coro_new] fails, [spawn_coro] logs the error and returns:
    the coroutine of the slot stays absent, ALIVE stays clear, and the death
    queue, the connection table and the interest list are as before.  The
    three hypotheses are the assertions [spawn_coro] opens with. *)
Theorem spawn_coro_failure_abandons s conn :
  coro (deref (io_dq s) conn) = None ->
  flag_set (flags (deref (io_dq s) conn)) CONN_IS_ALIVE = false ->
  flag_set (flags (deref (io_dq s) conn)) CONN_SHOULD_RESUME_CORO = false ->
  exists s',
    spawn_coro None s conn = Ret s'
    /\ io_trace s' = io_trace s ++ [StatusError "Could not create coroutine"]
    /\ io_dq s' = io_dq s
    /\ io_epoll s' = io_epoll s
    /\ coro (deref (io_dq s') conn) = None
    /\ flag_set (flags (deref (io_dq s') conn)) CONN_IS_ALIVE = false
    /\ (forall l, dll_repr (io_dq s) l -> dll_repr (io_dq s') l).
Proof.
  intros Hc Ha Hs.
  assert (set_coro (io_dq s) conn None = io_dq s) as Hid.
  { unfold set_coro. rewrite <- (assign_id (io_dq s) conn) at 3.
    f_equal. rewrite <- (conn_eta (deref (io_dq s) conn)) at 2.
    unfold with_coro. by rewrite Hc. }
  eexists. split.
  - unfold spawn_coro. rewrite Hc, Ha, Hs.
    rewrite bool_decide_eq_true_2 by done. cbn [negb andb]. reflexivity.
  - cbn [io_trace io_dq io_epoll emit with_dq]. rewrite Hid.
    by split_and!.
Qed.

(** A freshly accepted descriptor for which no coroutine can be created. *)
Lemma spawn_coro_failure_abandons_witness :
  exists s',
    spawn_coro None worker_registered (Conn 2) = Ret s'
    /\ io_dq s' = io_dq worker_registered
    /\ flag_set (flags (deref (io_dq s') (Conn 2))) CONN_IS_ALIVE = false.
Proof.
  destruct (spawn_coro_failure_abandons worker_registered (Conn 2))
    as (s' & Hr & _ & Hq & _ & _ & Ha & _); [reflexivity.. |].
  exists s'. split; [exact Hr |]. split; [exact Hq | exact Ha].
Defined.

(** C2, the code at a failing input.  Descriptors 1 and 2 are alive and
    linked (P1 holds).  Descriptor 1 becomes readable and its coroutine
    yields ABORT: [resume_coro_if_needed] destroys the connection, and
    [thread_io_loop] then calls [death_queue_move_to_last] on the destroyed
    slot.  Afterwards slot 1 is the only linked slot, with ALIVE clear and no
    coroutine, so P1 is violated; slot 2, still alive, is no longer
    linked. *)
Theorem abort_relinks_destroyed_slot :
  exists s s',
    worker_two = Ret s
    /\ dll_repr (io_dq s) [1; 2]%nat
    /\ P1 (io_dq s)
    /\ worker_two_abort = Ret s'
    /\ dll_repr (io_dq s') [1%nat]
    /\ flag_set (flags (deref (io_dq s') (Conn 1))) CONN_IS_ALIVE = false
    /\ coro (deref (io_dq s') (Conn 1)) = None
    /\ flag_set (flags (deref (io_dq s') (Conn 2))) CONN_IS_ALIVE = true
    /\ ~ linked (io_dq s') 2
    /\ ~ P1 (io_dq s').
Proof.
  exists (state_of worker_two worker_idle),
         (state_of worker_two_abort worker_idle).
  split; [vm_compute; reflexivity |].
  split; [by_evaluation |].
  split.
  { intros i Hi. apply (linked_iff _ [1; 2]%nat) in Hi; [|by_evaluation].
    apply list_elem_of_In in Hi. simpl in Hi.
    destruct Hi as [<- | [<- | []]];
      (split; [vm_compute; reflexivity | vm_compute; discriminate]). }
  split; [vm_compute; reflexivity |].
  split; [by_evaluation |].
  split; [vm_compute; reflexivity |]. split; [vm_compute; reflexivity |]. split; [vm_compute; reflexivity |].
  split.
  { intros Hl. apply (linked_iff _ [1%nat]) in Hl; [|by_evaluation].
    apply list_elem_of_In in Hl. simpl in Hl. destruct Hl as [? | []].
    discriminate. }
  intros HP1. destruct (HP1 1%nat) as [Ha _].
  - apply (linked_iff _ [1%nat]); [by_evaluation | by left].
  - vm_compute in Ha. discriminate.
Qed.

(** C3, the code at a failing input.  [accept_nudge] registers descriptor 1
    edge-triggered for reading with a zero-initialised [epoll_event], that
    is with a NULL user pointer; only a later [EPOLL_CTL_MOD] in
    [resume_coro_if_needed] stores the address of the slot.  When the first
    resume yields above MAY_RESUME with MUST_READ clear, or when that
    [epoll_ctl] call fails, the connection stays alive with a NULL user
    pointer, and the event the kernel reports for it is dispatched as a
    wakeup. *)
Theorem handoff_registers_null_pointer :
  let null_registered (s : io_state) :=
    flag_set (flags (deref (io_dq s) (Conn 1))) CONN_IS_ALIVE = true
    /\ In (EpollCtlAdd 1 (mk_event (events_for ArmRead) None) true)
          (io_trace s)
    /\ io_epoll s !! 1%nat = Some (mk_event (events_for ArmRead) None)
    /\ reported s 1 EPOLLIN = Some (mk_event EPOLLIN None)
    /\ forall a, handle_event a (mk_event EPOLLIN None) s
                 = accept_nudge (read_ok a) (handoffs a) s in
  (exists s, worker_one run_finished true = Ret s /\ null_registered s)
  /\ (exists s, worker_one run_must_read false = Ret s /\ null_registered s).
Proof.
  split.
  - exists (state_of (worker_one run_finished true) worker_idle).
    split; [vm_compute; reflexivity |]. split_and!; try (vm_compute; reflexivity).
    vm_compute. tauto.
  - exists (state_of (worker_one run_must_read false) worker_idle).
    split; [vm_compute; reflexivity |]. split_and!; try (vm_compute; reflexivity).
    vm_compute. tauto.
Qed.

(** C4, the code at a failing input.  Descriptor 1 is registered for
    reading with WRITE_EVENTS clear (P6 holds).  Its coroutine finds no
    input, sets MUST_READ and yields: [resume_coro_if_needed] reprograms the
    entry for reading again and toggles WRITE_EVENTS, which is now set while
    the kernel watches the descriptor for reading. *)
Theorem must_read_toggle_breaks_P6 :
  P6 worker_spawned
  /\ exists s' ev,
       resume_coro_if_needed run_must_read true worker_spawned (Conn 1)
       = Ret s'
       /\ flag_set (flags (deref (io_dq s') (Conn 1))) CONN_IS_ALIVE = true
       /\ armed (flags (deref (io_dq s') (Conn 1))) = ArmWrite
       /\ io_epoll s' !! 1%nat = Some ev
       /\ arm_of_events (events ev) = ArmRead
       /\ ~ P6 s'.
Proof.
  split.
  - intros fd ev Ha He.
    assert (fd = 1%nat) as ->.
    { destruct fd as [|[|[|[|[|fd]]]]];
        try (vm_compute in Ha; discriminate). reflexivity. }
    vm_compute in He. injection He as <-. vm_compute. reflexivity.
  - exists (state_of (resume_coro_if_needed run_must_read true
                        worker_spawned (Conn 1)) worker_idle),
           (mk_event (events_for ArmRead) (Some (Conn 1))).
    split; [vm_compute; reflexivity |].
    split; [vm_compute; reflexivity |]. split; [vm_compute; reflexivity |].
    split; [vm_compute; reflexivity |]. split; [vm_compute; reflexivity |].
    intros HP6. specialize (HP6 1%nat (mk_event (events_for ArmRead) (Some (Conn 1)))).
    vm_compute in HP6. specialize (HP6 eq_refl eq_refl). discriminate.
Qed.

(** * Further properties of the code *)

(** X1.  [death_queue_idx_to_node] undoes [death_queue_node_to_idx] on every
    node, and in the other direction every negative index comes back as the
    sentinel index -1 while an index of the table comes back unchanged. *)
Theorem node_idx_round_trip dq :
  (forall n,
     death_queue_idx_to_node dq (death_queue_node_to_idx dq n) = n)
  /\ (forall idx,
        death_queue_node_to_idx dq (death_queue_idx_to_node dq idx)
        = Z.max (-1) idx).
Proof.
  split.
  - intros [|i]; [done | apply idx_to_node_conn].
  - intros idx. unfold death_queue_idx_to_node.
    destruct (Z.ltb_spec idx 0); simpl; [lia |].
    rewrite Z2Nat.id by lia. lia.
Qed.

(** X2.  On a well-formed queue, [death_queue_empty] holds exactly when no
    slot is linked, and the wait timeout handed to [epoll_wait] is -1 (block)
    in that case and 1000 ms otherwise. *)
Theorem epoll_timeout_tracks_queue dq l :
  dll_repr dq l ->
  (death_queue_empty dq = true <-> l = [])
  /\ death_queue_epoll_timeout dq
     = match l with [] => -1 | _ :: _ => 1000 end.
Proof.
  intros Hrepr. destruct (repr_head _ _ Hrepr) as [Hn _].
  unfold death_queue_epoll_timeout, death_queue_empty. rewrite Hn.
  destruct l as [|i l]; simpl; [done |].
  destruct (Z.ltb_spec (Z.of_nat i) 0); [lia | done].
Qed.

(** The fresh queue blocks; [queue_123] polls every second. *)
Lemma epoll_timeout_tracks_queue_witness :
  dll_repr (death_queue_init table 15) []
  /\ death_queue_epoll_timeout (death_queue_init table 15) = -1
  /\ dll_repr queue_123 [1; 2; 3]%nat
  /\ death_queue_epoll_timeout queue_123 = 1000.
Proof.
  assert (dll_repr (death_queue_init table 15) []) as H0 by by_evaluation.
  assert (dll_repr queue_123 [1; 2; 3]%nat) as H1 by by_evaluation.
  split; [exact H0 |]. split.
  - apply (epoll_timeout_tracks_queue _ [] H0).
  - split; [exact H1 |].
    apply (epoll_timeout_tracks_queue _ [1; 2; 3]%nat H1).
Defined.

(** X3.  [death_queue_insert] of a slot that is not linked appends it to the
    chain: it becomes the tail, immediately before the sentinel, the queue is
    not empty afterwards, and no slot changes its flags, deadline or
    coroutine. *)
Theorem insert_appends_at_tail dq l c :
  dll_repr dq l -> c ∉ l -> valid dq (Conn c) ->
  let dq' := death_queue_insert dq (Conn c) in
  dll_repr dq' (l ++ [c])
  /\ prev (head dq') = Z.of_nat c
  /\ next (deref dq' (Conn c)) = -1
  /\ death_queue_empty dq' = false
  /\ (forall m, payload (deref dq' m) = payload (deref dq m))
  /\ time dq' = time dq
  /\ keep_alive_timeout dq' = keep_alive_timeout dq.
Proof.
  intros Hrepr Hc Hv dq'. subst dq'.
  pose proof (insert_repr dq l c Hrepr Hc Hv) as Hrepr'.
  destruct (repr_head _ _ Hrepr') as [Hhn Hhp].
  rewrite reverse_snoc in Hhp.
  split_and!.
  - exact Hrepr'.
  - exact Hhp.
  - rewrite (insert_next dq l c Hrepr Hc Hv).
    rewrite decide_False; [by rewrite decide_True |].
    intros E. symmetry in E. revert E. apply hd_ne.
    by rewrite elem_of_reverse.
  - unfold death_queue_empty. rewrite Hhn.
    destruct l as [|i l]; simpl; apply Z.ltb_ge; lia.
  - intros m. by apply (insert_payload dq l c).
  - apply time_insert.
  - apply kat_insert.
Qed.

(** Slot 0 is appended to [queue_123]. *)
Lemma insert_appends_at_tail_witness :
  dll_repr queue_123 [1; 2; 3]%nat
  /\ dll_repr (death_queue_insert queue_123 (Conn 0)) [1; 2; 3; 0]%nat.
Proof.
  assert (dll_repr queue_123 [1; 2; 3]%nat) as H by by_evaluation.
  split; [exact H |].
  apply (insert_appends_at_tail queue_123 [1; 2; 3]%nat 0%nat H);
    by_evaluation.
Defined.

(** X4.  [death_queue_remove] of a linked slot takes it out of the chain and
    leaves the other linked slots in their order; the removed slot has both
    links reset to -1, and no slot changes its flags, deadline or
    coroutine. *)
Theorem remove_unlinks dq l1 c l2 :
  dll_repr dq (l1 ++ c :: l2) ->
  let dq' := death_queue_remove dq (Conn c) in
  dll_repr dq' (l1 ++ l2)
  /\ ~ linked dq' c
  /\ prev (deref dq' (Conn c)) = -1
  /\ next (deref dq' (Conn c)) = -1
  /\ (forall m, payload (deref dq' m) = payload (deref dq m))
  /\ time dq' = time dq
  /\ keep_alive_timeout dq' = keep_alive_timeout dq.
Proof.
  intros Hrepr dq'. subst dq'.
  pose proof (remove_repr _ _ _ _ Hrepr) as Hrepr'.
  destruct (repr_not_in _ _ _ _ Hrepr) as [Hc _].
  split_and!.
  - exact Hrepr'.
  - intros Hl. by apply (linked_iff _ _ c Hrepr') in Hl.
  - rewrite (remove_prev _ _ _ _ Hrepr). by rewrite decide_True.
  - rewrite (remove_next _ _ _ _ Hrepr). by rewrite decide_True.
  - intros m. by apply (remove_payload _ _ _ _ Hrepr).
  - apply time_remove.
  - apply kat_remove.
Qed.

(** Slot 2 is taken out of the middle of [queue_123]. *)
Lemma remove_unlinks_witness :
  dll_repr queue_123 ([1%nat] ++ 2%nat :: [3%nat])
  /\ dll_repr (death_queue_remove queue_123 (Conn 2)) [1; 3]%nat.
Proof.
  assert (dll_repr queue_123 ([1%nat] ++ 2%nat :: [3%nat])) as H
    by by_evaluation.
  split; [exact H |].
  apply (remove_unlinks queue_123 [1%nat] 2%nat [3%nat] H).
Defined.

Lemma repr_P3 dq l : dll_repr dq l -> P3 dq.
Proof.
  intros Hrepr i Hi. apply (linked_iff _ l) in Hi; [|done].
  apply list_elem_of_split in Hi as (l1 & l2 & ->).
  destruct (repr_links _ _ _ _ Hrepr) as [-> ->]. split.
  - by apply (repr_succ_prev dq l1 i l2).
  - by apply (repr_pred_next dq l1 i l2).
Qed.

Lemma init_repr slots kat : dll_repr (death_queue_init slots kat) [].
Proof. split_and!; [apply NoDup_nil_2 | done | done | done]. Qed.

(** X5.  Link integrity (P3) is an invariant of the death queue: every queue
    built from [death_queue_init] by inserting unlinked slots, removing or
    re-seating linked ones and writing non-link fields is a well-formed
    chain, and the neighbours of every linked slot point back to it. *)
Theorem built_queue_keeps_links dq :
  queue_built dq -> (exists l, dll_repr dq l) /\ P3 dq.
Proof.
  intros Hb.
  assert (exists l, dll_repr dq l) as [l Hrepr].
  { induction Hb as [slots kat | dq c _ [l IH] Hv Hl | dq c _ [l IH] Hl
                    | dq c _ [l IH] Hl | dq c x _ [l IH] Hv Hp Hn].
    - exists []. apply init_repr.
    - exists (l ++ [c]). apply insert_repr; [done | | done].
      intros Hc. apply Hl. by exists l.
    - apply (linked_iff _ l) in Hl; [|done].
      apply list_elem_of_split in Hl as (l1 & l2 & ->).
      exists (l1 ++ l2). by apply remove_repr.
    - apply (linked_iff _ l) in Hl; [|done].
      apply list_elem_of_split in Hl as (l1 & l2 & ->).
      exists (l1 ++ l2 ++ [c]).
      by destruct (move_to_last_linked dq l1 c l2 IH) as (_ & ? & _).
    - exists l. by apply repr_assign_payload. }
  split; [by exists l | by eapply repr_P3].
Qed.

(** [queue_123], after re-seating slot 1, is built by the operations. *)
Lemma built_queue_keeps_links_witness :
  queue_built (death_queue_move_to_last queue_123 (Conn 1))
  /\ P3 (death_queue_move_to_last queue_123 (Conn 1)).
Proof.
  assert (forall i, ~ linked (death_queue_init table 15) i) as H0.
  { intros i Hl. apply (linked_iff _ []) in Hl; [|by_evaluation].
    by apply elem_of_nil in Hl. }
  assert (queue_built (death_queue_move_to_last queue_123 (Conn 1))) as Hb.
  { apply built_move.
    - unfold queue_123. apply built_insert.
      + apply built_insert.
        * apply built_insert; [apply built_init | by_evaluation | apply H0].
        * by_evaluation.
        * intros Hl. apply (linked_iff _ [1%nat]) in Hl; [|by_evaluation].
          apply list_elem_of_In in Hl. simpl in Hl.
          destruct Hl as [? | []]. discriminate.
      + by_evaluation.
      + intros Hl. apply (linked_iff _ [1; 2]%nat) in Hl; [|by_evaluation].
        apply list_elem_of_In in Hl. simpl in Hl.
        destruct Hl as [? | [? | []]]; discriminate.
    - apply (linked_iff _ [1; 2; 3]%nat); [by_evaluation | by left]. }
  split; [exact Hb |].
  apply (built_queue_keeps_links _ Hb).
Defined.

(** ** Destroying connections *)

Lemma assign_payload_any dq n x m :
  payload x = payload (deref dq n) ->
  payload (deref (assign dq n x) m) = payload (deref dq m).
Proof.
  intros Hx. destruct n as [|i].
  - rewrite deref_assign by done. by case_decide; subst.
  - destruct (decide (i < length (conns dq))%nat) as [Hv|Hv].
    + rewrite deref_assign by done. by case_decide; subst.
    + unfold assign. rewrite list_insert_ge by lia. by destruct dq.
Qed.

Lemma remove_payload_any dq n m :
  payload (deref (death_queue_remove dq n) m) = payload (deref dq m).
Proof.
  unfold death_queue_remove, set_prev, set_next.
  by rewrite !assign_payload_any.
Qed.

(** After [destroy_coro] the slot has no coroutine and is not alive. *)
Lemma destroyed_payload s c :
  valid (io_dq s) (Conn c) ->
  coro (deref (io_dq (destroy_coro s (Conn c))) (Conn c)) = None
  /\ flag_set (flags (deref (io_dq (destroy_coro s (Conn c))) (Conn c)))
       CONN_IS_ALIVE = false.
Proof.
  intros Hv. rewrite io_dq_destroy. cbv zeta.
  set (q := death_queue_remove (io_dq s) (Conn c)).
  assert (valid q (Conn c)) as Hvq
    by (subst q; cbn [valid] in *; by rewrite length_remove).
  destruct (coro (deref q (Conn c))) as [k|] eqn:Ec.
  - destruct (flag_set (flags (deref (set_coro q (Conn c) None) (Conn c)))
                CONN_IS_ALIVE) eqn:Ea.
    + split; [reads |]. unfold set_flags, set_coro.
      rewrite !deref_assign by solve_valid. rewrite !decide_True by done.
      cbn [flags with_flags with_coro]. by flag_bits.
    + split; [reads | done].
  - destruct (flag_set (flags (deref q (Conn c))) CONN_IS_ALIVE) eqn:Ea.
    + split; [by reads |]. unfold set_flags.
      rewrite !deref_assign by solve_valid. rewrite !decide_True by done.
      cbn [flags with_flags]. by flag_bits.
    + by split.
Qed.

Lemma destroy_coro_alive s l1 c l2 k :
  dll_repr (io_dq s) (l1 ++ c :: l2) ->
  coro (deref (io_dq s) (Conn c)) = Some k ->
  flag_set (flags (deref (io_dq s) (Conn c))) CONN_IS_ALIVE = true ->
  let s' := destroy_coro s (Conn c) in
  io_trace s' = io_trace s ++ [CoroFree k; CloseFd c]
  /\ io_epoll s' = delete c (io_epoll s)
  /\ io_pending s' = io_pending s
  /\ coro (deref (io_dq s') (Conn c)) = None
  /\ flags (deref (io_dq s') (Conn c))
     = Z.land (flags (deref (io_dq s) (Conn c))) (Z.lnot CONN_IS_ALIVE)
  /\ flag_set (flags (deref (io_dq s') (Conn c))) CONN_IS_ALIVE = false
  /\ deadline (io_dq s') c = deadline (io_dq s) c
  /\ dll_repr (io_dq s') (l1 ++ l2)
  /\ (forall i, i <> c ->
        payload (deref (io_dq s') (Conn i))
        = payload (deref (io_dq s) (Conn i))).
Proof.
  intros Hrepr Hc Ha s'.
  destruct (repr_not_in _ _ _ _ Hrepr) as [_ Hv].
  destruct (destroyed_payload s c Hv) as [Hnc Hna].
  assert (valid (death_queue_remove (io_dq s) (Conn c)) (Conn c)) as Hvq
    by (cbn [valid] in *; by rewrite length_remove).
  assert (coro (deref (death_queue_remove (io_dq s) (Conn c)) (Conn c))
          = Some k) as Hc'.
  { by destruct (payload_inv _ _ (remove_payload_any (io_dq s) (Conn c)
                                    (Conn c))) as (_ & _ & ->). }
  assert (flags (deref (death_queue_remove (io_dq s) (Conn c)) (Conn c))
          = flags (deref (io_dq s) (Conn c))) as Hf'.
  { by destruct (payload_inv _ _ (remove_payload_any (io_dq s) (Conn c)
                                    (Conn c))) as (-> & _ & _). }
  assert (s' = close c
            (with_dq (emit (with_dq s (death_queue_remove (io_dq s) (Conn c)))
                           (CoroFree k))
               (set_flags
                  (set_coro (death_queue_remove (io_dq s) (Conn c))
                     (Conn c) None) (Conn c)
                  (Z.land (flags (deref (io_dq s) (Conn c)))
                     (Z.lnot CONN_IS_ALIVE))))) as Hs'.
  { subst s'. unfold destroy_coro. cbn [io_dq with_dq emit].
    rewrite Hc'. cbn [io_dq with_dq emit].
    assert (flags (deref (set_coro (death_queue_remove (io_dq s) (Conn c))
                            (Conn c) None) (Conn c))
            = flags (deref (io_dq s) (Conn c))) as ->
      by (rewrite <- Hf'; reads).
    rewrite Ha. done. }
  split_and!.
  - rewrite Hs'. unfold close. cbn [io_trace with_dq with_epoll emit].
    by rewrite <- app_assoc.
  - by rewrite Hs'.
  - by rewrite Hs'.
  - exact Hnc.
  - rewrite Hs'. unfold close. cbn [io_dq with_dq with_epoll emit]. reads.
  - exact Hna.
  - by apply (destroy_deadline s l1 c l2).
  - by apply destroy_repr.
  - intros i Hi.
    destruct (destroy_frame s (Conn c) Hv) as (_ & _ & _ & _ & _ & _ & Hm).
    rewrite Hm by congruence. apply remove_payload_any.
Qed.

(** X6.  [destroy_coro] on a linked connection that is alive and has
    coroutine [k]: the coroutine is freed and the descriptor closed, once
    each and in this order; the kernel forgets the descriptor; the slot
    loses its coroutine and its ALIVE flag and keeps every other flag and
    its deadline; it leaves the chain, and the other slots keep their flags,
    deadline and coroutine. *)
Theorem destroy_coro_releases s l1 c l2 k :
  dll_repr (io_dq s) (l1 ++ c :: l2) ->
  coro (deref (io_dq s) (Conn c)) = Some k ->
  flag_set (flags (deref (io_dq s) (Conn c))) CONN_IS_ALIVE = true ->
  let s' := destroy_coro s (Conn c) in
  io_trace s' = io_trace s ++ [CoroFree k; CloseFd c]
  /\ io_epoll s' = delete c (io_epoll s)
  /\ io_pending s' = io_pending s
  /\ coro (deref (io_dq s') (Conn c)) = None
  /\ flags (deref (io_dq s') (Conn c))
     = Z.land (flags (deref (io_dq s) (Conn c))) (Z.lnot CONN_IS_ALIVE)
  /\ flag_set (flags (deref (io_dq s') (Conn c))) CONN_IS_ALIVE = false
  /\ deadline (io_dq s') c = deadline (io_dq s) c
  /\ dll_repr (io_dq s') (l1 ++ l2)
  /\ (forall i, i <> c ->
        payload (deref (io_dq s') (Conn i))
        = payload (deref (io_dq s) (Conn i))).
Proof. apply destroy_coro_alive. Qed.

(** X7.  [destroy_coro] releases a connection at most once: called again on
    a slot it has already destroyed, it frees no coroutine, closes no
    descriptor and leaves the interest list alone. *)
Theorem destroy_coro_twice_is_silent s c :
  valid (io_dq s) (Conn c) ->
  let s1 := destroy_coro s (Conn c) in
  let s2 := destroy_coro s1 (Conn c) in
  io_trace s2 = io_trace s1
  /\ io_epoll s2 = io_epoll s1
  /\ coro (deref (io_dq s2) (Conn c)) = None
  /\ flag_set (flags (deref (io_dq s2) (Conn c))) CONN_IS_ALIVE = false.
Proof.
  intros Hv s1 s2.
  destruct (destroyed_payload s c Hv) as [Hnc Hna]. fold s1 in Hnc, Hna.
  assert (valid (io_dq s1) (Conn c)) as Hv1.
  { destruct (destroy_frame s (Conn c) Hv) as (Hlen & _).
    subst s1. cbn [valid] in *. by rewrite Hlen, length_remove. }
  destruct (destroyed_payload s1 c Hv1) as [Hnc2 Hna2]. fold s2 in Hnc2, Hna2.
  destruct (payload_inv _ _ (remove_payload_any (io_dq s1) (Conn c) (Conn c)))
    as (Hf & _ & Hco).
  split_and!; [| | done | done].
  - subst s2. unfold destroy_coro. cbn [io_dq with_dq].
    rewrite Hco, Hnc. cbn [io_dq with_dq]. by rewrite Hf, Hna.
  - subst s2. unfold destroy_coro. cbn [io_dq with_dq].
    rewrite Hco, Hnc. cbn [io_dq with_dq]. by rewrite Hf, Hna.
Qed.

(** Descriptor 1 of [worker_spawned] is destroyed twice. *)
Lemma destroy_coro_twice_is_silent_witness :
  valid (io_dq worker_spawned) (Conn 1)
  /\ io_trace (destroy_coro (destroy_coro worker_spawned (Conn 1)) (Conn 1))
     = io_trace (destroy_coro worker_spawned (Conn 1)).
Proof.
  assert (valid (io_dq worker_spawned) (Conn 1)) as Hv by by_evaluation.
  split; [exact Hv |].
  apply (destroy_coro_twice_is_silent worker_spawned 1%nat Hv).
Defined.

(** Descriptor 1 of [worker_spawned] is alive, linked and owns
    coroutine 7. *)
Lemma destroy_coro_releases_witness :
  dll_repr (io_dq worker_spawned) ([] ++ 1%nat :: [])
  /\ io_trace (destroy_coro worker_spawned (Conn 1))
     = io_trace worker_spawned ++ [CoroFree 7; CloseFd 1]
  /\ dll_repr (io_dq (destroy_coro worker_spawned (Conn 1))) [].
Proof.
  assert (dll_repr (io_dq worker_spawned) ([] ++ 1%nat :: [])) as H
    by by_evaluation.
  assert (coro (deref (io_dq worker_spawned) (Conn 1)) = Some 7%nat) as Hc
    by (vm_compute; reflexivity).
  assert (flag_set (flags (deref (io_dq worker_spawned) (Conn 1)))
            CONN_IS_ALIVE = true) as Ha by (vm_compute; reflexivity).
  split; [exact H |].
  destruct (destroy_coro_releases worker_spawned [] 1%nat [] 7%nat H Hc Ha)
    as (Ht & _ & _ & _ & _ & _ & _ & Hr & _).
  split; [exact Ht | exact Hr].
Defined.

Lemma kill_all_spec l : forall s fuel,
  dll_repr (io_dq s) l -> (length l < fuel)%nat ->
  let s' := foldl destroy_coro s (Conn <$> l) in
  death_queue_kill_all fuel s = Ret s'
  /\ dll_repr (io_dq s') []
  /\ time (io_dq s') = time (io_dq s)
  /\ (forall m, (forall i, i ∈ l -> m <> Conn i) ->
        payload (deref (io_dq s') m) = payload (deref (io_dq s) m))
  /\ (forall i, i ∈ l ->
        coro (deref (io_dq s') (Conn i)) = None
        /\ flag_set (flags (deref (io_dq s') (Conn i))) CONN_IS_ALIVE
           = false).
Proof.
  induction l as [|i l IH]; intros s fuel Hrepr Hfuel.
  - destruct fuel as [|fuel]; [simpl in Hfuel; lia |].
    destruct (repr_head _ _ Hrepr) as [Hn _].
    cbn [fmap list_fmap foldl death_queue_kill_all].
    unfold death_queue_empty. rewrite Hn. simpl. split_and!; try done.
    intros i Hi. by apply elem_of_nil in Hi.
  - destruct fuel as [|fuel]; [simpl in Hfuel; lia |].
    destruct (repr_head _ _ Hrepr) as [Hn _].
    cbn [fmap list_fmap foldl death_queue_kill_all].
    unfold death_queue_empty. rewrite Hn. cbn [hd_idx].
    destruct (Z.ltb_spec (Z.of_nat i) 0) as [|_]; [lia |].
    rewrite idx_to_node_conn.
    pose proof (destroy_repr s [] i l Hrepr) as Hrepr'. simpl in Hrepr'.
    assert (valid (io_dq s) (Conn i)) as Hv
      by (eapply repr_valid; [done | by left]).
    destruct (destroy_time s (Conn i) Hv) as [Ht _].
    destruct (destroyed_payload s i Hv) as [Hnc Hna].
    destruct (destroy_frame s (Conn i) Hv) as (_ & _ & _ & _ & _ & _ & Hm).
    assert (i ∉ l) as Hil.
    { destruct Hrepr as (Hnd & _). by apply NoDup_cons in Hnd as [? _]. }
    destruct (IH (destroy_coro s (Conn i)) fuel Hrepr')
      as (Hk & Hr & Ht' & Hpay & Hdead); [simpl in Hfuel; lia |].
    split_and!.
    + exact Hk.
    + exact Hr.
    + by rewrite Ht'.
    + intros m Hne. rewrite Hpay.
      * rewrite Hm by (apply Hne; by left). apply remove_payload_any.
      * intros j Hj. apply Hne. by right.
    + intros j Hj. apply list_elem_of_In in Hj. simpl in Hj.
      destruct Hj as [<- | Hj]; [|apply Hdead; by apply list_elem_of_In].
      destruct (payload_inv _ _ (Hpay (Conn i)
                  ltac:(intros j Hj [= ->]; done))) as (-> & _ & ->).
      by split.
Qed.

(** X8.  [death_queue_kill_all] terminates on a well-formed queue and
    destroys every linked connection, from the head on: afterwards the queue
    is empty, no formerly linked slot is alive or has a coroutine, slots that
    were not linked keep their flags, deadline and coroutine, and [dq.time]
    is unchanged. *)
Theorem kill_all_empties_queue s l fuel :
  dll_repr (io_dq s) l -> (length l < fuel)%nat ->
  exists s',
    death_queue_kill_all fuel s = Ret s'
    /\ s' = foldl destroy_coro s (Conn <$> l)
    /\ dll_repr (io_dq s') []
    /\ death_queue_empty (io_dq s') = true
    /\ time (io_dq s') = time (io_dq s)
    /\ (forall i, i ∈ l ->
          coro (deref (io_dq s') (Conn i)) = None
          /\ flag_set (flags (deref (io_dq s') (Conn i))) CONN_IS_ALIVE
             = false)
    /\ (forall i, i ∉ l ->
          payload (deref (io_dq s') (Conn i))
          = payload (deref (io_dq s) (Conn i))).
Proof.
  intros Hrepr Hfuel.
  destruct (kill_all_spec l s fuel Hrepr Hfuel) as (Hk & Hr & Ht & Hp & Hd).
  eexists. split; [exact Hk |]. split_and!; try done.
  - destruct (repr_head _ _ Hr) as [Hn _]. unfold death_queue_empty.
    by rewrite Hn.
  - intros i Hi. apply Hp. intros j Hj [= ->]. done.
Qed.

(** All three connections of [worker_123] are destroyed. *)
Lemma kill_all_empties_queue_witness :
  dll_repr (io_dq worker_123) [1; 2; 3]%nat
  /\ (length [1; 2; 3]%nat < 4)%nat
  /\ exists s',
       death_queue_kill_all 4 worker_123 = Ret s'
       /\ death_queue_empty (io_dq s') = true.
Proof.
  assert (dll_repr (io_dq worker_123) [1; 2; 3]%nat) as H by by_evaluation.
  assert (length [1; 2; 3]%nat < 4)%nat as Hf by (simpl; lia).
  split; [exact H |]. split; [exact Hf |].
  destruct (kill_all_empties_queue worker_123 [1; 2; 3]%nat 4 H Hf)
    as (s' & Hk & _ & _ & He & _).
  exists s'. split; [exact Hk | exact He].
Defined.

(** ** Spawning and resuming *)

Lemma spawn_coro_fresh s l c k :
  dll_repr (io_dq s) l -> c ∉ l -> valid (io_dq s) (Conn c) ->
  coro (deref (io_dq s) (Conn c)) = None ->
  flag_set (flags (deref (io_dq s) (Conn c))) CONN_IS_ALIVE = false ->
  flag_set (flags (deref (io_dq s) (Conn c))) CONN_SHOULD_RESUME_CORO
  = false ->
  exists s',
    spawn_coro (Some k) s (Conn c) = Ret s'
    /\ io_trace s' = io_trace s
    /\ io_epoll s' = io_epoll s
    /\ flags (deref (io_dq s') (Conn c))
       = Z.lor CONN_IS_ALIVE CONN_SHOULD_RESUME_CORO
    /\ armed (flags (deref (io_dq s') (Conn c))) = ArmRead
    /\ coro (deref (io_dq s') (Conn c)) = Some k
    /\ deadline (io_dq s') c
       = u32 (time (io_dq s) + keep_alive_timeout (io_dq s))
    /\ dll_repr (io_dq s') (l ++ [c])
    /\ (forall i, i <> c ->
          payload (deref (io_dq s') (Conn i))
          = payload (deref (io_dq s) (Conn i)))
    /\ time (io_dq s') = time (io_dq s)
    /\ keep_alive_timeout (io_dq s') = keep_alive_timeout (io_dq s)
    /\ length (conns (io_dq s')) = length (conns (io_dq s))
    /\ io_pending s' = io_pending s
    /\ (forall i, i ∉ l -> i <> c ->
          deref (io_dq s') (Conn i) = deref (io_dq s) (Conn i)).
Proof.
  intros Hrepr Hc Hv Hco Ha Hs.
  eexists. split.
  { unfold spawn_coro. rewrite Hco, Ha, Hs.
    rewrite bool_decide_eq_true_2 by done. cbn [negb andb]. reflexivity. }
  cbn [io_dq io_trace io_epoll with_dq].
  set (q := set_time_to_die _ _ _).
  assert (length (conns q) = length (conns (io_dq s))) as Hlen
    by (subst q; reads).
  assert (valid q (Conn c)) as Hvq by (cbn [valid] in *; by rewrite Hlen).
  assert (dll_repr q l) as Hq.
  { eapply repr_same_links; [exact Hlen | | | exact Hrepr];
      intros m; subst q; reads. }
  assert (forall m, payload (deref (death_queue_insert q (Conn c)) m)
                    = payload (deref q m)) as Hins
    by (intros m; by apply (insert_payload q l c)).
  split_and!; try done.
  - destruct (payload_inv _ _ (Hins (Conn c))) as (-> & _ & _).
    subst q. reads.
  - destruct (payload_inv _ _ (Hins (Conn c))) as (-> & _ & _).
    subst q. unfold set_time_to_die, set_flags, set_coro.
    rewrite !deref_assign by solve_valid. rewrite !decide_True by done.
    cbn [flags with_flags with_time_to_die]. reflexivity.
  - destruct (payload_inv _ _ (Hins (Conn c))) as (_ & _ & ->).
    subst q. reads.
  - unfold deadline.
    destruct (payload_inv _ _ (Hins (Conn c))) as (_ & -> & _).
    subst q. reads.
  - by apply insert_repr.
  - intros i Hi. rewrite Hins. subst q. reads.
  - rewrite time_insert. subst q. reads.
  - rewrite kat_insert. subst q. reads.
  - rewrite length_insert_dq. exact Hlen.
  - intros i Hi Hic.
    rewrite (insert_fresh_deref q l c Hq Hc Hvq). cbv zeta.
    rewrite decide_False by done.
    rewrite (decide_False (P := Conn i = Conn c)) by congruence.
    rewrite decide_False.
    2:{ intros E. symmetry in E. revert E. apply hd_ne.
        by rewrite elem_of_reverse. }
    subst q. reads.
Qed.

(** X9.  [spawn_coro] with a coroutine created, on a slot that is not linked
    and passes the three assertions: the flags of the slot become exactly
    ALIVE | SHOULD_RESUME (whatever other flags it carried are dropped, so
    WRITE_EVENTS is clear), its deadline is [dq.time + keep_alive_timeout]
    (unsigned 32-bit), it is appended at the tail of the queue, and nothing
    is logged, registered or closed. *)
Theorem spawn_coro_links_fresh_slot s l c k :
  dll_repr (io_dq s) l -> c ∉ l -> valid (io_dq s) (Conn c) ->
  coro (deref (io_dq s) (Conn c)) = None ->
  flag_set (flags (deref (io_dq s) (Conn c))) CONN_IS_ALIVE = false ->
  flag_set (flags (deref (io_dq s) (Conn c))) CONN_SHOULD_RESUME_CORO
  = false ->
  exists s',
    spawn_coro (Some k) s (Conn c) = Ret s'
    /\ io_trace s' = io_trace s
    /\ io_epoll s' = io_epoll s
    /\ flags (deref (io_dq s') (Conn c))
       = Z.lor CONN_IS_ALIVE CONN_SHOULD_RESUME_CORO
    /\ armed (flags (deref (io_dq s') (Conn c))) = ArmRead
    /\ coro (deref (io_dq s') (Conn c)) = Some k
    /\ deadline (io_dq s') c
       = u32 (time (io_dq s) + keep_alive_timeout (io_dq s))
    /\ dll_repr (io_dq s') (l ++ [c])
    /\ (forall i, i <> c ->
          payload (deref (io_dq s') (Conn i))
          = payload (deref (io_dq s) (Conn i)))
    /\ time (io_dq s') = time (io_dq s).
Proof.
  intros Hrepr Hc Hv Hco Ha Hs.
  destruct (spawn_coro_fresh s l c k Hrepr Hc Hv Hco Ha Hs)
    as (s' & H1 & H2 & H3 & H4 & H5 & H6 & H7 & H8 & H9 & H10 & _).
  exists s'. by split_and!.
Qed.

(** Slot 3 of [worker_spawned] is fresh; it is linked behind slot 1. *)
Lemma spawn_coro_links_fresh_slot_witness :
  dll_repr (io_dq worker_spawned) [1%nat]
  /\ exists s',
       spawn_coro (Some 9%nat) worker_spawned (Conn 3) = Ret s'
       /\ dll_repr (io_dq s') [1; 3]%nat
       /\ deadline (io_dq s') 3 = 15.
Proof.
  assert (dll_repr (io_dq worker_spawned) [1%nat]) as H by by_evaluation.
  split; [exact H |].
  destruct (spawn_coro_links_fresh_slot worker_spawned [1%nat] 3%nat 9%nat H)
    as (s' & Hr & _ & _ & _ & _ & _ & Hd & Hq & _);
    [by_evaluation | by_evaluation | vm_compute; reflexivity
     | vm_compute; reflexivity | vm_compute; reflexivity |].
  exists s'. split; [exact Hr |]. split; [exact Hq | exact Hd].
Defined.

(** X10.  A resume whose coroutine yields ABORT while its connection is
    linked and alive destroys the connection and returns at once: after the
    coroutine ran it is freed and the descriptor closed, no
    [EPOLL_CTL_MOD] is issued, the kernel forgets the descriptor, and the
    slot leaves the chain without coroutine and without ALIVE. *)
Theorem resume_abort_destroys s l1 c l2 k r ok :
  dll_repr (io_dq s) (l1 ++ c :: l2) ->
  coro (deref (io_dq s) (Conn c)) = Some k ->
  flag_set (flags (deref (io_dq s) (Conn c))) CONN_SHOULD_RESUME_CORO = true ->
  yield_result r < CONN_CORO_MAY_RESUME ->
  flag_set (on_flags r (flags (deref (io_dq s) (Conn c)))) CONN_IS_ALIVE
  = true ->
  exists s',
    resume_coro_if_needed r ok s (Conn c) = Ret s'
    /\ io_trace s' = io_trace s ++ [CoroResume k; CoroFree k; CloseFd c]
    /\ mod_calls (io_trace s') = mod_calls (io_trace s)
    /\ io_epoll s' = delete c (io_epoll s)
    /\ dll_repr (io_dq s') (l1 ++ l2)
    /\ coro (deref (io_dq s') (Conn c)) = None
    /\ flag_set (flags (deref (io_dq s') (Conn c))) CONN_IS_ALIVE = false.
Proof.
  intros Hrepr Hc Hs Hy Ha.
  destruct (repr_not_in _ _ _ _ Hrepr) as [_ Hv].
  set (f := on_flags r (flags (deref (io_dq s) (Conn c)))) in *.
  set (s1 := with_dq (emit s (CoroResume k))
               (set_flags (io_dq s) (Conn c) f)).
  assert (resume_coro_if_needed r ok s (Conn c)
          = Ret (destroy_coro s1 (Conn c))) as Hr.
  { unfold resume_coro_if_needed, coro_resume. rewrite Hc, Hs. cbn [negb].
    destruct (Z.ltb_spec (yield_result r) CONN_CORO_MAY_RESUME); [done | lia]. }
  assert (dll_repr (io_dq s1) (l1 ++ c :: l2)) as Hrepr1.
  { subst s1. cbn [io_dq with_dq].
    eapply repr_same_links; [| | | exact Hrepr]; intros; reads. }
  assert (coro (deref (io_dq s1) (Conn c)) = Some k) as Hc1
    by (subst s1; cbn [io_dq with_dq]; reads).
  assert (flags (deref (io_dq s1) (Conn c)) = f) as Hf1
    by (subst s1; cbn [io_dq with_dq]; reads).
  assert (flag_set (flags (deref (io_dq s1) (Conn c))) CONN_IS_ALIVE = true)
    as Ha1 by (by rewrite Hf1).
  destruct (destroy_coro_alive s1 l1 c l2 k Hrepr1 Hc1 Ha1)
    as (Ht & He & _ & Hnc & _ & Hna & _ & Hr' & _).
  exists (destroy_coro s1 (Conn c)). split; [exact Hr |].
  split_and!; try done.
  - rewrite Ht. subst s1. cbn [io_trace with_dq emit].
    by rewrite <- app_assoc.
  - rewrite Ht. subst s1. cbn [io_trace with_dq emit].
    rewrite !mod_calls_app. cbn [mod_calls omap list_omap].
    by rewrite !app_nil_r.
Qed.

(** The first resume of descriptor 1 in [worker_spawned] aborts. *)
Lemma resume_abort_destroys_witness :
  dll_repr (io_dq worker_spawned) ([] ++ 1%nat :: [])
  /\ exists s',
       resume_coro_if_needed run_abort true worker_spawned (Conn 1) = Ret s'
       /\ io_trace s'
          = io_trace worker_spawned ++ [CoroResume 7; CoroFree 7; CloseFd 1]
       /\ dll_repr (io_dq s') [].
Proof.
  assert (dll_repr (io_dq worker_spawned) ([] ++ 1%nat :: [])) as H
    by by_evaluation.
  split; [exact H |].
  destruct (resume_abort_destroys worker_spawned [] 1%nat [] 7%nat
              run_abort true H)
    as (s' & Hr & Ht & _ & _ & Hq & _);
    [vm_compute; reflexivity | vm_compute; reflexivity
     | vm_compute; reflexivity | vm_compute; reflexivity |].
  exists s'. split; [exact Hr |]. split; [exact Ht | exact Hq].
Defined.

Lemma rearm_epoll w s c ev :
  io_epoll s !! c = Some ev ->
  io_epoll (rearm true w s (Conn c))
  = <[c := mk_event (nth (Nat.b2n w) events_by_write_flag 0) (Some (Conn c))]>
      (io_epoll s).
Proof.
  intros He. unfold rearm, epoll_ctl_mod. cbn [lwan_connection_get_fd].
  cbn [io_epoll emit]. rewrite He.
  rewrite bool_decide_eq_true_2 by eauto. done.
Qed.

(** X11.  When MUST_READ is clear after the coroutine ran, the recorded
    direction and the kernel registration stay in step: if they agree when
    the coroutine yields and [epoll_ctl] succeeds, then after
    [resume_coro_if_needed] they agree again, and both are the target
    direction (write after a MAY_RESUME yield, read otherwise).  Other
    registrations are not touched. *)
Theorem resume_keeps_direction_in_step s c k r ev :
  valid (io_dq s) (Conn c) ->
  coro (deref (io_dq s) (Conn c)) = Some k ->
  flag_set (flags (deref (io_dq s) (Conn c))) CONN_SHOULD_RESUME_CORO = true ->
  CONN_CORO_MAY_RESUME <= yield_result r ->
  let f := on_flags r (flags (deref (io_dq s) (Conn c))) in
  flag_set f CONN_MUST_READ = false ->
  io_epoll s !! c = Some ev ->
  arm_of_events (events ev) = armed f ->
  exists s' ev',
    resume_coro_if_needed r true s (Conn c) = Ret s'
    /\ io_epoll s' !! c = Some ev'
    /\ arm_of_events (events ev') = code_target (yield_result r)
    /\ armed (flags (deref (io_dq s') (Conn c)))
       = code_target (yield_result r)
    /\ (forall fd, fd <> c -> io_epoll s' !! fd = io_epoll s !! fd).
Proof.
  intros Hv Hc Hs Hy f Hmr He Hagree.
  rewrite (resume_unfold s c k r true Hc Hs Hy). cbv zeta. fold f.
  set (s1 := with_dq (emit s (CoroResume k))
               (set_flags (io_dq s) (Conn c) f)).
  assert (flags (deref (io_dq s1) (Conn c)) = f) as Hf
    by (subst s1; cbn [io_dq with_dq]; reads).
  rewrite !Hf, Hmr.
  set (f' := if yield_result r =? CONN_CORO_MAY_RESUME
             then Z.lor f CONN_SHOULD_RESUME_CORO
             else Z.land f (Z.lnot CONN_SHOULD_RESUME_CORO)).
  assert (armed f' = armed f) as Ha'
    by (subst f'; destruct (_ =? _);
        [apply armed_set_resume | apply armed_clear_resume]).
  set (s2 := with_dq s1 (set_flags (io_dq s1) (Conn c) f')).
  assert (valid (io_dq s2) (Conn c)) as Hv2
    by (subst s2 s1; cbn [io_dq with_dq]; unfold_sets; solve_valid).
  assert (flags (deref (io_dq s2) (Conn c)) = f') as Hf2
    by (subst s2 s1; cbn [io_dq with_dq]; reads).
  assert (io_epoll s2 !! c = Some ev) as He2 by done.
  unfold code_target. unfold armed in Ha', Hagree.
  destruct (yield_result r =? CONN_CORO_MAY_RESUME) eqn:Ey;
    destruct (flag_set f' CONN_WRITE_EVENTS) eqn:Ew; cbn [eqb].
  - exists s2, ev. rewrite Hf2. unfold armed. rewrite Ew.
    split_and!; try done. by rewrite Hagree, <- Ha'.
  - destruct (rearm_spec true false s2 c Hv2) as [_ Hd].
    eexists. eexists. split; [reflexivity |].
    rewrite (rearm_epoll false s2 c ev He2), Hd, Hf2.
    split_and!.
    + apply lookup_insert_eq.
    + done.
    + unfold set_flags. rewrite deref_assign by done.
      rewrite decide_True by done. cbn [flags with_flags].
      rewrite armed_toggle. unfold armed. by rewrite Ew.
    + intros fd Hfd. by rewrite lookup_insert_ne.
  - destruct (rearm_spec true true s2 c Hv2) as [_ Hd].
    eexists. eexists. split; [reflexivity |].
    rewrite (rearm_epoll true s2 c ev He2), Hd, Hf2.
    split_and!.
    + apply lookup_insert_eq.
    + done.
    + unfold set_flags. rewrite deref_assign by done.
      rewrite decide_True by done. cbn [flags with_flags].
      rewrite armed_toggle. unfold armed. by rewrite Ew.
    + intros fd Hfd. by rewrite lookup_insert_ne.
  - exists s2, ev. rewrite Hf2. unfold armed. rewrite Ew.
    split_and!; try done. by rewrite Hagree, <- Ha'.
Qed.

(** Descriptor 1 of [worker_spawned] is registered for reading with
    WRITE_EVENTS clear; it serves a request and yields MAY_RESUME. *)
Lemma resume_keeps_direction_in_step_witness :
  exists s' ev',
    resume_coro_if_needed run_served true worker_spawned (Conn 1) = Ret s'
    /\ io_epoll s' !! 1%nat = Some ev'
    /\ arm_of_events (events ev') = ArmWrite
    /\ armed (flags (deref (io_dq s') (Conn 1))) = ArmWrite.
Proof.
  destruct (resume_keeps_direction_in_step worker_spawned 1%nat 7%nat
              run_served (mk_event (events_for ArmRead) None))
    as (s' & ev' & Hr & He & Hk & Hf & _);
    [by_evaluation | vm_compute; reflexivity | vm_compute; reflexivity
     | vm_compute; discriminate | vm_compute; reflexivity
     | vm_compute; reflexivity | vm_compute; reflexivity |].
  exists s', ev'. split; [exact Hr |]. split; [exact He |].
  split; [exact Hk | exact Hf].
Defined.

(** ** Linked slots stay alive *)

Lemma alive_chain_payload dq dq' l l' :
  dll_repr dq' l' -> (forall i, i ∈ l' -> i ∈ l) ->
  (forall i, i ∈ l' ->
     payload (deref dq' (Conn i)) = payload (deref dq (Conn i))) ->
  alive_chain dq l -> alive_chain dq' l'.
Proof.
  intros Hrepr' Hsub Hpay [_ Hal]. split; [done |].
  intros i Hi. destruct (payload_inv _ _ (Hpay i Hi)) as (-> & _ & ->).
  apply Hal. by apply Hsub.
Qed.

Lemma alive_chain_destroy s l c :
  alive_chain (io_dq s) l -> c ∈ l ->
  exists l', alive_chain (io_dq (destroy_coro s (Conn c))) l'.
Proof.
  intros Hal Hc. pose proof Hal as [Hrepr _].
  apply list_elem_of_split in Hc as (l1 & l2 & ->).
  destruct (repr_not_in _ _ _ _ Hrepr) as [Hnc Hv].
  exists (l1 ++ l2).
  eapply alive_chain_payload; [by apply destroy_repr | | | exact Hal].
  - intros i Hi. apply elem_of_app in Hi as [?|?]; apply elem_of_app;
      [by left | right; by right].
  - intros i Hi.
    destruct (destroy_frame s (Conn c) Hv) as (_ & _ & _ & _ & _ & _ & Hm).
    rewrite Hm by (intros [= ->]; done). apply remove_payload_any.
Qed.

Lemma alive_chain_set_flags dq l c f :
  valid dq (Conn c) ->
  flag_set f CONN_IS_ALIVE = flag_set (flags (deref dq (Conn c))) CONN_IS_ALIVE ->
  alive_chain dq l -> alive_chain (set_flags dq (Conn c) f) l.
Proof.
  intros Hv Hf [Hrepr Hal]. split.
  - eapply repr_same_links; [| | | exact Hrepr]; intros; reads.
  - intros i Hi. destruct (Hal i Hi) as [Ha Hc].
    destruct (decide (i = c)) as [->|Hne].
    + unfold set_flags. rewrite deref_assign by done.
      rewrite decide_True by done. cbn [flags coro with_flags].
      by rewrite Hf.
    + unfold set_flags. rewrite deref_assign by done.
      rewrite decide_False by congruence. done.
Qed.

(** A resume by a coroutine that keeps ALIVE either rewrites the flags of
    the connection, ALIVE excepted, or does so and destroys it. *)
Lemma resume_cases_alive s c r ok s' :
  valid (io_dq s) (Conn c) -> keeps_alive r ->
  resume_coro_if_needed r ok s (Conn c) = Ret s' ->
  (exists f, io_dq s' = set_flags (io_dq s) (Conn c) f
             /\ flag_set f CONN_IS_ALIVE
                = flag_set (flags (deref (io_dq s) (Conn c))) CONN_IS_ALIVE)
  \/ (yield_result r < CONN_CORO_MAY_RESUME
      /\ exists s1 f,
           io_dq s1 = set_flags (io_dq s) (Conn c) f
           /\ flag_set f CONN_IS_ALIVE
              = flag_set (flags (deref (io_dq s) (Conn c))) CONN_IS_ALIVE
           /\ s' = destroy_coro s1 (Conn c)).
Proof.
  intros Hv Hka Hr. unfold resume_coro_if_needed in Hr.
  destruct (coro (deref (io_dq s) (Conn c))) as [k|] eqn:Ec; [|discriminate].
  destruct (negb _).
  { injection Hr as <-. left. eexists. by rewrite set_flags_same. }
  unfold coro_resume in Hr. rewrite Ec in Hr.
  change (io_dq (emit s (CoroResume k))) with (io_dq s) in Hr.
  set (f0 := flags (deref (io_dq s) (Conn c))) in *.
  set (f := on_flags r f0) in *.
  assert (flag_set f CONN_IS_ALIVE = flag_set f0 CONN_IS_ALIVE) as Hfa
    by apply Hka.
  set (s1 := with_dq (emit s (CoroResume k))
               (set_flags (io_dq s) (Conn c) f)) in *.
  assert (io_dq s1 = set_flags (io_dq s) (Conn c) f) as Hs1 by done.
  assert (valid (io_dq s1) (Conn c)) as Hv1
    by (rewrite Hs1; unfold_sets; solve_valid).
  assert (flags (deref (io_dq s1) (Conn c)) = f) as Hf1
    by (rewrite Hs1; reads).
  cbn [fst snd] in Hr.
  destruct (Z.ltb_spec (yield_result r) CONN_CORO_MAY_RESUME).
  { injection Hr as <-. right. split; [done |]. by exists s1, f. }
  left. rewrite Hf1 in Hr. destruct (flag_set f CONN_MUST_READ).
  { injection Hr as <-. destruct (rearm_spec ok true s1 c Hv1) as [_ ->].
    rewrite Hf1, Hs1. eexists. rewrite set_flags_twice by done.
    split; [reflexivity |]. rewrite <- Hfa. by flag_bits. }
  set (f' := if yield_result r =? CONN_CORO_MAY_RESUME then _ else _) in *.
  assert (flag_set f' CONN_IS_ALIVE = flag_set f0 CONN_IS_ALIVE) as Hfa'.
  { rewrite <- Hfa. subst f'. destruct (_ =? _); by flag_bits. }
  set (s2 := with_dq s1 (set_flags (io_dq s1) (Conn c) f')) in *.
  assert (io_dq s2 = set_flags (io_dq s) (Conn c) f') as Hs2
    by (subst s2; cbn [io_dq with_dq]; rewrite Hs1;
        by rewrite set_flags_twice).
  assert (valid (io_dq s2) (Conn c)) as Hv2
    by (rewrite Hs2; unfold_sets; solve_valid).
  assert (flags (deref (io_dq s2) (Conn c)) = f') as Hf2
    by (rewrite Hs2; reads).
  destruct (eqb _ _).
  { injection Hr as <-. by exists f'. }
  injection Hr as <-.
  destruct (rearm_spec ok (flag_set f' CONN_WRITE_EVENTS) s2 c Hv2)
    as [_ ->].
  rewrite Hf2, Hs2. eexists. rewrite set_flags_twice by done.
  split; [reflexivity |]. rewrite <- Hfa'. by flag_bits.
Qed.

Lemma alive_chain_spawn s l k i s' :
  alive_chain (io_dq s) l -> valid (io_dq s) (Conn i) -> i ∉ l ->
  spawn_coro (Some k) s (Conn i) = Ret s' ->
  alive_chain (io_dq s') (l ++ [i]).
Proof.
  intros [Hrepr Hal] Hv Hi Hspawn. unfold spawn_coro in Hspawn.
  destruct (_ && _); [|discriminate]. injection Hspawn as <-.
  cbn [io_dq with_dq]. set (q := set_time_to_die _ _ _).
  assert (length (conns q) = length (conns (io_dq s))) as Hlen
    by (subst q; reads).
  assert (valid q (Conn i)) as Hvq by (cbn [valid] in *; by rewrite Hlen).
  assert (dll_repr q l) as Hq.
  { eapply repr_same_links; [exact Hlen | | | exact Hrepr];
      intros m; subst q; reads. }
  assert (forall m, payload (deref (death_queue_insert q (Conn i)) m)
                    = payload (deref q m)) as Hins
    by (intros m; by apply (insert_payload q l i)).
  split; [by apply insert_repr |].
  intros j Hj. destruct (payload_inv _ _ (Hins (Conn j))) as (-> & _ & ->).
  apply elem_of_app in Hj as [Hj | Hj].
  - assert (j <> i) as Hne by (by intros ->).
    destruct (Hal j Hj) as [Ha Hc]. subst q. split; reads.
  - apply list_elem_of_singleton in Hj as ->. subst q.
    unfold set_time_to_die, set_flags, set_coro.
    rewrite !deref_assign by solve_valid. rewrite !decide_True by done.
    cbn [flags coro with_flags with_time_to_die with_coro]. by split.
Qed.

Lemma alive_chain_move dq l1 c l2 :
  alive_chain dq (l1 ++ c :: l2) ->
  alive_chain (death_queue_move_to_last dq (Conn c)) (l1 ++ l2 ++ [c]).
Proof.
  intros [Hrepr Hal].
  destruct (move_to_last_linked dq l1 c l2 Hrepr)
    as (_ & Hrepr' & _ & _ & Hf & Hc & Hpay & _).
  split; [done |]. intros i Hi.
  assert (i ∈ l1 ++ c :: l2) as Hi'.
  { rewrite !elem_of_app in Hi. rewrite list_elem_of_singleton in Hi.
    rewrite elem_of_app, elem_of_cons. tauto. }
  destruct (decide (i = c)) as [->|Hne].
  - rewrite Hf, Hc. by apply Hal.
  - destruct (payload_inv _ _ (Hpay i Hne)) as (-> & _ & ->). by apply Hal.
Qed.

Lemma evicted_payload t l : forall s m,
  dll_repr (io_dq s) l ->
  (forall i, i ∈ expired (io_dq s) t l -> m <> Conn i) ->
  payload (deref (io_dq (foldl destroy_coro s
                           (Conn <$> expired (io_dq s) t l))) m)
  = payload (deref (io_dq s) m).
Proof.
  induction l as [|i l IH]; intros s m Hrepr Hm; cbn [expired] in *.
  - done.
  - destruct (deadline (io_dq s) i >? t); [done |].
    pose proof (destroy_repr s [] i l Hrepr) as Hrepr'. simpl in Hrepr'.
    assert (valid (io_dq s) (Conn i)) as Hv
      by (eapply repr_valid; [done | by left]).
    destruct (expired_ext (io_dq s) (io_dq (destroy_coro s (Conn i))) t l)
      as [He _].
    { intros j _. by apply (destroy_deadline s [] i l). }
    cbn [fmap list_fmap foldl]. rewrite <- He. rewrite IH; [| done |].
    + destruct (destroy_frame s (Conn i) Hv) as (_ & _ & _ & _ & _ & _ & Hd).
      rewrite Hd by (apply Hm; by left). apply remove_payload_any.
    + intros j Hj. apply Hm. right. by rewrite <- He.
Qed.

Lemma alive_chain_kill s l fuel s' :
  alive_chain (io_dq s) l ->
  death_queue_kill_waiting fuel s = Ret s' ->
  exists l', alive_chain (io_dq s') l'.
Proof.
  intros Hal Hk. pose proof Hal as [Hrepr _].
  unfold death_queue_kill_waiting in Hk.
  set (t := u32 (time (io_dq s) + 1)) in *.
  set (ticked := with_dq s (set_time (io_dq s) t)) in *.
  assert (dll_repr (io_dq ticked) l) as Hrepr'.
  { eapply repr_same_links; [| | | exact Hrepr]; done. }
  apply (kill_waiting_loop_mono _ _ _ (fuel + S (length l))) in Hk; [|lia].
  destruct (kill_waiting_loop_spec l ticked (fuel + S (length l)) Hrepr')
    as [Hk' Hr]; [lia |].
  rewrite Hk' in Hk. injection Hk as <-.
  change (time (io_dq ticked)) with t in *.
  exists (waiting (io_dq ticked) t l).
  pose proof (expired_waiting (io_dq ticked) t l) as Hsplit.
  assert (forall i, i ∈ waiting (io_dq ticked) t l ->
            i ∈ l /\ i ∉ expired (io_dq ticked) t l) as Hrest.
  { intros i Hi. split.
    - rewrite <- Hsplit. apply elem_of_app. by right.
    - destruct Hrepr as (Hnd & _). rewrite <- Hsplit in Hnd.
      apply NoDup_app in Hnd as (_ & Hdisj & _). intros Hx.
      by apply (Hdisj i). }
  eapply alive_chain_payload; [exact Hr | apply Hrest | | exact Hal].
  intros i Hi.
  assert (payload (deref (io_dq (evicted ticked t l)) (Conn i))
          = payload (deref (io_dq (foldl destroy_coro ticked
                       (Conn <$> expired (io_dq ticked) t l))) (Conn i)))
    as ->.
  { unfold evicted. by destruct (waiting (io_dq ticked) t l). }
  rewrite evicted_payload; [done | done |].
  intros j Hj [= ->]. by apply (Hrest j).
Qed.

(** X12.  As long as no resume on the event path aborts and coroutines leave
    the ALIVE flag alone, P1 holds: in every such state the death queue is a
    well-formed chain and each linked slot is alive and has a coroutine.
    Spawning, first resumes (aborting or not), resume and re-seat, hangup
    and timeout eviction all keep it. *)
Theorem served_keeps_linked_alive s :
  served s -> (exists l, dll_repr (io_dq s) l) /\ P1 (io_dq s).
Proof.
  intros Hs.
  assert (exists l, alive_chain (io_dq s) l) as [l [Hrepr Hal]].
  { induction Hs as [slots kat pipe_fd | s k i s' _ [l IH] Hv Hl Hsp
                    | s r ok i s' _ [l IH] Hl Hka Hr
                    | s r ok i s' _ [l IH] Hl Hka Hy Hr
                    | s i _ [l IH] Hl | s fuel s' _ [l IH] Hk].
    - exists []. split; [apply init_repr |].
      intros i Hi. by apply elem_of_nil in Hi.
    - exists (l ++ [i]). eapply alive_chain_spawn; [done.. | | done].
      intros Hi. apply Hl. exists l. split; [apply IH | done].
    - pose proof IH as [Hrepr _].
      apply (linked_iff _ l) in Hl; [|done].
      assert (valid (io_dq s) (Conn i)) as Hv by (by eapply repr_valid).
      destruct (resume_cases_alive s i r ok s' Hv Hka Hr)
        as [(f & -> & Hf) | (_ & s1 & f & Hq & Hf & ->)].
      + exists l. by apply alive_chain_set_flags.
      + apply (alive_chain_destroy s1 l i); [|done].
        rewrite Hq. by apply alive_chain_set_flags.
    - pose proof IH as [Hrepr _].
      apply (linked_iff _ l) in Hl; [|done].
      assert (valid (io_dq s) (Conn i)) as Hv by (by eapply repr_valid).
      destruct (resume_cases_alive s i r ok s' Hv Hka Hr)
        as [(f & Hq & Hf) | (? & _)]; [|lia].
      apply list_elem_of_split in Hl as (l1 & l2 & ->).
      exists (l1 ++ l2 ++ [i]). cbn [io_dq with_dq]. rewrite Hq.
      apply alive_chain_move. by apply alive_chain_set_flags.
    - pose proof IH as [Hrepr _].
      apply (linked_iff _ l) in Hl; [|done].
      by apply (alive_chain_destroy s l i).
    - by apply (alive_chain_kill s l fuel s'). }
  split; [by exists l |].
  intros i Hi. apply (linked_iff _ l) in Hi; [|done]. by apply Hal.
Qed.

(** [worker_reseated] is reached without an abort. *)
Lemma served_keeps_linked_alive_witness :
  served worker_reseated /\ P1 (io_dq worker_reseated).
Proof.
  pose (s1 := state_of (spawn_coro (Some 7%nat) worker_idle (Conn 1))
                worker_idle).
  pose (s2 := state_of (spawn_coro (Some 8%nat) s1 (Conn 2)) worker_idle).
  pose (s3 := state_of (resume_coro_if_needed run_served true s2 (Conn 1))
                worker_idle).
  assert (served s1) as Hs1.
  { apply (served_spawn worker_idle 7%nat 1%nat s1).
    - apply served_init.
    - by_evaluation.
    - intros Hl. apply (linked_iff _ []) in Hl; [|by_evaluation].
      by apply elem_of_nil in Hl.
    - vm_compute. reflexivity. }
  assert (served s2) as Hs2.
  { apply (served_spawn s1 8%nat 2%nat s2); [exact Hs1 | ..].
    - by_evaluation.
    - intros Hl. apply (linked_iff _ [1%nat]) in Hl; [|by_evaluation].
      apply list_elem_of_In in Hl. simpl in Hl.
      destruct Hl as [? | []]. discriminate.
    - vm_compute. reflexivity. }
  assert (served worker_reseated) as Hs.
  { change worker_reseated
      with (with_dq s3 (death_queue_move_to_last (io_dq s3) (Conn 1))).
    apply (served_event s2 run_served true 1%nat s3); [exact Hs2 | ..].
    - apply (linked_iff _ [1; 2]%nat); [by_evaluation |]. by left.
    - intros f. reflexivity.
    - vm_compute. discriminate.
    - vm_compute. reflexivity. }
  split; [exact Hs |].
  apply (served_keeps_linked_alive worker_reseated Hs).
Defined.

(** ** Handing descriptors off *)

Lemma rearm_io_frame ok w s c :
  io_pending (rearm ok w s (Conn c)) = io_pending s
  /\ (forall fd, fd <> c ->
        io_epoll (rearm ok w s (Conn c)) !! fd = io_epoll s !! fd)
  /\ (is_Some (io_epoll s !! c) ->
      is_Some (io_epoll (rearm ok w s (Conn c)) !! c)).
Proof.
  unfold rearm, epoll_ctl_mod. cbn [lwan_connection_get_fd].
  destruct (ok && bool_decide (is_Some (io_epoll s !! c)));
    cbn [io_pending io_epoll with_dq with_epoll emit]; split_and!; try done.
  - intros fd Hfd. by rewrite lookup_insert_ne.
  - intros _. rewrite lookup_insert_eq. eauto.
Qed.

(** What a resume that does not abort leaves alone. *)
Lemma resume_io_frame s c r ok s' :
  CONN_CORO_MAY_RESUME <= yield_result r ->
  resume_coro_if_needed r ok s (Conn c) = Ret s' ->
  io_pending s' = io_pending s
  /\ (forall fd, fd <> c -> io_epoll s' !! fd = io_epoll s !! fd)
  /\ (is_Some (io_epoll s !! c) -> is_Some (io_epoll s' !! c)).
Proof.
  intros Hy Hr. unfold resume_coro_if_needed in Hr.
  destruct (coro (deref (io_dq s) (Conn c))) as [k|] eqn:Ec; [|discriminate].
  destruct (negb _).
  { injection Hr as <-. by split_and!. }
  unfold coro_resume in Hr. rewrite Ec in Hr.
  destruct (Z.ltb_spec (yield_result r) CONN_CORO_MAY_RESUME); [lia |].
  set (s1 := with_dq (emit s (CoroResume k)) _) in *.
  destruct (flag_set _ CONN_MUST_READ).
  { injection Hr as <-. apply (rearm_io_frame ok true s1 c). }
  set (s2 := with_dq s1 _) in *.
  destruct (eqb _ _).
  { injection Hr as <-. by split_and!. }
  injection Hr as <-. apply (rearm_io_frame ok _ s2 c).
Qed.

Lemma add_clients_frame fds : forall s,
  let s' := foldl lwan_thread_add_client s fds in
  io_pending s' = io_pending s ++ fds
  /\ io_epoll s' = io_epoll s
  /\ io_trace s' = io_trace s
  /\ length (conns (io_dq s')) = length (conns (io_dq s))
  /\ time (io_dq s') = time (io_dq s)
  /\ keep_alive_timeout (io_dq s') = keep_alive_timeout (io_dq s)
  /\ head (io_dq s') = head (io_dq s)
  /\ (forall i, i ∉ fds ->
        deref (io_dq s') (Conn i) = deref (io_dq s) (Conn i))
  /\ (forall i, i ∈ fds -> valid (io_dq s) (Conn i) ->
        deref (io_dq s') (Conn i) = zero_conn).
Proof.
  induction fds as [|fd fds IH]; intros s; cbn [foldl].
  - cbv zeta. rewrite app_nil_r. split_and!; try done.
    intros i Hi. by apply elem_of_nil in Hi.
  - destruct (IH (lwan_thread_add_client s fd))
      as (Hp & He & Ht & Hl & Hti & Hk & Hh & Hout & Hin).
    cbv zeta. rewrite Hp, He, Ht, Hl, Hti, Hk, Hh.
    unfold lwan_thread_add_client at 1 2 3 4 5 6 7.
    cbn [io_pending io_epoll io_trace io_dq with_dq with_pending].
    rewrite length_assign, time_assign, kat_assign, <- app_assoc.
    split_and!; try done.
    + intros i Hi. rewrite Hout by (intros ?; apply Hi; by right).
      unfold lwan_thread_add_client. cbn [io_dq with_dq with_pending].
      destruct (decide (fd < length (conns (io_dq s)))%nat) as [Hv|Hv].
      * rewrite deref_assign by done. rewrite decide_False; [done |].
        intros [= ->]. apply Hi. by left.
      * unfold assign. rewrite list_insert_ge by lia. by destruct (io_dq s).
    + intros i Hi Hv. destruct (decide (i ∈ fds)) as [Hin'|Hout'].
      * apply Hin; [done |]. unfold lwan_thread_add_client.
        cbn [io_dq with_dq with_pending valid] in *.
        by rewrite length_assign.
      * rewrite Hout by done. apply elem_of_cons in Hi as [-> | ?]; [|done].
        unfold lwan_thread_add_client. cbn [io_dq with_dq with_pending].
        rewrite deref_assign by done. by rewrite decide_True.
Qed.

Lemma accept_loop_links env fds : forall s l,
  dll_repr (io_dq s) l -> NoDup fds ->
  (forall fd, fd ∈ fds ->
     fd <> O /\ valid (io_dq s) (Conn fd) /\ (fd ∉ l)
     /\ io_epoll s !! fd = None
     /\ deref (io_dq s) (Conn fd) = zero_conn
     /\ hands_off env fd) ->
  exists s',
    accept_loop env fds s = Ret s'
    /\ dll_repr (io_dq s') (l ++ fds)
    /\ io_pending s' = []
    /\ time (io_dq s') = time (io_dq s)
    /\ keep_alive_timeout (io_dq s') = keep_alive_timeout (io_dq s)
    /\ length (conns (io_dq s')) = length (conns (io_dq s))
    /\ (forall i, i ∉ fds ->
          payload (deref (io_dq s') (Conn i))
          = payload (deref (io_dq s) (Conn i)))
    /\ (forall fd, fd ∉ fds -> io_epoll s' !! fd = io_epoll s !! fd)
    /\ (forall fd, fd ∈ fds ->
          is_Some (io_epoll s' !! fd)
          /\ coro (deref (io_dq s') (Conn fd)) = created (env fd)
          /\ flag_set (flags (deref (io_dq s') (Conn fd))) CONN_IS_ALIVE
             = true
          /\ deadline (io_dq s') fd
             = u32 (time (io_dq s) + keep_alive_timeout (io_dq s))).
Proof.
  induction fds as [|fd rest IH]; intros s l Hrepr Hnd Hall.
  - exists (with_pending s []). cbn [accept_loop]. rewrite app_nil_r.
    split_and!; try done. intros fd Hfd. by apply elem_of_nil in Hfd.
  - apply NoDup_cons in Hnd as [Hfr Hnd].
    destruct (Hall fd ltac:(by left))
      as (Hnz & Hv & Hfl & Hne & Hz & Hok & [k Hk] & Hy & Hka).
    cbn [accept_loop]. rewrite bool_decide_eq_false_2 by done.
    set (sp := with_pending s rest).
    set (ev := mk_event (nth 1%nat events_by_write_flag 0) None).
    set (sa := with_epoll (emit sp (EpollCtlAdd fd ev true))
                 (<[fd := ev]> (io_epoll sp))).
    assert (accept_one (env fd) sp fd
            = s1 ← spawn_coro (created (env fd)) sa (Conn fd);
              resume_coro_if_needed (first_run (env fd))
                (first_mod_ok (env fd)) s1 (Conn fd)) as Hone.
    { unfold accept_one, epoll_ctl_add. rewrite Hok.
      change (io_epoll sp) with (io_epoll s). rewrite Hne.
      rewrite bool_decide_eq_true_2 by done. done. }
    rewrite Hone, Hk. clear Hone.
    destruct (spawn_coro_fresh sa l fd k)
      as (sb & Hsb & Htr & Hep & Hfb & _ & Hcb & Hdb & Hrb & Hpb & Htb & Hkb
          & Hlb & Hpend & Hob); try done.
    { change (io_dq sa) with (io_dq s). by rewrite Hz. }
    { change (io_dq sa) with (io_dq s). by rewrite Hz. }
    { change (io_dq sa) with (io_dq s). by rewrite Hz. }
    change (io_dq sa) with (io_dq s) in *.
    rewrite Hsb. cbn [mbind result_bind].
    assert (valid (io_dq sb) (Conn fd)) as Hvb
      by (cbn [valid] in *; by rewrite Hlb).
    destruct (resume_coro_if_needed (first_run (env fd))
                (first_mod_ok (env fd)) sb (Conn fd)) as [sc| |] eqn:Hsc.
    2,3: rewrite (resume_unfold sb fd k) in Hsc;
           [discriminate | done | by rewrite Hfb | done].
    destruct (resume_cases_alive sb fd _ _ sc Hvb Hka Hsc)
      as [(f & Hqc & Hfa) | (? & _)]; [|lia].
    destruct (resume_io_frame sb fd _ _ sc Hy Hsc) as (Hpc & Hec & Hsome).
    assert (forall m, m <> Conn fd ->
              payload (deref (io_dq sc) m) = payload (deref (io_dq sb) m))
      as Hpc'.
    { intros m Hm. rewrite Hqc. unfold set_flags.
      rewrite deref_assign by done. by rewrite decide_False. }
    assert (flags (deref (io_dq sc) (Conn fd)) = f
            /\ time_to_die (deref (io_dq sc) (Conn fd))
               = time_to_die (deref (io_dq sb) (Conn fd))
            /\ coro (deref (io_dq sc) (Conn fd))
               = coro (deref (io_dq sb) (Conn fd))) as (Hf2 & Hd2 & Hc2).
    { rewrite Hqc. unfold set_flags. rewrite deref_assign by done.
      by rewrite decide_True. }
    destruct (IH sc (l ++ [fd]))
      as (s' & Hs' & Hr' & Hp' & Ht' & Hk' & Hl' & Hpay' & Hep' & Hin').
    { rewrite Hqc. eapply repr_same_links; [| | | exact Hrb];
        intros; reads. }
    { done. }
    { intros fd' Hfd'.
      destruct (Hall fd' ltac:(by right))
        as (Hnz' & Hv' & Hfl' & Hne' & Hz' & Hho').
      assert (fd' <> fd) as Hdiff by (by intros ->).
      split_and!; try done.
      - rewrite Hqc. unfold_sets. cbn [valid] in *.
        by rewrite length_assign, Hlb.
      - intros Hx. apply elem_of_app in Hx as [?|Hx]; [done |].
        by apply list_elem_of_singleton in Hx.
      - rewrite Hec by done. rewrite Hep. subst sa.
        cbn [io_epoll with_epoll emit]. by rewrite lookup_insert_ne.
      - rewrite Hqc. unfold set_flags. rewrite deref_assign by done.
        rewrite decide_False by congruence. by rewrite Hob. }
    exists s'. split; [exact Hs' |].
    assert (length (conns (io_dq sc)) = length (conns (io_dq s))) as Hlc
      by (rewrite Hqc; unfold_sets; by rewrite length_assign, Hlb).
    assert (time (io_dq sc) = time (io_dq s)) as Htc
      by (rewrite Hqc; unfold_sets; by rewrite time_assign, Htb).
    assert (keep_alive_timeout (io_dq sc) = keep_alive_timeout (io_dq s))
      as Hkc by (rewrite Hqc; unfold_sets; by rewrite kat_assign, Hkb).
    split_and!.
    + by rewrite <- app_assoc in Hr'.
    + done.
    + by rewrite Ht'.
    + by rewrite Hk'.
    + by rewrite Hl'.
    + intros i Hi.
      assert (i <> fd) as Hif by (intros ->; apply Hi; by left).
      rewrite Hpay' by (intros ?; apply Hi; by right).
      rewrite Hpc' by congruence. by apply Hpb.
    + intros fd' Hfd'.
      assert (fd' <> fd) as Hif by (intros ->; apply Hfd'; by left).
      rewrite Hep' by (intros ?; apply Hfd'; by right).
      rewrite Hec by done. rewrite Hep. subst sa.
      cbn [io_epoll with_epoll emit]. by rewrite lookup_insert_ne.
    + intros fd' Hfd'. apply elem_of_cons in Hfd' as [-> | Hfd'].
      * rewrite Hep' by done.
        destruct (payload_inv _ _ (Hpay' fd Hfr)) as (Hf1 & Hd1 & Hc1).
        unfold deadline. rewrite Hf1, Hd1, Hc1.
        rewrite Hf2, Hd2, Hc2. split_and!.
        -- apply Hsome. rewrite Hep. subst sa.
           cbn [io_epoll with_epoll emit]. rewrite lookup_insert_eq. eauto.
        -- by rewrite Hcb, Hk.
        -- rewrite Hfa, Hfb. reflexivity.
        -- exact Hdb.
      * destruct (Hin' fd' Hfd') as (? & ? & ? & Hd').
        split_and!; try done. by rewrite Hd', Htc, Hkc.
Qed.

Lemma run_must_read_keeps_alive : keeps_alive run_must_read.
Proof. intros f. unfold run_must_read. cbn [on_flags]. by flag_bits. Qed.

(** X13.  Handoff, end to end.  The acceptor adds the descriptors [fds]
    (distinct, non-zero, inside the table, not linked and not registered),
    then the worker drains them with [accept_nudge]; every registration
    succeeds, every coroutine is created and none aborts on its first
    resume.  Then the drain consumes the whole queue of pending descriptors,
    and every descriptor ends up registered, alive, with its coroutine and
    the deadline [dq.time + keep_alive_timeout], linked behind the
    connections that were there, in the order of the handoff.  [dq.time] and
    the other slots' flags, deadlines and coroutines are unchanged. *)
Theorem handoff_links_every_descriptor s l fds env :
  dll_repr (io_dq s) l -> io_pending s = [] -> NoDup fds ->
  (forall fd, fd ∈ fds ->
     fd <> O /\ valid (io_dq s) (Conn fd) /\ (fd ∉ l)
     /\ io_epoll s !! fd = None /\ hands_off env fd) ->
  exists s',
    accept_nudge true env (foldl lwan_thread_add_client s fds) = Ret s'
    /\ dll_repr (io_dq s') (l ++ fds)
    /\ io_pending s' = []
    /\ time (io_dq s') = time (io_dq s)
    /\ (forall fd, fd ∈ fds ->
          is_Some (io_epoll s' !! fd)
          /\ coro (deref (io_dq s') (Conn fd)) = created (env fd)
          /\ flag_set (flags (deref (io_dq s') (Conn fd))) CONN_IS_ALIVE
             = true
          /\ deadline (io_dq s') fd
             = u32 (time (io_dq s) + keep_alive_timeout (io_dq s)))
    /\ (forall i, i ∉ fds ->
          payload (deref (io_dq s') (Conn i))
          = payload (deref (io_dq s) (Conn i))).
Proof.
  intros Hrepr Hpend Hnd Hall.
  destruct (add_clients_frame fds s)
    as (Hp & He & _ & Hl & Ht & Hk & Hh & Hout & Hin).
  set (s0 := foldl lwan_thread_add_client s fds) in *.
  rewrite Hpend in Hp. simpl in Hp.
  assert (dll_repr (io_dq s0) l) as Hrepr0.
  { eapply repr_same_links_on; [exact Hl | | exact Hrepr].
    intros m [-> | (i & -> & Hi)].
    - unfold deref. by rewrite Hh.
    - rewrite Hout; [done |]. intros Hx.
      by destruct (Hall i Hx) as (_ & _ & ? & _). }
  destruct (accept_loop_links env fds s0 l Hrepr0 Hnd)
    as (s' & Hs' & Hr' & Hp' & Ht' & Hk' & _ & Hpay' & _ & Hin').
  { intros fd Hfd. destruct (Hall fd Hfd) as (? & Hv & ? & ? & ?).
    split_and!; try done.
    - cbn [valid] in *. by rewrite Hl.
    - by rewrite He.
    - by apply Hin. }
  exists s'. split.
  { unfold accept_nudge. by rewrite Hp. }
  split_and!; try done.
  - by rewrite Ht'.
  - intros fd Hfd. destruct (Hin' fd Hfd) as (? & ? & ? & Hd).
    split_and!; try done. by rewrite Hd, Ht, Hk.
  - intros i Hi. rewrite Hpay' by done. by rewrite Hout.
Qed.

(** Descriptors 1, 2 and 3 are handed to the idle worker; each coroutine
    finds no input and asks to read. *)
Lemma handoff_links_every_descriptor_witness :
  exists s',
    accept_nudge true (handoffs (answering run_must_read run_served true))
      (foldl lwan_thread_add_client worker_idle [1; 2; 3]%nat) = Ret s'
    /\ dll_repr (io_dq s') ([] ++ [1; 2; 3]%nat)
    /\ io_pending s' = [].
Proof.
  assert (dll_repr (io_dq worker_idle) []) as H by by_evaluation.
  assert (NoDup [1; 2; 3]%nat) as Hnd by by_evaluation.
  destruct (handoff_links_every_descriptor worker_idle [] [1; 2; 3]%nat
              (handoffs (answering run_must_read run_served true))
              H eq_refl Hnd)
    as (s' & Hs' & Hr' & Hp' & _).
  { intros fd Hfd. apply list_elem_of_In in Hfd. simpl in Hfd.
    destruct Hfd as [<- | [<- | [<- | []]]];
      (split_and!;
       [discriminate | by_evaluation | apply not_elem_of_nil
        | vm_compute; reflexivity
        | split_and!;
          [reflexivity | vm_compute; eauto | vm_compute; discriminate
           | apply run_must_read_keeps_alive]]). }
  exists s'. split; [exact Hs' |]. split; [exact Hr' | exact Hp'].
Defined.

(** ** Events *)

(** A resume that does not abort changes nothing of the queue but the flags
    of its connection. *)
Lemma resume_no_abort s c k r ok :
  valid (io_dq s) (Conn c) ->
  coro (deref (io_dq s) (Conn c)) = Some k ->
  CONN_CORO_MAY_RESUME <= yield_result r ->
  exists s' f,
    resume_coro_if_needed r ok s (Conn c) = Ret s'
    /\ io_dq s' = set_flags (io_dq s) (Conn c) f.
Proof.
  intros Hv Ec Hy. unfold resume_coro_if_needed. rewrite Ec.
  destruct (negb _).
  { exists s, (flags (deref (io_dq s) (Conn c))).
    split; [done |]. by rewrite set_flags_same. }
  unfold coro_resume. rewrite Ec.
  change (io_dq (emit s (CoroResume k))) with (io_dq s).
  set (f := on_flags r (flags (deref (io_dq s) (Conn c)))).
  set (s1 := with_dq (emit s (CoroResume k))
               (set_flags (io_dq s) (Conn c) f)).
  assert (io_dq s1 = set_flags (io_dq s) (Conn c) f) as Hs1 by done.
  assert (valid (io_dq s1) (Conn c)) as Hv1
    by (rewrite Hs1; unfold_sets; solve_valid).
  destruct (Z.ltb_spec (yield_result r) CONN_CORO_MAY_RESUME); [lia |].
  destruct (flag_set _ CONN_MUST_READ).
  { eexists _, _. split; [done |].
    destruct (rearm_spec ok true s1 c Hv1) as [_ ->].
    rewrite Hs1. by rewrite set_flags_twice. }
  set (f' := if yield_result r =? CONN_CORO_MAY_RESUME then _ else _).
  set (s2 := with_dq s1 (set_flags (io_dq s1) (Conn c) f')).
  assert (io_dq s2 = set_flags (io_dq s) (Conn c) f') as Hs2
    by (subst s2; cbn [io_dq with_dq]; rewrite Hs1;
        by rewrite set_flags_twice).
  assert (valid (io_dq s2) (Conn c)) as Hv2
    by (rewrite Hs2; unfold_sets; solve_valid).
  destruct (eqb _ _).
  { by exists s2, f'. }
  eexists _, _. split; [done |].
  destruct (rearm_spec ok (flag_set f' CONN_WRITE_EVENTS) s2 c Hv2)
    as [_ ->].
  rewrite Hs2. by rewrite set_flags_twice.
Qed.

(** X14.  An event without hangup bits for a linked connection whose
    coroutine does not abort: [thread_io_loop] resumes the connection and
    re-seats it at the tail of the queue, behind every other connection and
    in their former order.  Its new deadline is
    [dq.time + keep_alive_timeout] when KEEP_ALIVE or SHOULD_RESUME is set
    after the resume, and [dq.time] otherwise; the other slots keep their
    flags, deadline and coroutine, and [dq.time] is unchanged. *)
Theorem served_event_reseats a e s l1 c l2 k :
  dll_repr (io_dq s) (l1 ++ c :: l2) ->
  coro (deref (io_dq s) (Conn c)) = Some k ->
  data_ptr e = Some (Conn c) ->
  flag_set (events e) (Z.lor EPOLLRDHUP EPOLLHUP) = false ->
  CONN_CORO_MAY_RESUME <= yield_result (run a) ->
  exists s',
    handle_event a e s = Ret s'
    /\ dll_repr (io_dq s') (l1 ++ l2 ++ [c])
    /\ deadline (io_dq s') c
       = (if flag_set (flags (deref (io_dq s') (Conn c))) CONN_KEEP_ALIVE
             || flag_set (flags (deref (io_dq s') (Conn c)))
                  CONN_SHOULD_RESUME_CORO
          then u32 (time (io_dq s) + keep_alive_timeout (io_dq s))
          else time (io_dq s))
    /\ time (io_dq s') = time (io_dq s)
    /\ (forall i, i <> c ->
          payload (deref (io_dq s') (Conn i))
          = payload (deref (io_dq s) (Conn i))).
Proof.
  intros Hrepr Ec Hp Hh Hy.
  destruct (repr_not_in _ _ _ _ Hrepr) as [_ Hv].
  destruct (resume_no_abort s c k (run a) (mod_ok a) Hv Ec Hy)
    as (s1 & f & Hr & Hq).
  assert (dll_repr (io_dq s1) (l1 ++ c :: l2)) as Hrepr1.
  { rewrite Hq. eapply repr_same_links; [| | | exact Hrepr]; intros; reads. }
  destruct (move_to_last_linked (io_dq s1) l1 c l2 Hrepr1)
    as (Hd & Hr' & _ & _ & Hf & _ & Hpay & _ & Ht & Hk).
  exists (with_dq s1 (death_queue_move_to_last (io_dq s1) (Conn c))).
  split.
  { unfold handle_event. rewrite Hp, Hh, Hr. done. }
  cbn [io_dq with_dq].
  assert (time (io_dq s1) = time (io_dq s)) as Ht1 by (rewrite Hq; reads).
  assert (keep_alive_timeout (io_dq s1) = keep_alive_timeout (io_dq s))
    as Hk1 by (rewrite Hq; reads).
  split_and!.
  - done.
  - rewrite Hd, Hf. unfold refreshed_deadline. by rewrite Ht1, Hk1.
  - by rewrite Ht.
  - intros i Hi. rewrite Hpay by done. rewrite Hq. unfold payload.
    assert (Conn i <> Conn c) by congruence. reads.
Qed.

(** Descriptor 1 of [worker_spawned] becomes readable and its coroutine
    serves a request. *)
Lemma served_event_reseats_witness :
  dll_repr (io_dq worker_spawned) ([] ++ 1%nat :: [])
  /\ exists s',
       handle_event (answering run_must_read run_served true)
         (mk_event EPOLLIN (Some (Conn 1))) worker_spawned = Ret s'
       /\ dll_repr (io_dq s') ([] ++ [] ++ [1%nat]).
Proof.
  assert (dll_repr (io_dq worker_spawned) ([] ++ 1%nat :: [])) as H
    by by_evaluation.
  split; [exact H |].
  destruct (served_event_reseats (answering run_must_read run_served true)
              (mk_event EPOLLIN (Some (Conn 1))) worker_spawned
              [] 1%nat [] 7%nat H)
    as (s' & Hr & Hq & _);
    [vm_compute; reflexivity | reflexivity | vm_compute; reflexivity
     | vm_compute; discriminate |].
  exists s'. split; [exact Hr | exact Hq].
Defined.

(** X15.  A hangup wins over every other ready bit: when EPOLLHUP or
    EPOLLRDHUP is reported for a linked, alive connection, [thread_io_loop]
    destroys it without resuming its coroutine, whatever else is reported
    and whatever the flags of the connection; the coroutine is freed, the
    descriptor closed and dropped from the interest list, and the connection
    leaves the queue. *)
Theorem hangup_event_destroys a e s l1 c l2 k :
  dll_repr (io_dq s) (l1 ++ c :: l2) ->
  coro (deref (io_dq s) (Conn c)) = Some k ->
  flag_set (flags (deref (io_dq s) (Conn c))) CONN_IS_ALIVE = true ->
  data_ptr e = Some (Conn c) ->
  flag_set (events e) EPOLLHUP = true
  \/ flag_set (events e) EPOLLRDHUP = true ->
  exists s',
    handle_event a e s = Ret s'
    /\ io_trace s' = io_trace s ++ [CoroFree k; CloseFd c]
    /\ io_epoll s' = delete c (io_epoll s)
    /\ dll_repr (io_dq s') (l1 ++ l2)
    /\ (forall i, i <> c ->
          payload (deref (io_dq s') (Conn i))
          = payload (deref (io_dq s) (Conn i))).
Proof.
  intros Hrepr Ec Ha Hp Hh.
  destruct (destroy_coro_alive s l1 c l2 k Hrepr Ec Ha)
    as (Ht & He & _ & _ & _ & _ & _ & Hr & Hpay).
  exists (destroy_coro s (Conn c)). split; [|by split_and!].
  unfold handle_event. rewrite Hp, flag_set_lor.
  by destruct Hh as [-> | ->]; rewrite ?orb_true_r.
Qed.

(** Descriptor 1 of [worker_spawned] is reported readable and hung up at
    once. *)
Lemma hangup_event_destroys_witness :
  dll_repr (io_dq worker_spawned) ([] ++ 1%nat :: [])
  /\ exists s',
       handle_event (answering run_must_read run_served true)
         (mk_event (Z.lor EPOLLIN EPOLLRDHUP) (Some (Conn 1)))
         worker_spawned = Ret s'
       /\ io_trace s' = io_trace worker_spawned ++ [CoroFree 7; CloseFd 1]
       /\ dll_repr (io_dq s') ([] ++ []).
Proof.
  assert (dll_repr (io_dq worker_spawned) ([] ++ 1%nat :: [])) as H
    by by_evaluation.
  split; [exact H |].
  destruct (hangup_event_destroys (answering run_must_read run_served true)
              (mk_event (Z.lor EPOLLIN EPOLLRDHUP) (Some (Conn 1)))
              worker_spawned [] 1%nat [] 7%nat H)
    as (s' & Hr & Ht & _ & Hq & _);
    [vm_compute; reflexivity | vm_compute; reflexivity | reflexivity
     | right; vm_compute; reflexivity |].
  exists s'. split; [exact Hr |]. split; [exact Ht | exact Hq].
Defined.

(** X16.  A coroutine that yields above MAY_RESUME with MUST_READ clear is
    not run again: the resume clears SHOULD_RESUME, so every later
    [resume_coro_if_needed] on the connection returns at once and leaves the
    worker as it is, whatever the coroutine would have done. *)
Theorem finished_coroutine_is_not_resumed s c r ok s' r' ok' :
  valid (io_dq s) (Conn c) ->
  CONN_CORO_MAY_RESUME < yield_result r ->
  flag_set (on_flags r (flags (deref (io_dq s) (Conn c)))) CONN_MUST_READ
  = false ->
  resume_coro_if_needed r ok s (Conn c) = Ret s' ->
  resume_coro_if_needed r' ok' s' (Conn c) = Ret s'.
Proof.
  intros Hv Hy Hm Hr.
  destruct (coro (deref (io_dq s) (Conn c))) as [k|] eqn:Ec;
    [| unfold resume_coro_if_needed in Hr; by rewrite Ec in Hr].
  destruct (flag_set (flags (deref (io_dq s) (Conn c)))
              CONN_SHOULD_RESUME_CORO) eqn:Es.
  2: { unfold resume_coro_if_needed in Hr. rewrite Ec, Es in Hr.
       cbn [negb] in Hr. injection Hr as <-.
       unfold resume_coro_if_needed. by rewrite Ec, Es. }
  rewrite (resume_unfold s c k r ok Ec Es) in Hr by lia.
  cbv zeta in Hr.
  set (f := on_flags r (flags (deref (io_dq s) (Conn c)))) in *.
  set (s1 := with_dq (emit s (CoroResume k))
               (set_flags (io_dq s) (Conn c) f)) in *.
  assert (io_dq s1 = set_flags (io_dq s) (Conn c) f) as Hs1 by done.
  assert (valid (io_dq s1) (Conn c)) as Hv1
    by (rewrite Hs1; unfold_sets; solve_valid).
  assert (flags (deref (io_dq s1) (Conn c)) = f) as Hf1
    by (rewrite Hs1; reads).
  assert (coro (deref (io_dq s1) (Conn c)) = Some k) as Hc1
    by (rewrite Hs1; reads).
  rewrite Hf1, Hm in Hr.
  destruct (Z.eqb_spec (yield_result r) CONN_CORO_MAY_RESUME); [lia |].
  set (f' := Z.land f (Z.lnot CONN_SHOULD_RESUME_CORO)) in *.
  set (s2 := with_dq s1 (set_flags (io_dq s1) (Conn c) f')) in *.
  assert (io_dq s2 = set_flags (io_dq s1) (Conn c) f') as Hs2 by done.
  assert (valid (io_dq s2) (Conn c)) as Hv2
    by (rewrite Hs2; unfold_sets; solve_valid).
  assert (flags (deref (io_dq s2) (Conn c)) = f') as Hf2
    by (rewrite Hs2; reads).
  assert (coro (deref (io_dq s2) (Conn c)) = Some k) as Hc2
    by (rewrite Hs2; reads).
  assert (flag_set f' CONN_SHOULD_RESUME_CORO = false) as Hsr
    by (subst f'; by flag_bits).
  destruct (eqb _ _); injection Hr as <-.
  - unfold resume_coro_if_needed. by rewrite Hc2, Hf2, Hsr.
  - destruct (rearm_spec ok (flag_set f' CONN_WRITE_EVENTS) s2 c Hv2)
      as [_ Hq].
    unfold resume_coro_if_needed. rewrite Hq.
    assert (coro (deref (set_flags (io_dq s2) (Conn c)
                   (Z.lxor (flags (deref (io_dq s2) (Conn c)))
                      CONN_WRITE_EVENTS)) (Conn c)) = Some k) as ->
      by reads.
    assert (flags (deref (set_flags (io_dq s2) (Conn c)
                   (Z.lxor (flags (deref (io_dq s2) (Conn c)))
                      CONN_WRITE_EVENTS)) (Conn c))
            = Z.lxor f' CONN_WRITE_EVENTS) as ->
      by (rewrite Hf2; reads).
    assert (flag_set (Z.lxor f' CONN_WRITE_EVENTS) CONN_SHOULD_RESUME_CORO
            = false) as ->
      by (subst f'; by flag_bits).
    done.
Qed.

(** The coroutine of descriptor 1 of [worker_spawned] yields FINISHED; a
    later resume that would abort does nothing. *)
Lemma finished_coroutine_is_not_resumed_witness :
  exists s',
    resume_coro_if_needed run_finished true worker_spawned (Conn 1) = Ret s'
    /\ resume_coro_if_needed run_abort true s' (Conn 1) = Ret s'.
Proof.
  pose (s' := state_of
                (resume_coro_if_needed run_finished true worker_spawned
                   (Conn 1)) worker_spawned).
  assert (resume_coro_if_needed run_finished true worker_spawned (Conn 1)
          = Ret s') as Hr by (vm_compute; reflexivity).
  exists s'. split; [exact Hr |].
  apply (finished_coroutine_is_not_resumed worker_spawned 1%nat
           run_finished true s' run_abort true);
    [by_evaluation | vm_compute; reflexivity | vm_compute; reflexivity
     | exact Hr].
Defined.

(** ** Failed registrations *)

Lemma accept_loop_failing env fds : forall s,
  (forall fd, fd ∈ fds -> fd <> O /\ add_ok (env fd) = false) ->
  exists s',
    accept_loop env fds s = Ret s'
    /\ io_dq s' = io_dq s
    /\ io_epoll s' = io_epoll s
    /\ io_pending s' = []
    /\ io_trace s'
       = io_trace s
         ++ flat_map
              (fun fd =>
                 [EpollCtlAdd fd
                    (mk_event (nth 1%nat events_by_write_flag 0) None)
                    false;
                  StatusPerror "epoll_ctl"])
              fds.
Proof.
  induction fds as [|fd rest IH]; intros s Hall.
  - exists (with_pending s []). cbn [accept_loop flat_map].
    rewrite app_nil_r. by split_and!.
  - destruct (Hall fd) as [Hfd Hadd]; [by left |].
    cbn [accept_loop]. rewrite bool_decide_eq_false_2 by done.
    unfold accept_one, epoll_ctl_add. rewrite Hadd. cbn [andb].
    set (s1 := emit (emit (with_pending s rest) _) _).
    destruct (IH s1) as (s' & Hs' & Hq & He & Hp & Ht).
    { intros x Hx. apply Hall. by right. }
    exists s'. split; [exact Hs' |].
    split_and!; try done.
    rewrite Ht. subst s1. cbn [io_trace emit with_pending flat_map].
    by rewrite <- !app_assoc.
Qed.

(** X17.  When [epoll_ctl] refuses every pending descriptor, [accept_nudge]
    still drains the queue of pending descriptors, and for each of them it
    only reports the error: no coroutine is created, the death queue and
    the interest list are unchanged, and the descriptor is not closed. *)
Theorem failed_registration_abandons_descriptor env s :
  (forall fd, fd ∈ io_pending s -> fd <> O /\ add_ok (env fd) = false) ->
  exists s',
    accept_nudge true env s = Ret s'
    /\ io_dq s' = io_dq s
    /\ io_epoll s' = io_epoll s
    /\ io_pending s' = []
    /\ io_trace s'
       = io_trace s
         ++ flat_map
              (fun fd =>
                 [EpollCtlAdd fd
                    (mk_event (nth 1%nat events_by_write_flag 0) None)
                    false;
                  StatusPerror "epoll_ctl"])
              (io_pending s).
Proof. intros Hall. unfold accept_nudge. by apply accept_loop_failing. Qed.

(** Descriptors 1 and 2 are handed to the idle worker and both registrations
    fail. *)
Lemma failed_registration_abandons_descriptor_witness :
  exists s',
    accept_nudge true
      (fun fd => mk_handoff false (Some (6 + fd)%nat) run_served true)
      (foldl lwan_thread_add_client worker_idle [1; 2]%nat) = Ret s'
    /\ io_epoll s' = io_epoll worker_idle
    /\ io_pending s' = [].
Proof.
  destruct (failed_registration_abandons_descriptor
              (fun fd => mk_handoff false (Some (6 + fd)%nat) run_served true)
              (foldl lwan_thread_add_client worker_idle [1; 2]%nat))
    as (s' & Hr & _ & He & Hp & _).
  { intros fd Hfd.
    assert (fd ∈ [1; 2]%nat) as Hin by exact Hfd.
    apply list_elem_of_In in Hin. simpl in Hin.
    destruct Hin as [<- | [<- | []]]; split; [discriminate | reflexivity
      | discriminate | reflexivity]. }
  exists s'. split; [exact Hr |]. split; [exact He | exact Hp].
Defined.

(** * The worker loop *)

(** ** Resuming, registration by registration *)



(** ** The wiring of queue and registrations *)












(** ** Timeout *)



(** ** Handoff *)




(** ** Events *)





(** ** The invariant of the worker loop *)



(** ** Example runs *)

Lemma delivered_one s fd a ready ev :
  io_epoll s !! fd = Some ev ->
  delivered s [(fd, (a, mk_event ready (data_ptr ev)))].
Proof.
  intros Hfd. split.
  - apply NoDup_singleton.
  - intros g a' e Hin. apply list_elem_of_singleton in Hin.
    injection Hin as -> _ ->. exists ready. unfold reported. by rewrite Hfd.
Qed.

Lemma run_same_flags_keeps_alive y : keeps_alive (mk_run y (fun f => f)).
Proof. by intros f. Qed.

Lemma answering_well_behaved first later ok :
  keeps_alive first -> keeps_alive later ->
  well_behaved (answering first later ok).
Proof. intros Hf Hl. split; [exact Hl |]. intros fd. exact Hf. Qed.

(** The worker is woken up through its wakeup descriptor 9. *)
Lemma reach_wakeup p s first s' :
  reachable p s [] ->
  io_epoll s !! 9%nat = Some (mk_event EPOLLIN None) ->
  keeps_alive first ->
  handle_event (answering first run_served true) (mk_event EPOLLIN None) s
  = Ret s' ->
  reachable p s' [].
Proof.
  intros Hr H9 Hka Hh.
  apply (reach_event p s 9%nat (answering first run_served true)
           (mk_event EPOLLIN None) [] s'); [| | | | exact Hh].
  - apply reach_wait; [exact Hr |].
    by apply (delivered_one s 9%nat _ EPOLLIN (mk_event EPOLLIN None)).
  - apply answering_well_behaved; [exact Hka |].
    apply run_same_flags_keeps_alive.
  - intros _ conn Hc. discriminate.
  - intros _ conn Hc. discriminate.
Qed.

(** An event is reported for a registered descriptor. *)
Lemma reach_ready p s fd ready r ev s' :
  reachable p s [] ->
  io_epoll s !! fd = Some ev ->
  keeps_alive r ->
  (no_abort p = true ->
   resumes_without_abort (answering run_served r true)
     (mk_event ready (data_ptr ev)) s) ->
  (reseat_flagged p = true ->
   reseats_flagged (mk_event ready (data_ptr ev)) s') ->
  handle_event (answering run_served r true) (mk_event ready (data_ptr ev)) s
  = Ret s' ->
  reachable p s' [].
Proof.
  intros Hr Hfd Hka Hna Hfl Hh.
  apply (reach_event p s fd (answering run_served r true)
           (mk_event ready (data_ptr ev)) [] s'); [| | exact Hna | exact Hfl
                                                   | exact Hh].
  - apply reach_wait; [exact Hr |]. by apply delivered_one.
  - apply answering_well_behaved; [apply run_same_flags_keeps_alive |].
    exact Hka.
Qed.

Lemma worker_cruising_second t tr :
  0 <= t -> t + 1 < 2 ^ 32 ->
  death_queue_kill_waiting 8 (worker_cruising t tr)
  = Ret (worker_waiting t tr).
Proof.
  intros H0 H1. unfold worker_waiting, worker_cruising.
  generalize (<[1%nat := mk_event (events_for ArmWrite) (Some (Conn 1))]>
                ({[ 9%nat := mk_event EPOLLIN None ]}
                 : gmap nat epoll_event)).
  intros ep. cbv -[Z.add Z.gtb u32 app Z.pow].
  rewrite (u32_small (t + 1)) by lia.
  destruct (Z.gtb_spec (t + 15) (t + 1)); [reflexivity | lia].
Qed.

Lemma worker_cruising_served t tr :
  0 <= t -> t + 16 < 2 ^ 32 ->
  handle_event (answering run_served run_served true)
    (mk_event EPOLLOUT (Some (Conn 1))) (worker_waiting t tr)
  = Ret (worker_cruising (t + 1) (tr ++ [CoroResume 7])).
Proof.
  intros H0 H1. unfold worker_waiting, worker_cruising.
  generalize (<[1%nat := mk_event (events_for ArmWrite) (Some (Conn 1))]>
                ({[ 9%nat := mk_event EPOLLIN None ]}
                 : gmap nat epoll_event)).
  intros ep. cbv -[Z.add Z.gtb u32 app Z.pow].
  rewrite (u32_small (t + 1 + 15)) by lia. reflexivity.
Qed.


(** The run [abort_run] obeys the provisos on re-seating and on the tick. *)
Lemma abort_run_reachable :
  reachable (mk_provisos false true true) (foldl after worker_idle abort_run)
            [].
Proof.
  set (p := mk_provisos false true true).
  pose (ev1 := mk_event (events_for ArmWrite) (Some (Conn 1))).
  pose (ev2 := mk_event (events_for ArmWrite) (Some (Conn 2))).
  pose (s1 := after worker_idle (Handoff 1)).
  pose (s2 := after s1 (Wakeup run_served)).
  pose (s3 := after s2 (Handoff 2)).
  pose (s4 := after s3 (Handoff 3)).
  pose (s5 := after s4 (Ready 1 EPOLLOUT run_abort)).
  pose (s6 := after s5 (Handoff 1)).
  pose (s7 := after s6 (Wakeup run_served)).
  pose (s8 := after s7 Second).
  pose (s9 := after s8 (Ready 1 EPOLLOUT run_served)).
  pose (s10 := after s9 (Ready 1 EPOLLHUP run_served)).
  pose (s11 := after s10 (Ready 2 EPOLLHUP run_served)).
  assert (reachable p s1 []) as H1.
  { apply reach_add_client;
      [apply reach_init; lia | by_evaluation | vm_compute; reflexivity]. }
  assert (reachable p s2 []) as H2.
  { apply (reach_wakeup p s1 run_served s2 H1);
      [vm_compute; reflexivity | apply run_same_flags_keeps_alive
       | vm_compute; reflexivity]. }
  assert (reachable p s3 []) as H3.
  { apply reach_add_client;
      [exact H2 | by_evaluation | vm_compute; reflexivity]. }
  assert (reachable p s4 []) as H4.
  { apply reach_add_client;
      [exact H3 | by_evaluation | vm_compute; reflexivity]. }
  assert (reachable p s5 []) as H5.
  { apply (reach_ready p s4 1%nat EPOLLOUT run_abort ev1 s5 H4).
    - vm_compute. reflexivity.
    - apply run_same_flags_keeps_alive.
    - discriminate.
    - intros _ conn Hc _. injection Hc as <-. vm_compute. reflexivity.
    - vm_compute. reflexivity. }
  assert (reachable p s6 []) as H6.
  { apply reach_add_client;
      [exact H5 | by_evaluation | vm_compute; reflexivity]. }
  assert (reachable p s7 []) as H7.
  { apply (reach_wakeup p s6 run_served s7 H6);
      [vm_compute; reflexivity | apply run_same_flags_keeps_alive
       | vm_compute; reflexivity]. }
  assert (reachable p s8 []) as H8.
  { apply (reach_timeout p s7 8%nat s8 H7).
    - intros _. vm_compute. reflexivity.
    - vm_compute. reflexivity. }
  assert (reachable p s9 []) as H9.
  { apply (reach_ready p s8 1%nat EPOLLOUT run_served ev1 s9 H8).
    - vm_compute. reflexivity.
    - apply run_same_flags_keeps_alive.
    - discriminate.
    - intros _ conn Hc _. injection Hc as <-. vm_compute. reflexivity.
    - vm_compute. reflexivity. }
  assert (reachable p s10 []) as H10.
  { apply (reach_ready p s9 1%nat EPOLLHUP run_served ev1 s10 H9).
    - vm_compute. reflexivity.
    - apply run_same_flags_keeps_alive.
    - discriminate.
    - intros _ conn _ Hh. vm_compute in Hh. discriminate.
    - vm_compute. reflexivity. }
  apply (reach_ready p s10 2%nat EPOLLHUP run_served ev2 s11 H10).
  - vm_compute. reflexivity.
  - apply run_same_flags_keeps_alive.
  - discriminate.
  - intros _ conn _ Hh. vm_compute in Hh. discriminate.
  - vm_compute. reflexivity.
Qed.

(** The proviso on aborts is needed: [abort_run] obeys the two others and
    ends in a well-formed queue that links 1, 3 with the deadlines 16, 15
    (slot 1 is the destroyed one). *)
Lemma abort_on_event_breaks_order :
  ~ (forall s b,
       reachable (mk_provisos false true true) s b -> P4 (io_dq s)).
Proof.
  intros HP4.
  specialize (HP4 _ _ abort_run_reachable [1; 3]%nat).
  assert (dll_repr (io_dq (foldl after worker_idle abort_run)) [1; 3]%nat)
    as Hrepr by by_evaluation.
  apply HP4 in Hrepr. vm_compute in Hrepr.
  inversion Hrepr as [|? ? _ Hhd]. inversion Hhd as [|? ? Hle].
  by apply Hle.
Qed.

(** A single connection served every second keeps the worker going for as
    long as the deadline fits 32 bits. *)
Lemma worker_cruising_reachable p t :
  0 <= t -> t + 16 <= 2 ^ 32 ->
  exists tr, reachable p (worker_cruising t tr) [].
Proof.
  intros Ht. revert t Ht. apply (natlike_ind (fun t => t + 16 <= 2 ^ 32 ->
    exists tr, reachable p (worker_cruising t tr) [])).
  - intros _.
    pose (s1 := after worker_idle (Handoff 1)).
    pose (s2 := after s1 (Wakeup run_served)).
    exists (io_trace s2).
    assert (reachable p s1 []) as H1.
    { apply reach_add_client;
        [apply reach_init; lia | by_evaluation | vm_compute; reflexivity]. }
    apply (reach_wakeup p s1 run_served _ H1);
      [vm_compute; reflexivity | apply run_same_flags_keeps_alive
       | vm_compute; reflexivity].
  - intros t Ht IH Hb. destruct IH as [tr Hr]; [lia |].
    exists (tr ++ [CoroResume 7]).
    assert (reachable p (worker_waiting t tr) []) as Hw.
    { apply (reach_timeout p (worker_cruising t tr) 8%nat _ Hr).
      - intros _. cbn. lia.
      - apply worker_cruising_second; lia. }
    replace (Z.succ t) with (t + 1) by lia.
    apply (reach_ready p (worker_waiting t tr) 1%nat EPOLLOUT run_served
             (mk_event (events_for ArmWrite) (Some (Conn 1))) _ Hw).
    + vm_compute. reflexivity.
    + apply run_same_flags_keeps_alive.
    + intros _ conn _ _ _. vm_compute. discriminate.
    + intros _ conn Hc _. injection Hc as <-. vm_compute. reflexivity.
    + apply worker_cruising_served; lia.
Qed.

(** The proviso on the tick is needed: after [2 ^ 32 - 15] seconds with
    descriptor 1 served all along, the deadline of a new connection wraps
    to 0 behind the deadline [2 ^ 32 - 1] of descriptor 1.  No coroutine
    aborts and every re-seated connection is flagged. *)
Lemma wrapped_deadline_breaks_order :
  ~ (forall s b,
       reachable (mk_provisos true true false) s b -> P4 (io_dq s)).
Proof.
  intros HP4. set (p := mk_provisos true true false) in *.
  destruct (worker_cruising_reachable p (2 ^ 32 - 16)) as [tr Hr];
    [lia | lia |].
  pose (s1 := worker_waiting (2 ^ 32 - 16) tr).
  pose (s2 := after s1 (Handoff 2)).
  assert (reachable p s1 []) as H1.
  { apply (reach_timeout p (worker_cruising (2 ^ 32 - 16) tr) 8%nat _ Hr).
    - discriminate.
    - apply worker_cruising_second; lia. }
  assert (reachable p s2 []) as H2.
  { apply reach_add_client;
      [exact H1 | by_evaluation | vm_compute; reflexivity]. }
  assert (reachable p (worker_wrapped tr) []) as H3.
  { apply (reach_wakeup p s2 run_served _ H2);
      [vm_compute; reflexivity | apply run_same_flags_keeps_alive
       | vm_compute; reflexivity]. }
  specialize (HP4 _ _ H3 [1; 2]%nat).
  assert (dll_repr (io_dq (worker_wrapped tr)) [1; 2]%nat) as Hrepr
    by by_evaluation.
  apply HP4 in Hrepr. vm_compute in Hrepr.
  inversion Hrepr as [|? ? _ Hhd]. inversion Hhd as [|? ? Hle].
  by apply Hle.
Qed.

(** ** Monotone deadlines *)



